(** * gpg-verifier: checksum manifests, hashing queue and detached verification

    A shallow embedding of the verification engine of the browser
    application: [checksum-addon.js] (manifest grammars, hashing backends,
    the sequential file queue, the checksum section shown and hidden by
    the main script) and, of [app.js], the input handlers with the state
    they write, the Start Over / Stop button, and the detached-signature
    branch of [verifySignature] with the stream it reads the data file
    through.

    Conventions of the embedding.
    - A JavaScript string is the list of its UTF-16 code units.
    - A regular-expression literal is a list of nodes, one per syntactic
      item of the literal, run by a backtracking matcher that follows the
      order in which the ECMAScript matcher explores alternatives.
    - The object used as the filename -> digest map is the list of its own
      properties in insertion order (array indices are enumerated first),
      with [Object.prototype] behind it: reading a name falls back on the
      members every object inherits, and an assignment to [__proto__]
      stores nothing.
    - The DOM is reduced to the events the properties talk about (what is
      displayed, which dialog is opened, which job starts hashing).
    - The cryptography and hashing libraries are collaborators: they appear
      as an interface ([Sha256]) or as environment values. *)

From Stdlib Require Import String Ascii.
From Stdlib Require Import List NArith Arith Bool Lia Sorted.
Import ListNotations.

Set Implicit Arguments.

(* ===================================================================== *)
(** ** JavaScript strings *)
(* ===================================================================== *)

Module JS.

Local Open Scope N_scope.

(** A UTF-16 code unit. *)
Definition char := N.
Definition jsstring := list char.

(** A string literal of the source, as code units. *)
Definition js (s : string) : jsstring :=
  map N_of_ascii (list_ascii_of_string s).

Definition in_range (lo hi x : char) : bool := (lo <=? x) && (x <=? hi).

(** LineTerminator: LF, CR, LS, PS. *)
Definition is_line_terminator (x : char) : bool :=
  (x =? 10) || (x =? 13) || (x =? 8232) || (x =? 8233).

(** WhiteSpace and LineTerminator: what [\s] matches and [trim] removes. *)
Definition is_space (x : char) : bool :=
  in_range 9 13 x || (x =? 32) || (x =? 160) || (x =? 5760)
  || in_range 8192 8202 x || (x =? 8232) || (x =? 8233) || (x =? 8239)
  || (x =? 8287) || (x =? 12288) || (x =? 65279).

Fixpoint eqb (a b : jsstring) : bool :=
  match a, b with
  | [], [] => true
  | x :: a', y :: b' => (x =? y) && eqb a' b'
  | _, _ => false
  end.

Fixpoint trimStart (s : jsstring) : jsstring :=
  match s with
  | x :: s' => if is_space x then trimStart s' else s
  | [] => []
  end.

(** [String.prototype.trim] *)
Definition trim (s : jsstring) : jsstring :=
  rev (trimStart (rev (trimStart s))).

(** [s.split(sep)] for a one-character separator test: the segments between
    separators, an empty string giving one empty segment. *)
Fixpoint split_on (sep : char -> bool) (s : jsstring) : list jsstring :=
  match s with
  | [] => [[]]
  | x :: s' =>
      if sep x then [] :: split_on sep s'
      else match split_on sep s' with
           | seg :: segs => (x :: seg) :: segs
           | [] => [[x]]
           end
  end.

(** [content.split('\n')] *)
Definition split_lines (content : jsstring) : list jsstring :=
  split_on (fun x => x =? 10) content.

(** [name.split(/[\/\\]/).pop()]: the segment after the last slash or
    backslash. *)
Definition is_path_sep (x : char) : bool := (x =? 47) || (x =? 92).

Definition last_segment (name : jsstring) : jsstring :=
  last (split_on is_path_sep name) [].

(** [toLowerCase] on the ASCII letters (it is only applied to text matched
    by [[0-9a-f]] under the [i] flag). *)
Definition lower (x : char) : char := if in_range 65 90 x then x + 32 else x.
Definition toLowerCase (s : jsstring) : jsstring := map lower s.

Definition startsWith (s : jsstring) (x : char) : bool :=
  match s with y :: _ => y =? x | [] => false end.

(** [s.substring(0, n)] and [s.includes(c)] *)
Definition substring0 (n : nat) (s : jsstring) : jsstring := firstn n s.
Definition includes (s : jsstring) (x : char) : bool := existsb (N.eqb x) s.

End JS.

Import JS.

(* ===================================================================== *)
(** ** Regular expressions of the source *)
(* ===================================================================== *)

Module Regex.

Local Open Scope N_scope.

(** Character classes, as the literals write them. *)
Inductive cclass : Type :=
| CChar (c : char)            (* a literal character, escaped or not *)
| CRange (lo hi : char)       (* [lo-hi] *)
| CSpace                      (* \s *)
| CDot                        (* . *)
| CUnion (a b : cclass)       (* members of one bracket *)
| CNot (a : cclass).          (* [^...] *)

(** Items of a pattern.  Every quantifier of the source applies to a single
    character class, so a quantified atom is one node. *)
Inductive node : Type :=
| Bol                                             (* ^ *)
| Eol                                             (* $ *)
| Rep (c : cclass) (lo : nat) (hi : option nat)   (* greedy c{lo,hi} *)
| Alt (words : list jsstring)                     (* (?:w1|w2|...) *)
| Open (g : nat)                                  (* ( of group g *)
| Close (g : nat).                                (* ) of group g *)

Definition One (c : cclass) : node := Rep c 1 (Some 1%nat).
Definition Plus (c : cclass) : node := Rep c 1 None.
Definition Star (c : cclass) : node := Rep c 0 None.
Definition Opt (c : cclass) : node := Rep c 0 (Some 1%nat).

Record flags : Type := { ignoreCase : bool; multiline : bool }.

(** Canonicalize of the [i] flag without [u]: upper-casing; only the ASCII
    letters matter for the classes and words of the source. *)
Definition canonicalize (fl : flags) (x : char) : char :=
  if ignoreCase fl && in_range 97 122 x then x - 32 else x.

(** The other ASCII case of a letter. *)
Definition swapcase (x : char) : char :=
  if in_range 97 122 x then x - 32
  else if in_range 65 90 x then x + 32 else x.

Fixpoint class_mem (fl : flags) (c : cclass) (x : char) : bool :=
  match c with
  | CChar a => canonicalize fl a =? canonicalize fl x
  | CRange lo hi =>
      in_range lo hi x || (ignoreCase fl && in_range lo hi (swapcase x))
  | CSpace => is_space x
  | CDot => negb (is_line_terminator x)
  | CUnion a b => class_mem fl a x || class_mem fl b x
  | CNot a => negb (class_mem fl a x)
  end.

(** Capture boundaries, as offsets from the start of the match. *)
Record captures : Type := { starts : list (nat * nat); ends : list (nat * nat) }.

Definition no_captures : captures := {| starts := []; ends := [] |}.

Fixpoint assoc (g : nat) (l : list (nat * nat)) : option nat :=
  match l with
  | [] => None
  | (h, v) :: l' => if Nat.eqb g h then Some v else assoc g l'
  end.

(** A continuation receives the character before the current position,
    the offset and the rest of the input. *)
Definition cont (R : Type) : Type := option char -> nat -> jsstring -> option R.

(** Greedy repetition: one more character first, the continuation only when
    that fails and the minimum is reached. *)
Fixpoint rep_greedy (R : Type) (k : cont R) (p : char -> bool)
    (lo : nat) (hi : option nat) (prev : option char) (pos : nat)
    (s : jsstring) {struct s} : option R :=
  let stop := if Nat.eqb lo 0 then k prev pos s else None in
  match hi with
  | Some O => stop
  | _ =>
      match s with
      | x :: s' =>
          if p x then
            match rep_greedy k p (Nat.pred lo) (option_map Nat.pred hi)
                    (Some x) (S pos) s' with
            | Some r => Some r
            | None => stop
            end
          else stop
      | [] => stop
      end
  end.

(** A literal word at the current position: the character last read and
    the rest of the input. *)
Fixpoint match_word (fl : flags) (w : jsstring) (prev : option char)
    (s : jsstring) : option (option char * jsstring) :=
  match w with
  | [] => Some (prev, s)
  | a :: w' =>
      match s with
      | x :: s' =>
          if canonicalize fl a =? canonicalize fl x
          then match_word fl w' (Some x) s'
          else None
      | [] => None
      end
  end.

(** Alternatives in order; the next one is tried when the rest of the
    pattern fails after the current one. *)
Fixpoint alt_try (R : Type) (fl : flags) (k : cont R) (words : list jsstring)
    (prev : option char) (pos : nat) (s : jsstring) : option R :=
  match words with
  | [] => None
  | w :: ws =>
      let here :=
        match match_word fl w prev s with
        | Some (prev', s') => k prev' (pos + List.length w)%nat s'
        | None => None
        end in
      match here with
      | Some r => Some r
      | None => alt_try fl k ws prev pos s
      end
  end.

Definition at_bol (fl : flags) (prev : option char) : bool :=
  match prev with
  | None => true
  | Some x => multiline fl && is_line_terminator x
  end.

Definition at_eol (fl : flags) (s : jsstring) : bool :=
  match s with
  | [] => true
  | x :: _ => multiline fl && is_line_terminator x
  end.

(** The matcher of a pattern at one position: the captures and the length
    of the match. *)
Fixpoint run (fl : flags) (items : list node) (caps : captures)
    (prev : option char) (pos : nat) (s : jsstring) : option (captures * nat) :=
  match items with
  | [] => Some (caps, pos)
  | Bol :: rest => if at_bol fl prev then run fl rest caps prev pos s else None
  | Eol :: rest => if at_eol fl s then run fl rest caps prev pos s else None
  | Rep c lo hi :: rest =>
      rep_greedy (fun prev' pos' s' => run fl rest caps prev' pos' s')
        (class_mem fl c) lo hi prev pos s
  | Alt words :: rest =>
      alt_try fl (fun prev' pos' s' => run fl rest caps prev' pos' s')
        words prev pos s
  | Open g :: rest =>
      run fl rest {| starts := (g, pos) :: starts caps; ends := ends caps |}
        prev pos s
  | Close g :: rest =>
      run fl rest {| starts := starts caps; ends := (g, pos) :: ends caps |}
        prev pos s
  end.

(** The text of group [g] of a match that starts at the head of [s]. *)
Definition group (caps : captures) (g : nat) (s : jsstring) : jsstring :=
  match assoc g (starts caps), assoc g (ends caps) with
  | Some b, Some e => firstn (e - b) (skipn b s)
  | _, _ => []
  end.

(** The first position, from the left, at which the pattern matches. *)
Fixpoint search (fl : flags) (items : list node) (prev : option char)
    (s : jsstring) : option (captures * jsstring) :=
  match run fl items no_captures prev 0 s with
  | Some (caps, _) => Some (caps, s)
  | None =>
      match s with
      | [] => None
      | x :: s' => search fl items (Some x) s'
      end
  end.

(** [re.test(s)] on a fresh literal ([lastIndex] is 0). *)
Definition test (fl : flags) (items : list node) (s : jsstring) : bool :=
  match search fl items None s with Some _ => true | None => false end.

(** [s.match(re)] without the [g] flag: the groups [1..n] of the first
    match. *)
Definition exec (fl : flags) (items : list node) (n : nat) (s : jsstring)
  : option (list jsstring) :=
  match search fl items None s with
  | Some (caps, from) => Some (map (fun g => group caps g from) (seq 1 n))
  | None => None
  end.

End Regex.

Import Regex.

(* ===================================================================== *)
(** ** Objects used as maps *)
(* ===================================================================== *)

Module Obj.

Local Open Scope N_scope.

(** An object created by [{}]: its own properties, with string values, in
    insertion order.  Its prototype is [Object.prototype]. *)
Definition obj := list (jsstring * jsstring).

(** The own property [k], if there is one. *)
Fixpoint get (o : obj) (k : jsstring) : option jsstring :=
  match o with
  | [] => None
  | (k', v) :: o' => if JS.eqb k k' then Some v else get o' k
  end.

(** The properties of [Object.prototype]: eleven functions and the
    accessor [__proto__]. *)
Definition proto : jsstring := js "__proto__".

Definition prototype_keys : list jsstring :=
  [js "constructor"; js "hasOwnProperty"; js "isPrototypeOf";
   js "propertyIsEnumerable"; js "toLocaleString"; js "toString";
   js "valueOf"; js "__defineGetter__"; js "__defineSetter__";
   js "__lookupGetter__"; js "__lookupSetter__"; proto].

Definition inherits (k : jsstring) : bool := existsb (JS.eqb k) prototype_keys.

(** What reading a property gives: a string of the object's own, a member
    of [Object.prototype] (a function, or the prototype itself for
    [__proto__]), or [undefined]. *)
Inductive value : Type :=
| undefined
| string_value (s : jsstring)
| prototype_member (k : jsstring).

(** [o[k]]: own properties first, then the prototype. *)
Definition read (o : obj) (k : jsstring) : value :=
  match get o k with
  | Some v => string_value v
  | None => if inherits k then prototype_member k else undefined
  end.

(** Truthiness: of the three only the empty string and [undefined] are
    false. *)
Definition truthy_value (x : value) : bool :=
  match x with
  | undefined => false
  | string_value [] => false
  | string_value (_ :: _) => true
  | prototype_member _ => true
  end.

(** [x === s] for a string [s]. *)
Definition strict_eqb (x : value) (s : jsstring) : bool :=
  match x with
  | string_value v => JS.eqb v s
  | _ => false
  end.

(** A data property is created or updated; an existing property keeps its
    place. *)
Fixpoint define (o : obj) (k v : jsstring) : obj :=
  match o with
  | [] => [(k, v)]
  | (k', v') :: o' =>
      if JS.eqb k k' then (k', v) :: o' else (k', v') :: define o' k v
  end.

(** [o[k] = v] for a string [v]: the setter of [__proto__] ignores a value
    that is neither an object nor [null], so that assignment stores
    nothing; every other key becomes or stays an own property (the data
    properties of the prototype are writable). *)
Definition set (o : obj) (k v : jsstring) : obj :=
  if JS.eqb k proto then o else define o k v.

(** [Object.prototype.hasOwnProperty], applied to [o]. *)
Definition hasOwnProperty (o : obj) (k : jsstring) : bool :=
  match get o k with Some _ => true | None => false end.

(** [o.hasOwnProperty(k)]: the method is looked up on [o] itself, and a
    string found there cannot be called ([None]: TypeError). *)
Definition call_hasOwnProperty (o : obj) (k : jsstring) : option bool :=
  match read o (js "hasOwnProperty") with
  | prototype_member _ => Some (hasOwnProperty o k)
  | _ => None
  end.

(** Array indices: canonical decimal strings below 2^32 - 1.  They are
    enumerated first, in ascending numeric order. *)
Definition is_digit (x : char) : bool := in_range 48 57 x.

Definition digits_value (k : jsstring) : N :=
  fold_left (fun n x => 10 * n + (x - 48)) k 0.

Definition array_index (k : jsstring) : option N :=
  match k with
  | [] => None
  | x :: k' =>
      if forallb is_digit k
         && negb ((x =? 48) && negb (Nat.eqb (List.length k') 0))
         && (List.length k <=? 10)%nat
         && (digits_value k <=? 4294967294)
      then Some (digits_value k) else None
  end.

Fixpoint insert_index (i : N) (e : jsstring * jsstring)
    (l : list (N * (jsstring * jsstring))) : list (N * (jsstring * jsstring)) :=
  match l with
  | [] => [(i, e)]
  | (j, e') :: l' =>
      if i <=? j then (i, e) :: l else (j, e') :: insert_index i e l'
  end.

Fixpoint indexed (o : obj) : list (N * (jsstring * jsstring)) :=
  match o with
  | [] => []
  | e :: o' =>
      match array_index (fst e) with
      | Some i => insert_index i e (indexed o')
      | None => indexed o'
      end
  end.

Definition named (o : obj) : obj :=
  filter (fun e => match array_index (fst e) with Some _ => false | None => true end) o.

(** [Object.entries(o)], [Object.keys(o)], [Object.values(o)] *)
Definition entries (o : obj) : list (jsstring * jsstring) :=
  map snd (indexed o) ++ named o.
Definition keys (o : obj) : list jsstring := map fst (entries o).
Definition values (o : obj) : list jsstring := map snd (entries o).

End Obj.

(* ===================================================================== *)
(** ** Checksum manifests ([checksum-addon.js], lines 39-120) *)
(* ===================================================================== *)

Module Manifest.

Local Open Scope N_scope.

Definition ch (a : ascii) : char := N_of_ascii a.

(** [[0-9a-f]] *)
Definition hexdigit : cclass := CUnion (CRange (ch "0") (ch "9")) (CRange (ch "a") (ch "f")).

Definition algo_words : list jsstring :=
  [js "SHA256"; js "SHA512"; js "SHA1"; js "MD5"].

(** [/^([0-9a-f]{32,128})\s+([^\s].+)$/gm] *)
Definition standardPattern_flags : flags := {| ignoreCase := false; multiline := true |}.
Definition standardPattern : list node :=
  [Bol; Open 1; Rep hexdigit 32 (Some 128%nat); Close 1; Plus CSpace;
   Open 2; One (CNot CSpace); Plus CDot; Close 2; Eol].

(** [/^(?:SHA256|SHA512|SHA1|MD5)\s*\([^)]+\)\s*=\s*([0-9a-f]{32,128})/gim] *)
Definition bsdPattern_flags : flags := {| ignoreCase := true; multiline := true |}.
Definition bsdPattern : list node :=
  [Bol; Alt algo_words; Star CSpace; One (CChar (ch "("));
   Plus (CNot (CChar (ch ")"))); One (CChar (ch ")")); Star CSpace;
   One (CChar (ch "=")); Star CSpace;
   Open 1; Rep hexdigit 32 (Some 128%nat); Close 1].

Definition containsChecksums (content : jsstring) : bool :=
  if test standardPattern_flags standardPattern content then true
  else if test bsdPattern_flags bsdPattern content then true
  else false.

(** The three patterns of [parseChecksums], all with the [i] flag only. *)
Definition line_flags : flags := {| ignoreCase := true; multiline := false |}.

(** [/^([0-9a-f]{32,128})\s+[\*\s]?(.+)$/i] *)
Definition format1 : list node :=
  [Bol; Open 1; Rep hexdigit 32 (Some 128%nat); Close 1; Plus CSpace;
   Opt (CUnion (CChar (ch "*")) CSpace); Open 2; Plus CDot; Close 2; Eol].

(** [/^(?:SHA256|SHA512|SHA1|MD5)\s*\(([^)]+)\)\s*=\s*([0-9a-f]{32,128})/i] *)
Definition format2 : list node :=
  [Bol; Alt algo_words; Star CSpace; One (CChar (ch "("));
   Open 1; Plus (CNot (CChar (ch ")"))); Close 1; One (CChar (ch ")"));
   Star CSpace; One (CChar (ch "=")); Star CSpace;
   Open 2; Rep hexdigit 32 (Some 128%nat); Close 2].

(** [/^([0-9a-f]{32,128})\s*=\s*(.+)$/i] *)
Definition format3 : list node :=
  [Bol; Open 1; Rep hexdigit 32 (Some 128%nat); Close 1; Star CSpace;
   One (CChar (ch "=")); Star CSpace; Open 2; Plus CDot; Close 2; Eol].

(** The body of the loop of [parseChecksums] for one line. *)
Definition parse_line (checksums : Obj.obj) (line : jsstring) : Obj.obj :=
  let trimmed := trim line in
  if match trimmed with [] => true | _ => false end || startsWith trimmed (ch "#")
  then checksums
  else
    match exec line_flags format1 2 trimmed with
    | Some [m1; m2] =>
        let hash := toLowerCase m1 in
        let filename := last_segment (trim m2) in
        Obj.set checksums filename hash
    | _ =>
        match exec line_flags format2 2 trimmed with
        | Some [m1; m2] =>
            let filename := last_segment (trim m1) in
            let hash := toLowerCase m2 in
            Obj.set checksums filename hash
        | _ =>
            match exec line_flags format3 2 trimmed with
            | Some [m1; m2] =>
                let hash := toLowerCase m1 in
                let filename := last_segment (trim m2) in
                Obj.set checksums filename hash
            | _ => checksums
            end
        end
    end.

Definition parseChecksums (content : jsstring) : Obj.obj :=
  fold_left parse_line (split_lines content) [].

Inductive algorithm : Type := MD5 | SHA_1 | SHA_256 | SHA_512 | Unknown.

Definition getHashAlgorithm (hash : jsstring) : algorithm :=
  match List.length hash with
  | 32%nat => MD5
  | 40%nat => SHA_1
  | 64%nat => SHA_256
  | 128%nat => SHA_512
  | _ => Unknown
  end.

End Manifest.

Import Manifest.

(* ===================================================================== *)
(** ** Hash computation ([checksum-addon.js], lines 163-431) *)
(* ===================================================================== *)

Module Hashing.

Local Open Scope N_scope.

Definition byte := N.
Definition chunk := list byte.

(** The interface both hashing libraries offer ([hashwasm.createSHA256()]
    with [update]/[digest('hex')], [sha256.create()] with [update]/[hex()]):
    an incremental SHA-256 whose result is 64 hexadecimal characters. *)
Class Sha256 : Type := {
  hasher : Type;
  create : hasher;
  update : hasher -> chunk -> hasher;
  hex : hasher -> jsstring;
  hex_length : forall h, List.length (hex h) = 64%nat
}.

(** A [File]: its name and the chunks its [stream()] delivers. *)
Record File : Type := { name : jsstring; chunks : list chunk }.

Definition content (f : File) : list byte := concat (chunks f).
Definition size (f : File) : N := N.of_nat (List.length (content f)).

(** [file.slice(start, end)] followed by [arrayBuffer()] *)
Definition slice (f : File) (start stop : N) : chunk :=
  firstn (N.to_nat (stop - start)) (skipn (N.to_nat start) (content f)).

(** What the page offers during one run, and when the user clicks Stop:
    [stop = Some k] means the click is handled while the run waits on its
    [k]-th asynchronous operation (counted from 0), the only moments at
    which an event handler can run. *)
Record env : Type := {
  has_hashwasm : bool;    (* typeof hashwasm !== 'undefined' && hashwasm.createSHA256 *)
  has_stream : bool;      (* file.stream && typeof file.stream === 'function' *)
  has_sha256 : bool;      (* typeof sha256 !== 'undefined' *)
  stop : option nat
}.

(** [checksumState.verificationAborted] once [t] asynchronous operations
    of the run have completed. *)
Definition verificationAborted (e : env) (t : nat) : bool :=
  match stop e with
  | Some k => (k <? t)%nat
  | None => false
  end.

Inductive error : Type :=
| StoppedByUser        (* 'Checksum calculation stopped by user' *)
| LibraryNotLoaded.    (* 'SHA-256 library not loaded. Please refresh the page.' *)

Inductive outcome : Type :=
| Digest (hashHex : jsstring)
| Thrown (err : error).

(** Calls of [progressCallback]: intermediate ones carry the bytes processed
    (the percentage is a function of them and of [file.size], capped at 99),
    the final one is the call with 100. *)
Inductive progress : Type :=
| Progress (processedBytes : N)
| Complete (processedBytes : N).

(** The result of a run: what it returns or throws, the clock when it ends
    and the progress calls it made. *)
Definition run_result : Type := outcome * nat * list progress.

Definition MB : N := 1024 * 1024.

Section Backends.

Context (hashwasm sha256 : Sha256).

(** The loop of [calculateHashWithFileStream]: the flag is read before every
    [reader.read()]. *)
Fixpoint file_stream_loop (e : env) (hash : @hasher sha256)
    (processedBytes lastProgressUpdate : N) (t : nat) (log : list progress)
    (rest : list chunk) : run_result :=
  if verificationAborted e t then (Thrown StoppedByUser, t, log)
  else
    match rest with
    | [] => (Digest (hex hash), S t, log ++ [Complete processedBytes])
    | value :: rest' =>
        let hash' := update hash value in
        let processedBytes' := processedBytes + N.of_nat (List.length value) in
        if 100 * MB <=? processedBytes' - lastProgressUpdate
        then file_stream_loop e hash' processedBytes' processedBytes' (S t)
               (log ++ [Progress processedBytes']) rest'
        else file_stream_loop e hash' processedBytes' lastProgressUpdate (S t)
               log rest'
    end.

Definition calculateHashWithFileStream (e : env) (file : File) (t : nat)
  : run_result :=
  if negb (has_sha256 e) then (Thrown LibraryNotLoaded, t, [])
  else file_stream_loop e (@create sha256) 0 0 t [] (chunks file).

(** The loops over [chunkIndex] of [calculateHashStreaming] and of the
    chunked branch of [calculateHashWASM]: the flag is read before every
    slice; [todo] counts the iterations left. *)
Fixpoint chunked_loop (S256 : Sha256) (e : env) (file : File) (chunkSize : N)
    (hash : @hasher S256) (chunkIndex : N) (processedBytes : N) (t : nat)
    (log : list progress) (todo : nat) : run_result :=
  match todo with
  | O => (Digest (hex hash), t, log ++ [Complete processedBytes])
  | S todo' =>
      if verificationAborted e t then (Thrown StoppedByUser, t, log)
      else
        let start := chunkIndex * chunkSize in
        let stop := N.min (start + chunkSize) (size file) in
        let hash' := update hash (slice file start stop) in
        chunked_loop S256 e file chunkSize hash' (chunkIndex + 1) stop (S t)
          (log ++ [Progress stop]) todo'
  end.

(** [Math.ceil(file.size / chunkSize)] *)
Definition chunk_count (file : File) (chunkSize : N) : nat :=
  N.to_nat ((size file + chunkSize - 1) / chunkSize).

Definition calculateHashStreaming (e : env) (file : File) (chunkSize : N)
    (chunks : nat) (t : nat) : run_result :=
  if negb (has_sha256 e) then (Thrown LibraryNotLoaded, t, [])
  else chunked_loop sha256 e file chunkSize (@create sha256) 0 0 t [] chunks.

(** The hot loop of [calculateHashWASM]: the flag is read only when 250 MB
    were processed since the last progress call. *)
Fixpoint wasm_stream_loop (e : env) (hasher : @hasher hashwasm)
    (processedBytes lastProgressUpdate : N) (t : nat) (log : list progress)
    (rest : list chunk) : run_result :=
  match rest with
  | [] => (Digest (hex hasher), S t, log ++ [Complete processedBytes])
  | value :: rest' =>
      let hasher' := update hasher value in
      let processedBytes' := processedBytes + N.of_nat (List.length value) in
      if 250 * MB <=? processedBytes' - lastProgressUpdate then
        if verificationAborted e (S t) then (Thrown StoppedByUser, S t, log)
        else wasm_stream_loop e hasher' processedBytes' processedBytes' (S t)
               (log ++ [Progress processedBytes']) rest'
      else wasm_stream_loop e hasher' processedBytes' lastProgressUpdate (S t)
             log rest'
  end.

(** [calculateHashWASM]: whatever its body throws, the Stop error included,
    is caught and answered by a fresh run on the js-sha256 path. *)
Definition calculateHashWASM (e : env) (file : File) (t : nat) : run_result :=
  let t := S t in                       (* await hashwasm.createSHA256() *)
  let attempt :=
    if has_stream e
    then wasm_stream_loop e (@create hashwasm) 0 0 t [] (chunks file)
    else chunked_loop hashwasm e file (256 * MB) (@create hashwasm) 0 0 t []
           (chunk_count file (256 * MB)) in
  match attempt with
  | (Digest h, t', log) => (Digest h, t', log)
  | (Thrown _, t', log) =>
      let '(r, t'', log') :=
        if has_stream e then calculateHashWithFileStream e file t'
        else calculateHashStreaming e file (256 * MB)
               (chunk_count file (256 * MB)) t' in
      (r, t'', log ++ log')
  end.

Definition calculateFileHash (e : env) (file : File) : run_result :=
  if has_hashwasm e then calculateHashWASM e file 0
  else if has_stream e then calculateHashWithFileStream e file 0
  else calculateHashStreaming e file (256 * MB) (chunk_count file (256 * MB)) 0.

End Backends.

End Hashing.

Import Hashing.

(* ===================================================================== *)
(** ** A reference SHA-256 (FIPS 180-4)

    The hashing libraries are not part of the repository; this instance of
    their interface makes the examples below run on real digests. *)
(* ===================================================================== *)

Module Reference.

Local Open Scope N_scope.

Definition w32 (x : N) : N := x mod 4294967296.
Definition add32 (a b : N) : N := w32 (a + b).
Definition rotr (n x : N) : N := N.lor (N.shiftr x n) (w32 (N.shiftl x (32 - n))).
Definition not32 (x : N) : N := N.lxor x 4294967295.

Definition Ch (x y z : N) : N := N.lxor (N.land x y) (N.land (not32 x) z).
Definition Maj (x y z : N) : N :=
  N.lxor (N.lxor (N.land x y) (N.land x z)) (N.land y z).
Definition Sigma0 (x : N) : N := N.lxor (N.lxor (rotr 2 x) (rotr 13 x)) (rotr 22 x).
Definition Sigma1 (x : N) : N := N.lxor (N.lxor (rotr 6 x) (rotr 11 x)) (rotr 25 x).
Definition sigma0 (x : N) : N := N.lxor (N.lxor (rotr 7 x) (rotr 18 x)) (N.shiftr x 3).
Definition sigma1 (x : N) : N := N.lxor (N.lxor (rotr 17 x) (rotr 19 x)) (N.shiftr x 10).

(** The constants are defined as the standard defines them: the first 32
    bits of the fractional parts of the cube roots (round constants) and of
    the square roots (initial state) of the first primes. *)
Definition is_prime (n : N) : bool :=
  (2 <=? n)
  && forallb (fun d => negb (n mod N.of_nat d =? 0)) (seq 2 (N.to_nat n - 2)).

Definition primes : list N :=
  filter is_prime (map N.of_nat (seq 2 310)).

(** The integer cube root, bit by bit from bit [b] down. *)
Fixpoint cube_root_bits (b : nat) (x r : N) : N :=
  let r' := r + N.shiftl 1 (N.of_nat b) in
  let r := if r' * r' * r' <=? x then r' else r in
  match b with
  | O => r
  | S b' => cube_root_bits b' x r
  end.

Definition K : list N :=
  Eval vm_compute in
    map (fun p => w32 (cube_root_bits 34 (N.shiftl p 96) 0)) primes.

Definition H0 : list N :=
  Eval vm_compute in
    map (fun p => w32 (N.sqrt (N.shiftl p 64))) (firstn 8 primes).

(** Big-endian bytes of [x], [n] of them. *)
Fixpoint be_bytes (n : nat) (x : N) : list N :=
  match n with
  | O => []
  | S n' => (N.shiftr x (8 * N.of_nat n')) mod 256 :: be_bytes n' x
  end.

Definition pad (msg : list N) : list N :=
  let len := List.length msg in
  let zeros := ((64 - ((len + 9) mod 64)) mod 64)%nat in
  msg ++ [128] ++ repeat 0 zeros ++ be_bytes 8 (8 * N.of_nat len).

Fixpoint words (n : nat) (bytes : list N) : list N :=
  match n with
  | O => []
  | S n' =>
      match bytes with
      | a :: b :: c :: d :: rest =>
          (16777216 * a + 65536 * b + 256 * c + d) :: words n' rest
      | _ => []
      end
  end.

(** The message schedule: [w] holds the words so far, latest first. *)
Fixpoint schedule (n : nat) (w : list N) : list N :=
  match n with
  | O => rev w
  | S n' =>
      let next :=
        add32 (add32 (sigma1 (nth 1 w 0)) (nth 6 w 0))
              (add32 (sigma0 (nth 14 w 0)) (nth 15 w 0)) in
      schedule n' (next :: w)
  end.

Definition round (s : list N) (kw : N * N) : list N :=
  match s with
  | [a; b; c; d; e; f; g; h] =>
      let t1 := add32 (add32 (add32 h (Sigma1 e)) (add32 (Ch e f g) (fst kw))) (snd kw) in
      let t2 := add32 (Sigma0 a) (Maj a b c) in
      [add32 t1 t2; a; b; c; add32 d t1; e; f; g]
  | _ => s
  end.

Definition compress (h : list N) (block : list N) : list N :=
  let w := schedule 48 (rev (words 16 block)) in
  map (fun p => add32 (fst p) (snd p)) (combine h (fold_left round (combine K w) h)).

Fixpoint blocks (n : nat) (h : list N) (bytes : list N) : list N :=
  match n with
  | O => h
  | S n' => blocks n' (compress h (firstn 64 bytes)) (skipn 64 bytes)
  end.

Definition digest_words (msg : list N) : list N :=
  let p := pad msg in
  blocks (List.length p / 64) H0 p.

Definition hexchar (d : N) : char := if d <? 10 then 48 + d else 87 + d.

Definition hex8 (w : N) : jsstring :=
  map (fun i => hexchar ((N.shiftr w (4 * i)) mod 16)) [7; 6; 5; 4; 3; 2; 1; 0].

(** The digest as text: eight words of eight digits. *)
Definition sha256_hex (msg : list N) : jsstring :=
  flat_map hex8 (firstn 8 (digest_words msg ++ repeat 0 8)).

Lemma length_flat_map_hex8 (l : list N) :
  List.length (flat_map hex8 l) = (8 * List.length l)%nat.
Proof.
  induction l as [|w l IH]; [reflexivity|].
  cbn [flat_map]. rewrite length_app, IH. cbn [hex8 map List.length]. lia.
Qed.

Lemma sha256_hex_length (msg : list N) : List.length (sha256_hex msg) = 64%nat.
Proof.
  unfold sha256_hex. rewrite length_flat_map_hex8, length_firstn, length_app,
    repeat_length. lia.
Qed.

(** The interface on top of it: the state is the input so far. *)
#[export] Instance sha256_reference : Sha256 := {|
  hasher := list byte;
  create := [];
  update := fun h c => h ++ c;
  hex := sha256_hex;
  hex_length := sha256_hex_length
|}.

End Reference.

(* ===================================================================== *)
(** ** The verification queue ([checksum-addon.js], lines 23-37, 526-840) *)
(* ===================================================================== *)

Module Queue.

Inductive status : Type := pending | processing | completed | error.

(** An element of [fileQueue]. *)
Record QueueItem : Type := {
  file : File;
  item_status : status;
  result : option jsstring      (* [error.message] of a failed job *)
}.

(** What [verifyFileChecksum] writes into the result panel. *)
Inductive report : Type :=
| CHECKSUM_VERIFIED (matchedFilename : jsstring) (alg : algorithm)
    (calculatedHash : jsstring)
| CHECKSUM_MISMATCH (expectedHash : Obj.value) (calculatedHash : jsstring)
| FILENAME_MISMATCH (fileName calculatedHash : jsstring)
| ERROR_TypeError            (* reading [length] of [undefined] *)
| ERROR (err : Hashing.error)
| hidden.                    (* stopped: the panel stays hidden *)

(** Truthiness of a string. *)
Definition truthy (s : jsstring) : bool :=
  match s with [] => false | _ => true end.

(** [verifiedFiles.add(name)] on the [Set]. *)
Definition add (verifiedFiles : list jsstring) (x : jsstring) : list jsstring :=
  if existsb (JS.eqb x) verifiedFiles then verifiedFiles else verifiedFiles ++ [x].

(** The first entry, in enumeration order, whose digest is the calculated
    one. *)
Definition find_by_hash (parsedChecksums : Obj.obj) (calculatedHash : jsstring)
  : option (jsstring * jsstring) :=
  find (fun e => JS.eqb (snd e) calculatedHash) (Obj.entries parsedChecksums).

(** Lines 685-701: [matchedFilename] and [expectedHash], both [null] when
    nothing is found.  The lookup by name goes through the prototype. *)
Definition lookup (parsedChecksums : Obj.obj) (fileName calculatedHash : jsstring)
  : option (jsstring * Obj.value) :=
  if Obj.truthy_value (Obj.read parsedChecksums fileName)
  then Some (fileName, Obj.read parsedChecksums fileName)
  else
    match find_by_hash parsedChecksums calculatedHash with
    | Some (filename, hash) => Some (filename, Obj.string_value hash)
    | None => None
    end.

(** [getHashAlgorithm(expectedHash)], called where [expectedHash] is the
    calculated string. *)
Definition algorithm_of (expectedHash : Obj.value) : algorithm :=
  match expectedHash with
  | Obj.string_value h => getHashAlgorithm h
  | _ => Unknown
  end.

Section Verify.

Context (hashwasm sha256 : Sha256).

(** [verifyFileChecksum]: the new [verifiedFiles] and what is reported. *)
Definition verifyFileChecksum (parsedChecksums : Obj.obj)
    (verifiedFiles : list jsstring) (e : env) (file : File)
  : list jsstring * report :=
  match Obj.values parsedChecksums with
  | [] => (verifiedFiles, ERROR_TypeError)
  | _ :: _ =>
      match calculateFileHash hashwasm sha256 e file with
      | (Digest calculatedHash, _, _) =>
          match lookup parsedChecksums (name file) calculatedHash with
          | Some (matchedFilename, expectedHash) =>
              if truthy matchedFilename
                 && Obj.strict_eqb expectedHash calculatedHash
              then (add verifiedFiles matchedFilename,
                    CHECKSUM_VERIFIED matchedFilename
                      (algorithm_of expectedHash) calculatedHash)
              else if Obj.truthy_value expectedHash
                      && negb (Obj.strict_eqb expectedHash calculatedHash)
              then (verifiedFiles, CHECKSUM_MISMATCH expectedHash calculatedHash)
              else (verifiedFiles, FILENAME_MISMATCH (name file) calculatedHash)
          | None => (verifiedFiles, FILENAME_MISMATCH (name file) calculatedHash)
          end
      | (Thrown err, t, _) =>
          if verificationAborted e t then (verifiedFiles, hidden)
          else (verifiedFiles, ERROR err)
      end
  end.

(** The page state the queue works on.  [items] holds every queue item ever
    created, by identity; [fileQueue] is the array of references;
    [queueItem] is the item the suspended [processQueue] is waiting for;
    [timers] counts the pending [setTimeout] callbacks that empty the
    queue. *)
Record State : Type := {
  parsedChecksums : Obj.obj;
  verifiedFiles : list jsstring;
  items : list QueueItem;
  fileQueue : list nat;
  isProcessingQueue : bool;
  queueItem : option nat;
  timers : nat
}.

Definition initial (manifest : Obj.obj) : State :=
  {| parsedChecksums := manifest; verifiedFiles := []; items := [];
     fileQueue := []; isProcessingQueue := false; queueItem := None;
     timers := 0 |}.

(** The observable effects of a handler. *)
Inductive effect : Type :=
| NoChecksumsLoaded                   (* the NO CHECKSUMS LOADED panel *)
| Confirm (notInList : list jsstring) (* the [confirm] dialog *)
| NotAFunction                        (* TypeError: the handler's promise rejects *)
| Started (id : nat)                  (* item [id] is handed to [verifyFileChecksum] *)
| Reported (id : nat) (r : report).   (* its report *)

Definition status_of (its : list QueueItem) (id : nat) : option status :=
  option_map item_status (nth_error its id).

Fixpoint update_item (its : list QueueItem) (id : nat)
    (f : QueueItem -> QueueItem) : list QueueItem :=
  match its, id with
  | [], _ => []
  | it :: its', O => f it :: its'
  | it :: its', S id' => it :: update_item its' id' f
  end.

Definition set_status (st : status) (r : option jsstring) (it : QueueItem)
  : QueueItem :=
  {| file := file it; item_status := st;
     result := match r with Some _ => r | None => result it end |}.

(** [fileQueue.findIndex(f => f.status === 'pending')], as the item found. *)
Fixpoint findPending (its : list QueueItem) (q : list nat) : option nat :=
  match q with
  | [] => None
  | id :: q' =>
      match status_of its id with
      | Some pending => Some id
      | _ => findPending its q'
      end
  end.

(** The head of the [while] loop of [processQueue], up to the call of
    [verifyFileChecksum] or to the end of the function. *)
Definition loop_head (s : State) : State * list effect :=
  let finish :=
    ({| parsedChecksums := parsedChecksums s; verifiedFiles := verifiedFiles s;
        items := items s; fileQueue := fileQueue s;
        isProcessingQueue := false; queueItem := None;
        timers := S (timers s) |}, []) in
  match fileQueue s with
  | [] => finish
  | _ :: _ =>
      match findPending (items s) (fileQueue s) with
      | None => finish
      | Some id =>
          ({| parsedChecksums := parsedChecksums s;
              verifiedFiles := verifiedFiles s;
              items := update_item (items s) id (set_status processing None);
              fileQueue := fileQueue s;
              isProcessingQueue := true; queueItem := Some id;
              timers := timers s |}, [Started id])
      end
  end.

Definition processQueue (s : State) : State * list effect :=
  if isProcessingQueue s then (s, [])
  else loop_head
         {| parsedChecksums := parsedChecksums s; verifiedFiles := verifiedFiles s;
            items := items s; fileQueue := fileQueue s;
            isProcessingQueue := true; queueItem := queueItem s;
            timers := timers s |}.

Definition new_item (f : File) : QueueItem :=
  {| file := f; item_status := pending; result := None |}.

(** [files.filter(f => !parsedChecksums.hasOwnProperty(f.name))]: [None]
    when the callback throws, which it does for the first file if at
    all. *)
Definition filesNotInList (parsedChecksums : Obj.obj) (files : list File)
  : option (list File) :=
  match files with
  | [] => Some []
  | f :: _ =>
      match Obj.call_hasOwnProperty parsedChecksums (name f) with
      | None => None
      | Some _ =>
          Some (filter
                  (fun f => negb (Obj.hasOwnProperty parsedChecksums (name f)))
                  files)
      end
  end.

(** [handleChecksumFileUpload]; [userConfirmed] is what [confirm] returns
    when it is called. *)
Definition handleChecksumFileUpload (s : State) (files : list File)
    (userConfirmed : bool) : State * list effect :=
  match files with
  | [] => (s, [])
  | _ :: _ =>
      match Obj.keys (parsedChecksums s) with
      | [] => (s, [NoChecksumsLoaded])
      | _ :: _ =>
        match filesNotInList (parsedChecksums s) files with
        | None => (s, [NotAFunction])
        | Some notInList =>
          let asks :=
            negb (Nat.eqb (List.length notInList) 0)
            && Nat.eqb (List.length notInList) (List.length files) in
          if asks && negb userConfirmed
          then (s, [Confirm (map name notInList)])
          else
            let queued :=
              {| parsedChecksums := parsedChecksums s;
                 verifiedFiles := verifiedFiles s;
                 items := items s ++ map new_item files;
                 fileQueue :=
                   fileQueue s ++ seq (List.length (items s)) (List.length files);
                 isProcessingQueue := isProcessingQueue s;
                 queueItem := queueItem s; timers := timers s |} in
            let '(s', started) :=
              if isProcessingQueue queued then (queued, [])
              else processQueue queued in
            (s', (if asks then [Confirm (map name notInList)] else [])
                 ++ started)
        end
      end
  end.

(** [processQueue] resumes when the awaited [verifyFileChecksum] settles:
    normally ([escaped = None]) or with an exception that escaped it. *)
Definition job_settled (s : State) (e : env) (escaped : option jsstring)
  : State * list effect :=
  match queueItem s with
  | None => (s, [])
  | Some id =>
      match nth_error (items s) id with
      | None => (s, [])
      | Some it =>
          let '(verified, st, reported) :=
            match escaped with
            | None =>
                let '(v, r) :=
                  verifyFileChecksum (parsedChecksums s) (verifiedFiles s) e
                    (file it) in
                (v, completed, [Reported id r])
            | Some _ => (verifiedFiles s, error, [])
            end in
          let '(s', started) :=
            loop_head
              {| parsedChecksums := parsedChecksums s; verifiedFiles := verified;
                 items := update_item (items s) id (set_status st escaped);
                 fileQueue := fileQueue s;
                 isProcessingQueue := isProcessingQueue s;
                 queueItem := queueItem s; timers := timers s |} in
          (s', reported ++ started)
      end
  end.

(** The [setTimeout] callback of [processQueue]: [fileQueue = []]. *)
Definition timer_fired (s : State) : State * list effect :=
  match timers s with
  | O => (s, [])
  | S n =>
      ({| parsedChecksums := parsedChecksums s; verifiedFiles := verifiedFiles s;
          items := items s; fileQueue := [];
          isProcessingQueue := isProcessingQueue s; queueItem := queueItem s;
          timers := n |}, [])
  end.

(** What can happen to the page. *)
Inductive input : Type :=
| Upload (files : list File) (userConfirmed : bool)
| Settled (e : env) (escaped : option jsstring)
| Timer.

Definition step (s : State) (i : input) : State * list effect :=
  match i with
  | Upload files userConfirmed => handleChecksumFileUpload s files userConfirmed
  | Settled e escaped => job_settled s e escaped
  | Timer => timer_fired s
  end.

(** The states a page reaches from a loaded manifest, with everything the
    handlers did on the way. *)
Inductive reaches (manifest : Obj.obj) : State -> list effect -> Prop :=
| reaches_initial : reaches manifest (initial manifest) []
| reaches_step s tr i :
    reaches manifest s tr ->
    reaches manifest (fst (step s i)) (tr ++ snd (step s i)).

End Verify.

End Queue.

(* ===================================================================== *)
(** ** Detached verification ([app.js], [verifySignature], lines 1294-1596) *)
(* ===================================================================== *)

Module Pipeline.

Local Open Scope N_scope.

(** How the data file is handed to the cryptography library. *)
Inductive data_mode : Type :=
| text_mode (dataText : jsstring)   (* [createMessage({ text: dataText })] *)
| stream_mode.                      (* [createMessage({ binary: stream })] *)

(** The data file as the branch sees it: its size, what [readFileAsText]
    resolves to ([None] when it rejects) and whether [createMessage] accepts
    the text. *)
Record DataFile : Type := {
  data_size : N;
  readFileAsText : option jsstring;
  createMessage_text_ok : bool
}.

(** Lines 1294-1320: text first for small files, the stream otherwise. *)
Definition choose_mode (dataFile : DataFile) : data_mode :=
  if data_size dataFile <? 1000000 then
    match readFileAsText dataFile with
    | Some dataText =>
        let sampleLength := Nat.min (List.length dataText) 1000 in
        let hasNullBytes := includes (substring0 sampleLength dataText) 0 in
        if negb hasNullBytes then
          if createMessage_text_ok dataFile then text_mode dataText
          else stream_mode
        else stream_mode
    | None => stream_mode
    end
  else stream_mode.

(** [verificationResult.data] *)
Inductive stream_end : Type := closes | fails.

Inductive result_data : Type :=
| ReadableStream (chunk_lengths : list N) (ending : stream_end)
| Uint8Array (length : N)
| other_data
| no_data.

(** What the cryptography library answers in one run. *)
Record crypto : Type := {
  verify_throws : bool;        (* [openpgp.verify] rejects *)
  data : result_data;
  verified_rejects : bool      (* [signatures[0].verified] rejects *)
}.

(** The values [state.verificationAborted] can take over a run of the
    branch; [t] is the number of asynchronous operations of the branch
    that have completed, counted from the call of [openpgp.verify].  The
    flag is false when the branch starts (line 1221) and becomes true when
    [stopVerification] runs (line 1133), the one place that sets it: with
    [stopVerification] run while the branch waits on its [k]-th operation,
    the flag is read as true from then on. *)
Definition never_set : nat -> bool := fun _ => false.
Definition set_while_waiting (k : nat) : nat -> bool := fun t => (k <? t)%nat.

(** What the run shows. *)
Inductive shown : Type :=
| showProgress (percent : N)
| showProgressBytes (consumedBytes : N)
| showSuccess (verifiedData : option jsstring)
| showInvalid
| showError
| hideProgress
| hideProgressLater.          (* [setTimeout(hideProgress, 2000)] *)

(** How the drain loop is left. *)
Inductive drained : Type :=
| returned (consumedChunks : nat)   (* the [return] of line 1423 *)
| finished (t : nat)                (* [done]: the loop breaks *)
| threw (t : nat).                  (* [reader.read()] rejects *)

Section Flag.

(** [state.verificationAborted] as the branch reads it once [t] of its
    operations have completed. *)
Variable verificationAborted : nat -> bool.

(** The [while (true)] loop of lines 1419-1444. *)
Fixpoint drain (t : nat) (n : nat)
    (consumedBytes lastProgressUpdate : N) (log : list shown)
    (rest : list N) (ending : stream_end) : drained * list shown :=
  if verificationAborted t then (returned n, log)
  else
    match rest with
    | [] =>
        match ending with
        | closes => (finished (S t), log ++ [showProgress 95])
        | fails => (threw (S t), log)
        end
    | len :: rest' =>
        let consumedBytes' := consumedBytes + len in
        if 50 * 1024 * 1024 <=? consumedBytes' - lastProgressUpdate
        then drain (S t) (S n) consumedBytes' consumedBytes'
               (log ++ [showProgressBytes consumedBytes']) rest' ending
        else drain (S t) (S n) consumedBytes' lastProgressUpdate log
               rest' ending
    end.

(** How the run ends. *)
Inductive exit : Type :=
| cancelled_in_drain (consumedChunks : nat)
| ran_to_end
| caught.                     (* the outer [catch] *)

(** The outer [catch] and [finally] of [verifySignature]. *)
Definition outer_catch (t : nat) (log : list shown)
  : exit * list shown :=
  if verificationAborted t then (caught, log ++ [hideProgress])
  else (caught, log ++ [showError; hideProgress; hideProgressLater]).

(** The detached branch from the call of [openpgp.verify] to the end of
    [verifySignature]; [verifiedDataContent] is the text kept for the
    checksum section in text mode. *)
Definition verify_detached (c : crypto)
    (verifiedDataContent : option jsstring) : exit * list shown :=
  let log := [showProgress 10] in
  if verify_throws c then outer_catch 1 log
  else
    let after_drain :=
      match data c with
      | ReadableStream lens ending => drain 1 0 0 0 log lens ending
      | Uint8Array _ => (finished 1, log ++ [showProgress 90])
      | other_data => (finished 1, log)
      | no_data => (finished 1, log)
      end in
    match after_drain with
    | (returned n, log') => (cancelled_in_drain n, log')
    | (threw t, log') => outer_catch t log'
    | (finished t, log') =>
        let log'' := log' ++ [showProgress 97] in
        if verified_rejects c then outer_catch (S t) log''
        else
          (ran_to_end,
           log'' ++ [showProgress 90; showProgress 100;
                     showSuccess verifiedDataContent]
           ++ (if verificationAborted (S t) then []
               else [hideProgressLater]))
    end.

End Flag.

End Pipeline.

Import Queue Pipeline.

(* ===================================================================== *)
(** ** The checksum section ([checksum-addon.js], lines 433-469, 855-909) *)
(* ===================================================================== *)

Module Panel.

(** The rest of the state of the add-on: the text the manifest was parsed
    from and whether the section is displayed. *)
Record State : Type := {
  queue : Queue.State;            (* [parsedChecksums], [verifiedFiles] and the queue *)
  verifiedContent : jsstring;
  container_shown : bool          (* [checksumElements.container.style.display] *)
}.

(** The assignments to [parsedChecksums] and [verifiedFiles]. *)
Definition with_manifest (s : Queue.State) (manifest : Obj.obj)
    (verified : list jsstring) : Queue.State :=
  {| parsedChecksums := manifest; verifiedFiles := verified;
     items := items s; fileQueue := fileQueue s;
     isProcessingQueue := isProcessingQueue s; queueItem := queueItem s;
     timers := timers s |}.

(** [initializeChecksumAddon] *)
Definition initial : State :=
  {| queue := Queue.initial []; verifiedContent := []; container_shown := false |}.

(** [showChecksumSection(content)] *)
Definition showChecksumSection (p : State) (content : jsstring) : State :=
  if negb (containsChecksums content) then
    {| queue := queue p; verifiedContent := verifiedContent p;
       container_shown := false |}
  else
    let verified :=
      if negb (JS.eqb (verifiedContent p) content) then []
      else verifiedFiles (queue p) in
    let parsed := parseChecksums content in
    {| queue := with_manifest (queue p) parsed verified;
       verifiedContent := content;
       container_shown := negb (Nat.eqb (List.length (Obj.keys parsed)) 0) |}.

(** [hideChecksumSection()] *)
Definition hideChecksumSection (p : State) : State :=
  {| queue := with_manifest (queue p) [] [];
     verifiedContent := []; container_shown := false |}.

(** What [displayChecksumList] writes: the two counts of the header, the
    algorithm named and, for every entry, whether it is ticked. *)
Record ChecksumList : Type := {
  count : nat;
  algorithm_named : algorithm;
  verifiedCount : nat;
  rows : list (jsstring * jsstring * bool)
}.

Definition displayChecksumList (checksums : Obj.obj)
    (verifiedFiles : list jsstring) : ChecksumList :=
  let count := List.length (Obj.keys checksums) in
  {| count := count;
     algorithm_named :=
       if Nat.ltb 0 count
       then match Obj.values checksums with
            | first :: _ => getHashAlgorithm first
            | [] => Unknown
            end
       else Unknown;
     verifiedCount := List.length verifiedFiles;
     rows :=
       map (fun e => (fst e, snd e, existsb (JS.eqb (fst e)) verifiedFiles))
         (Obj.entries checksums) |}.

Section Events.

Context (hashwasm sha256 : Sha256).

(** What can happen to the add-on: an event of the queue, a verified text
    handed over by the main script ([showSuccess]), or its reset
    ([resetAll], [initialize]). *)
Inductive event : Type :=
| OfQueue (i : Queue.input)
| Show (content : jsstring)
| Hide.

Definition step (p : State) (ev : event) : State :=
  match ev with
  | OfQueue i =>
      {| queue := fst (Queue.step hashwasm sha256 (queue p) i);
         verifiedContent := verifiedContent p;
         container_shown := container_shown p |}
  | Show content => showChecksumSection p content
  | Hide => hideChecksumSection p
  end.

Inductive reaches : State -> Prop :=
| reaches_initial : reaches initial
| reaches_step p ev : reaches p -> reaches (step p ev).

End Events.

End Panel.

(* ===================================================================== *)
(** ** The inputs of the main script ([app.js], lines 17-57, 252-265,
       693-767, 828-1190) *)
(* ===================================================================== *)

Module App.

Local Open Scope N_scope.

(** [PGP_MARKERS] and the literals the handlers look for. *)
Definition SIGNED_MESSAGE : jsstring := js "-----BEGIN PGP SIGNED MESSAGE-----".
Definition MESSAGE : jsstring := js "-----BEGIN PGP MESSAGE-----".
Definition SIGNATURE : jsstring := js "-----BEGIN PGP SIGNATURE-----".
Definition PUBLIC_KEY : jsstring := js "BEGIN PGP".
Definition PUBLIC_KEY_BLOCK : jsstring := js "-----BEGIN PGP PUBLIC KEY BLOCK-----".

(** [s.includes(sub)]: [sub] occurs in [s] at some position. *)
Fixpoint occurs_at_head (sub s : jsstring) : bool :=
  match sub, s with
  | [], _ => true
  | a :: sub', x :: s' => (a =? x) && occurs_at_head sub' s'
  | _ :: _, [] => false
  end.

Fixpoint includes (s sub : jsstring) : bool :=
  occurs_at_head sub s
  || match s with
     | [] => false
     | _ :: s' => includes s' sub
     end.

Inductive signature_type : Type := CLEARSIGNED | INLINE.

(** [detectSignatureType]; [None] is [null]. *)
Definition detectSignatureType (content : jsstring) : option signature_type :=
  if includes content SIGNED_MESSAGE then Some CLEARSIGNED
  else if includes content MESSAGE then Some INLINE
  else None.

(** A file given to an input of the page, as the handlers look at it: the
    first byte of [slice(0, 100)] ([None] when the read is rejected,
    [Some None] for the [undefined] of an empty file) and the text of
    [slice(0, 2000)] ([None] when it is rejected). *)
Record UploadedFile : Type := {
  file_name : jsstring;
  file_size : N;
  first_byte : option (option N);
  preview : option jsstring
}.

Section Handlers.

(** The key objects of the cryptography library. *)
Variable Key : Type.

(** [state] *)
Record state : Type := {
  publicKey : option jsstring;
  publicKeyObjects : option (list Key);
  signedFile : option UploadedFile;
  signedText : option jsstring;
  detachedSignature : option UploadedFile;
  dataFile : option UploadedFile;
  isVerifying : bool;
  verificationAborted : bool
}.

(** What a handler shows or schedules. *)
Inductive notice : Type :=
| WrongSection          (* the inline error 'Wrong Section!' *)
| InvalidFormat         (* the inline errors 'Invalid Format', 'Invalid File Format' *)
| VerifyScheduled.      (* [setTimeout(() => verifySignature(), 600)] *)

Definition truthy_text (t : option jsstring) : bool :=
  match t with Some (_ :: _) => true | _ => false end.

Definition is_set (A : Type) (x : option A) : bool :=
  match x with Some _ => true | None => false end.

(** [autoVerify]: whether the verification is scheduled. *)
Definition autoVerify (s : state) : list notice :=
  let hasPublicKey := truthy_text (publicKey s) in
  let hasSignedData := is_set (signedFile s) || truthy_text (signedText s) in
  let hasDetachedData := is_set (detachedSignature s) && is_set (dataFile s) in
  let hasAnyData := hasSignedData || hasDetachedData in
  if hasPublicKey && hasAnyData && negb (isVerifying s) then [VerifyScheduled]
  else [].

(** [handleSignedTextPaste]; [value] is the content of the text area. *)
Definition handleSignedTextPaste (s : state) (value : jsstring)
  : state * list notice :=
  let text := trim value in
  match text with
  | _ :: _ =>
      if includes text PUBLIC_KEY_BLOCK then (s, [WrongSection])
      else
        let hasValidSignature :=
          includes text SIGNED_MESSAGE || includes text MESSAGE in
        if negb hasValidSignature then (s, [InvalidFormat])
        else
          let s' :=
            {| publicKey := publicKey s; publicKeyObjects := publicKeyObjects s;
               signedFile := None; signedText := Some text;
               detachedSignature := None; dataFile := None;
               isVerifying := isVerifying s;
               verificationAborted := verificationAborted s |} in
          (s', autoVerify s')
  | [] =>
      ({| publicKey := publicKey s; publicKeyObjects := publicKeyObjects s;
          signedFile := signedFile s; signedText := None;
          detachedSignature := detachedSignature s; dataFile := dataFile s;
          isVerifying := isVerifying s;
          verificationAborted := verificationAborted s |}, [])
  end.

(** [handleKeyTextPaste]; [readKeys] is what [openpgp.readKeys] answers for
    a text ([None] when it rejects).  No other handler is taken to run
    while the answer is awaited. *)
Definition handleKeyTextPaste (readKeys : jsstring -> option (list Key))
    (s : state) (value : jsstring) : state * list notice :=
  let text := trim value in
  match text with
  | _ :: _ =>
      if includes text SIGNED_MESSAGE
         || (includes text SIGNATURE && negb (includes text PUBLIC_KEY))
      then (s, [WrongSection])
      else
        let objects :=
          if includes text PUBLIC_KEY then readKeys text
          else publicKeyObjects s in
        let s' :=
          {| publicKey := Some text; publicKeyObjects := objects;
             signedFile := signedFile s; signedText := signedText s;
             detachedSignature := detachedSignature s; dataFile := dataFile s;
             isVerifying := isVerifying s;
             verificationAborted := verificationAborted s |} in
        (s', match objects with
             | Some (_ :: _) => autoVerify s'
             | _ => []
             end)
  | [] =>
      ({| publicKey := None; publicKeyObjects := None;
          signedFile := signedFile s; signedText := signedText s;
          detachedSignature := detachedSignature s; dataFile := dataFile s;
          isVerifying := isVerifying s;
          verificationAborted := verificationAborted s |}, [])
  end.

(** The test on the first byte of a signature file:
    [b === 0x89 || b === 0x88 || (b & 0x80) === 0x80]. *)
Definition isBinarySignature (first : option N) : bool :=
  match first with
  | Some b => (b =? 137) || (b =? 136) || (N.land b 128 =? 128)
  | None => false
  end.

(** [handleSignedFileUpload] for the file selected. *)
Definition handleSignedFileUpload (s : state) (file : UploadedFile)
  : state * list notice :=
  match first_byte file with
  | None =>
      (* the outer [catch] *)
      ({| publicKey := publicKey s; publicKeyObjects := publicKeyObjects s;
          signedFile := Some file; signedText := signedText s;
          detachedSignature := detachedSignature s; dataFile := dataFile s;
          isVerifying := isVerifying s;
          verificationAborted := verificationAborted s |}, [])
  | Some first =>
      let isBinary := isBinarySignature first in
      let isTextReadable := is_set (preview file) in
      let preview := match preview file with Some t => t | None => [] end in
      if isTextReadable && includes preview PUBLIC_KEY_BLOCK
      then (s, [WrongSection])
      else
        let isAsciiDetachedSignature :=
          isTextReadable && includes preview SIGNATURE
          && negb (includes preview SIGNED_MESSAGE)
          && negb (includes preview MESSAGE) in
        let isDetachedSignature := isAsciiDetachedSignature || isBinary in
        if isDetachedSignature then
          ({| publicKey := publicKey s; publicKeyObjects := publicKeyObjects s;
              signedFile := None; signedText := None;
              detachedSignature := Some file; dataFile := None;
              isVerifying := isVerifying s;
              verificationAborted := verificationAborted s |}, [])
        else
          let hasValidSignature :=
            includes preview SIGNED_MESSAGE || includes preview MESSAGE in
          if negb hasValidSignature && negb isBinary then (s, [InvalidFormat])
          else
            let s' :=
              {| publicKey := publicKey s; publicKeyObjects := publicKeyObjects s;
                 signedFile := Some file; signedText := None;
                 detachedSignature := None; dataFile := None;
                 isVerifying := isVerifying s;
                 verificationAborted := verificationAborted s |} in
            (s', autoVerify s')
  end.

(** [handleDetachedDataFileUpload] for the file selected. *)
Definition handleDetachedDataFileUpload (s : state) (file : UploadedFile)
  : state * list notice :=
  let s' :=
    {| publicKey := publicKey s; publicKeyObjects := publicKeyObjects s;
       signedFile := signedFile s; signedText := signedText s;
       detachedSignature := detachedSignature s; dataFile := Some file;
       isVerifying := isVerifying s;
       verificationAborted := verificationAborted s |} in
  if is_set (detachedSignature s') && is_set (dataFile s')
  then (s', autoVerify s')
  else (s', []).

(** The test on the first byte of a key file:
    [b === 0x99 || b === 0x95 ||
     (b < 0x20 && b !== 0x09 && b !== 0x0A && b !== 0x0D)]. *)
Definition isBinaryKey (first : option N) : bool :=
  match first with
  | Some b =>
      (b =? 153) || (b =? 149)
      || ((b <? 32) && negb (b =? 9) && negb (b =? 10) && negb (b =? 13))
  | None => false
  end.

(** What the readers and the cryptography library answer for a key file
    ([None] when the promise is rejected); [armor] and the summaries shown
    are taken not to throw. *)
Record key_answers : Type := {
  readFileAsBinary_ok : bool;
  readKeys_binary : option (list Key);      (* [openpgp.readKeys({ binaryKeys })] *)
  readKey_binary : option Key;              (* [openpgp.readKey({ binaryKey })] *)
  armor : Key -> jsstring;
  readFileAsText : option jsstring;
  readKeys_armored : jsstring -> option (list Key)
}.

(** [strings.join('\n')] *)
Fixpoint join_lines (l : list jsstring) : jsstring :=
  match l with
  | [] => []
  | [x] => x
  | x :: l' => x ++ 10 :: join_lines l'
  end.

Inductive key_notice : Type :=
| KeyError              (* [showError('Error reading public key file: ...')] *)
| KeyLoaded (n : list notice).

(** [handleKeyFileUpload] for the file selected.  No other handler is
    taken to run while an answer is awaited. *)
Definition handleKeyFileUpload (a : key_answers) (s : state)
    (file : UploadedFile) : state * key_notice :=
  let loaded (armored : jsstring) (objects : option (list Key)) :=
    {| publicKey := Some armored; publicKeyObjects := objects;
       signedFile := signedFile s; signedText := signedText s;
       detachedSignature := detachedSignature s; dataFile := dataFile s;
       isVerifying := isVerifying s;
       verificationAborted := verificationAborted s |} in
  match first_byte file with
  | None => (s, KeyError)
  | Some first =>
      if isBinaryKey first then
        if negb (readFileAsBinary_ok a) then (s, KeyError)
        else
          let several :=
            match readKeys_binary a with
            | Some (k :: ks) => Some (k :: ks)
            | _ => None
            end in
          match several with
          | Some keys =>
              let s' := loaded (join_lines (map (armor a) keys)) (Some keys) in
              (s', KeyLoaded (autoVerify s'))
          | None =>
              match readKey_binary a with
              | Some key =>
                  let s' := loaded (armor a key) (Some [key]) in
                  (s', KeyLoaded (autoVerify s'))
              | None => (s, KeyError)
              end
          end
      else
        match readFileAsText a with
        | None => (s, KeyError)
        | Some text =>
            if includes text PUBLIC_KEY then
              let objects := readKeys_armored a text in
              let s' := loaded text objects in
              (s', KeyLoaded match objects with
                             | Some (_ :: _) => autoVerify s'
                             | _ => []
                             end)
            else (s, KeyError)
        end
  end.

(** [verifySignature] as far as [state] goes: the guard and the
    assignments before the [try], and the [finally] block. *)
Definition verifySignature_enters (s : state) : bool :=
  let hasSignedData := is_set (signedFile s) || truthy_text (signedText s) in
  let hasDetachedData := is_set (detachedSignature s) && is_set (dataFile s) in
  let hasAnyData := hasSignedData || hasDetachedData in
  negb (negb (truthy_text (publicKey s)) || negb hasAnyData || isVerifying s).

Definition verifySignature_start (s : state) : state :=
  {| publicKey := publicKey s; publicKeyObjects := publicKeyObjects s;
     signedFile := signedFile s; signedText := signedText s;
     detachedSignature := detachedSignature s; dataFile := dataFile s;
     isVerifying := true; verificationAborted := false |}.

Definition verifySignature_finally (s : state) : state :=
  {| publicKey := publicKey s; publicKeyObjects := publicKeyObjects s;
     signedFile := signedFile s; signedText := signedText s;
     detachedSignature := detachedSignature s; dataFile := dataFile s;
     isVerifying := false; verificationAborted := false |}.

(** [clearPublicKey] and [clearSignedFile] *)
Definition clearPublicKey (s : state) : state :=
  {| publicKey := None; publicKeyObjects := None;
     signedFile := signedFile s; signedText := signedText s;
     detachedSignature := detachedSignature s; dataFile := dataFile s;
     isVerifying := isVerifying s; verificationAborted := verificationAborted s |}.

Definition clearSignedFile (s : state) : state :=
  {| publicKey := publicKey s; publicKeyObjects := publicKeyObjects s;
     signedFile := None; signedText := None;
     detachedSignature := None; dataFile := None;
     isVerifying := isVerifying s; verificationAborted := verificationAborted s |}.

(** The page the Start Over / Stop button acts on: the state, whether the
    button is disabled, and the add-on when its script is loaded
    ([window.ChecksumVerifier]). *)
Record page : Type := {
  app : state;
  resetBtn_disabled : bool;
  addon : option Panel.State
}.

(** [stopVerification] *)
Definition stopVerification (p : page) : page :=
  if negb (isVerifying (app p)) then p
  else
    {| app :=
         {| publicKey := publicKey (app p);
            publicKeyObjects := publicKeyObjects (app p);
            signedFile := signedFile (app p); signedText := signedText (app p);
            detachedSignature := detachedSignature (app p);
            dataFile := dataFile (app p);
            isVerifying := isVerifying (app p);
            verificationAborted := true |};
       resetBtn_disabled := true;
       addon := addon p |}.

(** What [resetAll] is called with: nothing, a boolean, or, as the
    listener of the button, the click event. *)
Inductive argument : Type :=
| no_argument
| boolean (b : bool)
| event_object.

(** [force = false] as default, and the truth value of what was passed:
    an object is true. *)
Definition force_of (a : argument) : bool :=
  match a with
  | no_argument => false
  | boolean b => b
  | event_object => true
  end.

(** [resetAll(force)] *)
Definition resetAll (a : argument) (p : page) : page :=
  let force := force_of a in
  if isVerifying (app p) && negb force then stopVerification p
  else if resetBtn_disabled p && negb force then p
  else
    let cleared := clearSignedFile (clearPublicKey (app p)) in
    {| app :=
         {| publicKey := publicKey cleared;
            publicKeyObjects := publicKeyObjects cleared;
            signedFile := signedFile cleared; signedText := signedText cleared;
            detachedSignature := detachedSignature cleared;
            dataFile := dataFile cleared;
            isVerifying := false;
            verificationAborted := verificationAborted cleared |};
       resetBtn_disabled := resetBtn_disabled p;
       addon := option_map Panel.hideChecksumSection (addon p) |}.

(** [elements.resetBtn.addEventListener('click', resetAll)]: the listener
    receives the event. *)
Definition resetBtn_click (p : page) : page := resetAll event_object p.

(** [state] when the script is loaded; whether the button starts out
    disabled is the document's choice. *)
Definition loaded_page (disabled : bool) (addon : option Panel.State) : page :=
  {| app :=
       {| publicKey := None; publicKeyObjects := None; signedFile := None;
          signedText := None; detachedSignature := None; dataFile := None;
          isVerifying := false; verificationAborted := false |};
     resetBtn_disabled := disabled;
     addon := addon |}.

(** The listeners that [initializeEventListeners] registers, the calls and
    the end of [verifySignature], and whatever happens to the add-on in
    between. *)
Inductive event : Type :=
| KeyFileChanged (a : key_answers) (file : UploadedFile)
| KeyTextInput (readKeys : jsstring -> option (list Key)) (value : jsstring)
| ClearKeyClicked
| SignedFileChanged (file : UploadedFile)
| SignedTextInput (value : jsstring)
| DataFileChanged (file : UploadedFile)
| ClearSignedClicked
| ResetClicked
| VerifyCalled
| VerifyFinished
| AddonChanged (after : Panel.State).

Definition on_state (f : state -> state) (p : page) : page :=
  {| app := f (app p); resetBtn_disabled := resetBtn_disabled p;
     addon := addon p |}.

Definition step (p : page) (ev : event) : page :=
  match ev with
  | KeyFileChanged a file => on_state (fun s => fst (handleKeyFileUpload a s file)) p
  | KeyTextInput readKeys value =>
      on_state (fun s => fst (handleKeyTextPaste readKeys s value)) p
  | ClearKeyClicked => on_state clearPublicKey p
  | SignedFileChanged file => on_state (fun s => fst (handleSignedFileUpload s file)) p
  | SignedTextInput value => on_state (fun s => fst (handleSignedTextPaste s value)) p
  | DataFileChanged file =>
      on_state (fun s => fst (handleDetachedDataFileUpload s file)) p
  | ClearSignedClicked => on_state clearSignedFile p
  | ResetClicked => resetBtn_click p
  | VerifyCalled =>
      if verifySignature_enters (app p) then
        {| app := verifySignature_start (app p); resetBtn_disabled := false;
           addon := addon p |}
      else p
  | VerifyFinished =>
      {| app := verifySignature_finally (app p); resetBtn_disabled := false;
         addon := addon p |}
  | AddonChanged after =>
      {| app := app p; resetBtn_disabled := resetBtn_disabled p;
         addon := option_map (fun _ => after) (addon p) |}
  end.

Inductive reaches (addon : option Panel.State) : page -> Prop :=
| reaches_loaded disabled : reaches addon (loaded_page disabled addon)
| reaches_step p ev : reaches addon p -> reaches addon (step p ev).

(** The page while a run of [verifySignature] is suspended: [handled t]
    lists the events handled while the run waits on its [t]-th
    asynchronous operation; clicks on the Stop button are among them. *)
Fixpoint page_during (p : page) (handled : nat -> list event) (t : nat) : page :=
  match t with
  | O => p
  | S t' => fold_left step (handled t') (page_during p handled t')
  end.

(** [state.verificationAborted] as the run reads it once [t] of its
    operations have completed. *)
Definition flag_during (p : page) (handled : nat -> list event) (t : nat) : bool :=
  verificationAborted (app (page_during p handled t)).

(** [state.dataFile] as the [pull] callback of the stream finds it. *)
Definition dataFile_during (p : page) (handled : nat -> list event) (t : nat)
  : option UploadedFile :=
  dataFile (app (page_during p handled t)).

End Handlers.

End App.

(* ===================================================================== *)
(** ** The stream of the data file ([app.js], lines 1319-1384) and the
       hand-over of verified text ([app.js], lines 373-376, 1528-1549) *)
(* ===================================================================== *)

Module Stream.

Local Open Scope N_scope.

(** The variables the [pull] callback closes over. *)
Record source : Type := {
  offset : N;
  processedBytes : N;
  chunkCount : N;
  pullCallCount : N
}.

Definition start : source :=
  {| offset := 0; processedBytes := 0; chunkCount := 0; pullCallCount := 0 |}.

Definition chunkSize : N := 64 * 1024.

(** What a call of [pull] does to the controller. *)
Inductive pulled : Type :=
| enqueue (view : chunk)
| close.

(** [pull(controller)]; [verificationAborted] and [dataFile] are the values
    of [state] when it is called. *)
Definition pull (verificationAborted : bool) (dataFile : option File)
    (dataFileSize : N) (st : source) : source * pulled :=
  let st :=
    {| offset := offset st; processedBytes := processedBytes st;
       chunkCount := chunkCount st; pullCallCount := pullCallCount st + 1 |} in
  if verificationAborted then (st, close)
  else if dataFileSize <=? offset st then (st, close)
  else
    match dataFile with
    | None => (st, close)
    | Some f =>
        let stop := N.min (offset st + chunkSize) dataFileSize in
        let view := slice f (offset st) stop in
        ({| offset := stop;
            processedBytes := processedBytes st + N.of_nat (List.length view);
            chunkCount := chunkCount st + 1;
            pullCallCount := pullCallCount st |}, enqueue view)
    end.

(** The stream read to its end while the flag stays clear and the data
    file stays in place: [pull] is called again after every chunk until it
    closes the stream; [fuel] bounds the number of calls. *)
Fixpoint pulls (fuel : nat) (dataFile : option File) (dataFileSize : N)
    (st : source) : list chunk * option source :=
  match fuel with
  | O => ([], None)
  | S fuel' =>
      match pull false dataFile dataFileSize st with
      | (st', close) => ([], Some st')
      | (st', enqueue view) =>
          let '(views, closed) := pulls fuel' dataFile dataFileSize st' in
          (view :: views, closed)
      end
  end.

(** [Math.ceil(dataFileSize / chunkSize)] *)
Definition totalChunks (dataFileSize : N) : N :=
  (dataFileSize + chunkSize - 1) / chunkSize.

(** What [verifySignature] keeps for the checksum section in the detached
    branch. *)
Definition verifiedDataContent (mode : data_mode) : option jsstring :=
  match mode with
  | text_mode dataText => Some dataText
  | stream_mode => None
  end.

(** The end of [showSuccess]:
    [if (verifiedData && window.ChecksumVerifier) showChecksumSection(verifiedData)]. *)
Definition hand_over (verifiedData : option jsstring)
    (addon : option Panel.State) : option Panel.State :=
  match verifiedData with
  | Some (x :: text) =>
      option_map (fun p => Panel.showChecksumSection p (x :: text)) addon
  | _ => addon
  end.

(** The add-on after everything a run has shown. *)
Definition addon_after (log : list shown) (addon : option Panel.State)
  : option Panel.State :=
  fold_left
    (fun a x => match x with showSuccess verifiedData => hand_over verifiedData a
                | _ => a end)
    log addon.

(** The detached branch on a data file: the mode chosen, the run, and the
    add-on at its end. *)
Definition detached_run (verificationAborted : nat -> bool) (c : crypto)
    (dataFile : DataFile) (addon : option Panel.State)
  : exit * list shown * option Panel.State :=
  let '(how, log) :=
    verify_detached verificationAborted c
      (verifiedDataContent (choose_mode dataFile)) in
  (how, log, addon_after log addon).

End Stream.

(* ===================================================================== *)
(** ** Notions used in the statements *)
(* ===================================================================== *)

(** The character last read after [a], starting from [prev]. *)
Definition last_read (a : jsstring) (prev : option char) : option char :=
  fold_left (fun _ x => Some x) a prev.

(** A hexadecimal digit of either case: what [[0-9a-f]] matches under the
    [i] flag. *)
Definition hex_any_case (x : char) : bool :=
  (in_range 48 57 x || in_range 97 102 x || in_range 65 70 x)%N.

(** No line terminator in a text. *)
Definition no_line_terminator (s : jsstring) : bool :=
  forallb (fun x => negb (is_line_terminator x)) s.

(** A digest as the manifest grammars accept it: 32 to 128 hexadecimal
    digits of either case. *)
Definition is_digest (h : jsstring) : Prop :=
  (32 <= List.length h <= 128)%nat /\ forallb hex_any_case h = true.

(** A blank or a tab. *)
Definition is_blank (x : char) : bool := ((x =? 32) || (x =? 9))%N.

(** What may follow the digest and the blanks in a line that the first
    pattern reads as digest and name: a text without line terminator that
    starts with neither a blank nor a star and does not end with a blank. *)
Definition is_name_text (f : jsstring) : Prop :=
  match f with
  | c :: _ => is_space c = false /\ c <> ch "*"
  | [] => False
  end
  /\ no_line_terminator f = true
  /\ is_space (last f 32%N) = false.

(** A file name without directory part. *)
Definition is_plain_name (g : jsstring) : Prop :=
  g <> [] /\ no_line_terminator g = true /\ is_space (last g 32%N) = false
  /\ forallb (fun x => negb (is_path_sep x)) g = true.

(** Lower-case and upper-case hexadecimal digits. *)
Definition hex_lower (x : char) : bool := (in_range 48 57 x || in_range 97 102 x)%N.
Definition hex_upper (x : char) : bool := in_range 65%N 70%N x.

(** The slices the chunked loops read. *)
Fixpoint slices (file : File) (chunkSize chunkIndex : N) (todo : nat)
  : list chunk :=
  match todo with
  | O => []
  | S todo' =>
      slice file (chunkIndex * chunkSize)
        (N.min (chunkIndex * chunkSize + chunkSize) (size file))
      :: slices file chunkSize (chunkIndex + 1) todo'
  end.

(** An upload that passes the gate. *)
Definition enqueued (s : State) (files : list File) : State :=
  {| parsedChecksums := parsedChecksums s; verifiedFiles := verifiedFiles s;
     items := items s ++ map new_item files;
     fileQueue := fileQueue s ++ seq (List.length (items s)) (List.length files);
     isProcessingQueue := isProcessingQueue s; queueItem := queueItem s;
     timers := timers s |}.

(** The items handed to [verifyFileChecksum], in the order they were. *)
Definition started (tr : list effect) : list nat :=
  flat_map (fun x => match x with Started id => [id] | _ => [] end) tr.

(** The page after a list of events, with everything the handlers did on
    the way. *)
Fixpoint run_from (hashwasm sha256 : Sha256) (s : State) (inputs : list input)
  : State * list effect :=
  match inputs with
  | [] => (s, [])
  | i :: rest =>
      (fst (run_from hashwasm sha256 (fst (step hashwasm sha256 s i)) rest),
       snd (step hashwasm sha256 s i)
       ++ snd (run_from hashwasm sha256 (fst (step hashwasm sha256 s i)) rest))
  end.

(** Progress displays, as opposed to results. *)
Definition is_progress (x : shown) : bool :=
  match x with
  | showProgress _ | showProgressBytes _ => true
  | _ => false
  end.

(** A log of progress calls that ends with the call with 100. *)
Definition ends_complete (log : list progress) : Prop :=
  exists pre p, log = pre ++ [Complete p].

(** What holds of the page between two handlers; [log] is the list of the
    items started so far. *)
Record Inv (s : State) (log : list nat) : Prop := {
  inv_flag :
    isProcessingQueue s
    = match queueItem s with Some _ => true | None => false end;
  inv_current :
    forall id, status_of (items s) id = Some processing <-> queueItem s = Some id;
  inv_sorted : StronglySorted lt (fileQueue s);
  inv_bound : forall id, In id (fileQueue s) -> (id < List.length (items s))%nat;
  inv_started :
    forall id, In id log
               <-> exists st, status_of (items s) id = Some st /\ st <> pending;
  inv_order : StronglySorted lt log;
  inv_ahead :
    forall i j, In i log -> In j (fileQueue s) ->
                status_of (items s) j = Some pending -> (i < j)%nat;
  inv_last : forall id, queueItem s = Some id -> exists l, log = l ++ [id]
}.

(** The same at the head of the loop of [processQueue], where no item is
    being processed and the flags are about to be set. *)
Record LoopInv (s : State) (log : list nat) : Prop := {
  loop_idle : forall id, status_of (items s) id <> Some processing;
  loop_sorted : StronglySorted lt (fileQueue s);
  loop_bound : forall id, In id (fileQueue s) -> (id < List.length (items s))%nat;
  loop_started :
    forall id, In id log
               <-> exists st, status_of (items s) id = Some st /\ st <> pending;
  loop_order : StronglySorted lt log;
  loop_ahead :
    forall i j, In i log -> In j (fileQueue s) ->
                status_of (items s) j = Some pending -> (i < j)%nat
}.

(** What the second grammar takes as a name: a text without closing
    parenthesis and without line terminator that neither starts nor ends
    with a blank. *)
Definition is_bsd_name (f : jsstring) : Prop :=
  match f with
  | c :: _ => is_space c = false
  | [] => False
  end
  /\ no_line_terminator f = true
  /\ is_space (last f 32%N) = false
  /\ forallb (fun x => negb (x =? 41)%N) f = true.

(** A log without success display. *)
Definition no_success (log : list shown) : Prop :=
  forall verifiedData, ~ In (showSuccess verifiedData) log.

(* ===================================================================== *)
(** ** Worked inputs *)
(* ===================================================================== *)

Definition md5_of_empty : jsstring := js "d41d8cd98f00b204e9800998ecf8427e".

(** A small data file whose only null character comes after the first
    thousand characters: one thousand letters [a], then NUL. *)
Definition late_null_text : jsstring := repeat 97%N 1000 ++ [0%N].
Definition late_null_file : DataFile :=
  {| data_size := 1001; readFileAsText := Some late_null_text;
     createMessage_text_ok := true |}.

Definition early_null_file : DataFile :=
  {| data_size := 4; readFileAsText := Some [97; 0; 98; 99]%N;
     createMessage_text_ok := true |}.

(** The manifest [ba78...15ad  a.iso] (the SHA-256 of [abc]), the file
    [a.iso] delivered in two chunks, and the same content under the name
    [b.iso]. *)
Definition sha256_of_abc : jsstring :=
  js "ba7816bf8f01cfea414140de5dae2223b00361a396177a9cb410ff61f20015ad".
Definition abc_manifest : Obj.obj := parseChecksums (sha256_of_abc ++ js "  a.iso").
Definition a_iso : File := {| name := js "a.iso"; chunks := [js "a"; js "bc"] |}.
Definition b_iso : File := {| name := js "b.iso"; chunks := [js "abc"] |}.

(** A manifest with a second entry, for a file named [hasOwnProperty]. *)
Definition shadowed_manifest : Obj.obj :=
  parseChecksums
    (sha256_of_abc ++ js "  a.iso" ++ [10%N] ++ sha256_of_abc
     ++ js "  hasOwnProperty").

(** A page with every backend loaded. *)
Definition page (stopped : option nat) : env :=
  {| has_hashwasm := true; has_stream := true; has_sha256 := true;
     stop := stopped |}.

(** A page without the WebAssembly hasher. *)
Definition page_without_wasm (stopped : option nat) : env :=
  {| has_hashwasm := false; has_stream := true; has_sha256 := true;
     stop := stopped |}.

Definition verify_reference :=
  verifyFileChecksum Reference.sha256_reference Reference.sha256_reference.

(** A run: [b.iso] and [a.iso] are uploaded against the manifest of
    [a.iso], then the first job settles. *)
Definition two_files_uploaded :=
  step Reference.sha256_reference Reference.sha256_reference
    (initial abc_manifest) (Upload [b_iso; a_iso] false).
Definition first_job_settled :=
  step Reference.sha256_reference Reference.sha256_reference
    (fst two_files_uploaded) (Settled (page None) None).

(** The upload of [a.iso] alone. *)
Definition one_file_uploaded :=
  step Reference.sha256_reference Reference.sha256_reference
    (initial abc_manifest) (Upload [a_iso] false).

(** A run in which the timer of a first batch fires while the first file of
    a second batch is hashed: the second file of that batch is never
    started. *)
Definition timer_run : list input :=
  [Upload [a_iso] false; Settled (page None) None;
   Upload [a_iso; b_iso] false; Timer; Settled (page None) None].

Definition run_inputs (s : State) (inputs : list input) : State * list effect :=
  fold_left
    (fun acc i =>
       let '(s', eff) :=
         step Reference.sha256_reference Reference.sha256_reference (fst acc) i in
       (s', snd acc ++ eff))
    inputs (s, []).

(** A stream of three chunks whose signature is rejected. *)
Definition three_chunks : crypto :=
  {| verify_throws := false;
     data := ReadableStream [65536; 65536; 100]%N closes;
     verified_rejects := true |}.

(** [a.iso] hashed by the chunked loop of a page that has neither the
    WebAssembly hasher nor [File.stream]. *)
Definition page_without_stream : env :=
  {| has_hashwasm := false; has_stream := false; has_sha256 := true;
     stop := None |}.

(** The digest of [abc] in upper case, and manifests written with it. *)
Definition upper_sha256_of_abc : jsstring :=
  js "BA7816BF8F01CFEA414140DE5DAE2223B00361A396177A9CB410FF61F20015AD".
Definition upper_manifest : jsstring :=
  upper_sha256_of_abc ++ js "  " ++ js "dir/a.iso".



(** A page on which no hashing library was loaded. *)
Definition page_without_library : env :=
  {| has_hashwasm := false; has_stream := true; has_sha256 := false;
     stop := None |}.

(** [a.iso] uploaded and verified against its manifest, in the queue and
    in the add-on. *)
Definition a_iso_verified :=
  step Reference.sha256_reference Reference.sha256_reference
    (fst one_file_uploaded) (Settled (page None) None).

Definition panel_events : list (Panel.event) :=
  [Panel.Show (sha256_of_abc ++ js "  a.iso");
   Panel.OfQueue (Upload [a_iso] false);
   Panel.OfQueue (Settled (page None) None)].

Definition panel_step :=
  Panel.step Reference.sha256_reference Reference.sha256_reference.

Definition panel_after_a_iso : Panel.State :=
  panel_step
    (panel_step (panel_step Panel.initial (Panel.Show (sha256_of_abc ++ js "  a.iso")))
       (Panel.OfQueue (Upload [a_iso] false)))
    (Panel.OfQueue (Settled (page None) None)).

(** A detached signature block, pasted into the key section. *)
Definition signature_block : jsstring :=
  js "-----BEGIN PGP SIGNATURE-----" ++ [10%N] ++ js "iQEzBAABCAAdFiEE"
  ++ [10%N] ++ js "-----END PGP SIGNATURE-----".

(** A clearsigned message. *)
Definition clearsigned_text : jsstring :=
  js "-----BEGIN PGP SIGNED MESSAGE-----" ++ [10%N] ++ js "Hash: SHA256"
  ++ [10%N; 10%N] ++ js "hello" ++ [10%N] ++ signature_block.

(** The page before anything was entered, without key objects. *)
Definition empty_state : App.state unit :=
  App.app (App.loaded_page unit false None).

(** A clearsigned message saved with a byte order mark: the first byte is
    [0xEF]. *)
Definition clearsigned_with_bom : App.UploadedFile :=
  {| App.file_name := js "message.asc"; App.file_size := 200;
     App.first_byte := Some (Some 239%N);
     App.preview := Some clearsigned_text |}.

(** The page after a clearsigned text was pasted and the verification it
    schedules was called. *)
Definition page_verifying : App.page unit :=
  App.step (App.step (App.step (App.loaded_page unit false None)
                        (App.KeyTextInput (fun _ => Some [tt]) (js "-----BEGIN PGP PUBLIC KEY BLOCK-----")))
              (App.SignedTextInput unit clearsigned_text))
    (App.VerifyCalled unit).

(** A binary detached signature and the data file of 200,000 bytes it
    signs, and the page on which their verification has started. *)
Definition signature_upload : App.UploadedFile :=
  {| App.file_name := js "a.iso.sig"; App.file_size := 566;
     App.first_byte := Some (Some 137%N); App.preview := None |}.
Definition data_upload : App.UploadedFile :=
  {| App.file_name := js "a.iso"; App.file_size := 200000;
     App.first_byte := Some (Some 0%N); App.preview := None |}.
Definition page_verifying_detached : App.page unit :=
  App.step
    (App.step
       (App.step
          (App.step (App.loaded_page unit false None)
             (App.KeyTextInput (fun _ => Some [tt])
                (js "-----BEGIN PGP PUBLIC KEY BLOCK-----")))
          (App.SignedFileChanged unit signature_upload))
       (App.DataFileChanged unit data_upload))
    (App.VerifyCalled unit).

(** Stop is clicked while the run waits for the second chunk of the
    verified stream; the stream then closes, two chunks of four read, and
    the signature does not verify what was read. *)
Definition stop_clicked : nat -> list (App.event unit) :=
  fun t => if Nat.eqb t 2 then [App.ResetClicked unit] else [].
Definition truncated_stream : crypto :=
  {| verify_throws := false;
     data := ReadableStream [65536; 65536]%N closes;
     verified_rejects := true |}.

(** A data file at the threshold, and a small manifest as data file. *)
Definition large_data_file : DataFile :=
  {| data_size := 1000000; readFileAsText := Some (js "a");
     createMessage_text_ok := true |}.
Definition manifest_data_file : DataFile :=
  {| data_size := 71; readFileAsText := Some (sha256_of_abc ++ js "  a.iso");
     createMessage_text_ok := true |}.
Definition valid_signature : crypto :=
  {| verify_throws := false; data := ReadableStream [71%N] closes;
     verified_rejects := false |}.

(* ===================================================================== *)
(** * Properties *)
(* ===================================================================== *)

(** ** Strings *)

Lemma jsstring_eqb_eq (a b : jsstring) : JS.eqb a b = true <-> a = b.
Proof.
  revert b; induction a as [|x a IH]; intros [|y b]; cbn [JS.eqb];
    try (split; [discriminate | congruence]); try tauto.
  rewrite andb_true_iff, N.eqb_eq, IH. split.
  - intros [-> ->]; reflexivity.
  - intros H; inversion H; auto.
Qed.

Lemma jsstring_eqb_refl (a : jsstring) : JS.eqb a a = true.
Proof. apply jsstring_eqb_eq; reflexivity. Qed.

Lemma jsstring_eqb_neq (a b : jsstring) : JS.eqb a b = false <-> a <> b.
Proof.
  rewrite <- jsstring_eqb_eq. destruct (JS.eqb a b); split; congruence.
Qed.

(** ** Assignments to an object *)

Lemma set_stores (o : Obj.obj) (k v : jsstring) :
  k <> Obj.proto -> Obj.set o k v = Obj.define o k v.
Proof.
  intros Hk. unfold Obj.set. apply jsstring_eqb_neq in Hk. rewrite Hk. reflexivity.
Qed.

Lemma set_proto (o : Obj.obj) (v : jsstring) : Obj.set o Obj.proto v = o.
Proof. unfold Obj.set. rewrite jsstring_eqb_refl. reflexivity. Qed.

Lemma set_empty (k v : jsstring) : k <> Obj.proto -> Obj.set [] k v = [(k, v)].
Proof. intros Hk. rewrite set_stores by exact Hk. reflexivity. Qed.

(** ** Text or stream for the detached data file *)

Lemma firstn_min_length (A : Type) (n : nat) (l : list A) :
  firstn (Nat.min (List.length l) n) l = firstn n l.
Proof.
  destruct (Nat.le_gt_cases n (List.length l)) as [H|H].
  - rewrite Nat.min_r by exact H. reflexivity.
  - rewrite Nat.min_l by lia. rewrite !firstn_all2 by lia. reflexivity.
Qed.

Lemma includes_true (s : jsstring) (x : char) : includes s x = true <-> In x s.
Proof.
  unfold includes. rewrite existsb_exists. split.
  - intros [y [Hy Heq]]. apply N.eqb_eq in Heq. subst. exact Hy.
  - intros H. exists x. split; [exact H | apply N.eqb_refl].
Qed.

(** C1, as stated, fails: the file is below the threshold and its decoded
    text contains a null character, yet it is verified in text mode. *)
Lemma late_null_is_text_mode :
  (data_size late_null_file < 1000000)%N
  /\ readFileAsText late_null_file = Some late_null_text
  /\ In 0%N late_null_text
  /\ choose_mode late_null_file = text_mode late_null_text
  /\ choose_mode late_null_file <> stream_mode.
Proof.
  assert (E : choose_mode late_null_file = text_mode late_null_text)
    by (vm_compute; reflexivity).
  split; [reflexivity|]. split; [reflexivity|]. split; [|split].
  - unfold late_null_text. apply in_or_app. right. left. reflexivity.
  - exact E.
  - rewrite E. discriminate.
Qed.

(** C1 (amended): a data file below the threshold of 1,000,000 bytes whose
    decoded text has a null character among its first 1000 characters is
    handed over as a stream, not as text; and the characters after the
    first 1000 are not looked at: when the first 1000 hold no null
    character the text is handed over as text, provided the library takes
    it, whatever follows them. *)
Theorem null_in_sample_is_stream_mode (dataFile : DataFile) (dataText : jsstring) :
  (data_size dataFile < 1000000)%N ->
  readFileAsText dataFile = Some dataText ->
  (In 0%N (firstn 1000 dataText) -> choose_mode dataFile = stream_mode)
  /\ (~ In 0%N (firstn 1000 dataText) ->
      createMessage_text_ok dataFile = true ->
      choose_mode dataFile = text_mode dataText).
Proof.
  intros Hsize Hread. unfold choose_mode.
  apply N.ltb_lt in Hsize. rewrite Hsize, Hread.
  unfold substring0. rewrite firstn_min_length. split.
  - intros Hnull. apply includes_true in Hnull. rewrite Hnull. reflexivity.
  - intros Hclean Hok.
    destruct (includes (firstn 1000 dataText) 0%N) eqn:Hinc.
    + apply includes_true in Hinc. contradiction.
    + cbn [negb]. rewrite Hok. reflexivity.
Qed.

Lemma null_in_sample_is_stream_mode_witness :
  choose_mode early_null_file = stream_mode
  /\ choose_mode late_null_file = text_mode late_null_text.
Proof.
  split.
  - apply (@null_in_sample_is_stream_mode early_null_file [97; 0; 98; 99]%N).
    + reflexivity.
    + reflexivity.
    + simpl. right. left. reflexivity.
  - apply (@null_in_sample_is_stream_mode late_null_file late_null_text).
    + reflexivity.
    + reflexivity.
    + intros H. apply includes_true in H. vm_compute in H. discriminate.
    + reflexivity.
Defined.

(** ** Manifest lines *)

Section ManifestLines.

Local Open Scope N_scope.

(** A greedy repetition that can take all of [a] and no more, and whose
    continuation succeeds there, succeeds with that result. *)
Lemma rep_greedy_max (R : Type) (k : cont R) (p : char -> bool) (a : jsstring) :
  forall lo hi prev pos rest r,
    forallb p a = true ->
    (lo <= List.length a)%nat ->
    match hi with Some m => (List.length a <= m)%nat | None => True end ->
    match rest with [] => True | x :: _ => p x = false end ->
    k (last_read a prev) (pos + List.length a)%nat rest = Some r ->
    rep_greedy k p lo hi prev pos (a ++ rest) = Some r.
Proof.
  induction a as [|x a IH]; intros lo hi prev pos rest r Hall Hlo Hhi Hrest Hk.
  - cbn [app List.length] in *. rewrite Nat.add_0_r in Hk.
    assert (lo = 0%nat) by lia. subst lo.
    destruct rest as [|y rest]; cbn [rep_greedy Nat.eqb].
    + destruct hi as [[|m]|]; exact Hk.
    + rewrite Hrest. destruct hi as [[|m]|]; exact Hk.
  - cbn [forallb] in Hall. apply andb_true_iff in Hall as [Hx Hall].
    cbn [app List.length] in *.
    assert (Hrec : rep_greedy k p (Nat.pred lo) (option_map Nat.pred hi)
                     (Some x) (S pos) (a ++ rest) = Some r).
    { apply IH; try assumption; try lia.
      - destruct hi as [m|]; cbn [option_map]; [lia | exact I].
      - replace (S pos + List.length a)%nat with (pos + S (List.length a))%nat by lia.
        exact Hk. }
    cbn [rep_greedy]. destruct hi as [[|m]|]; [lia| |]; rewrite Hx, Hrec; reflexivity.
Qed.

Lemma rep_greedy_all (R : Type) (k : cont R) (p : char -> bool) (a : jsstring)
    lo hi prev pos r :
  forallb p a = true ->
  (lo <= List.length a)%nat ->
  match hi with Some m => (List.length a <= m)%nat | None => True end ->
  k (last_read a prev) (pos + List.length a)%nat [] = Some r ->
  rep_greedy k p lo hi prev pos a = Some r.
Proof.
  intros Hall Hlo Hhi Hk.
  pose proof (@rep_greedy_max R k p a lo hi prev pos [] r Hall Hlo Hhi I Hk) as H.
  rewrite app_nil_r in H. exact H.
Qed.

Lemma rep_greedy_none (R : Type) (k : cont R) (p : char -> bool)
    hi prev pos s r :
  match s with [] => True | x :: _ => p x = false end ->
  k prev pos s = Some r ->
  rep_greedy k p 0 hi prev pos s = Some r.
Proof.
  intros Hs Hk.
  apply (@rep_greedy_max R k p [] 0%nat hi prev pos s r); cbn [forallb List.length last_read fold_left];
    try reflexivity; try assumption.
  - destruct hi; [lia | exact I].
  - rewrite Nat.add_0_r. exact Hk.
Qed.

Ltac leb_cases :=
  repeat (match goal with
          | |- context [N.leb ?a ?b] => destruct (N.leb_spec a b)
          | |- context [N.eqb ?a ?b] => destruct (N.eqb_spec a b)
          end; cbn [andb orb negb]);
  intros; try reflexivity; try discriminate; try lia.

Lemma swapcase_cases (x : char) :
  (97 <= x <= 122 /\ swapcase x = x - 32)
  \/ (65 <= x <= 90 /\ swapcase x = x + 32)
  \/ ((x < 65 \/ 90 < x < 97 \/ 122 < x) /\ swapcase x = x).
Proof.
  unfold swapcase, in_range.
  destruct (N.leb_spec 97 x); destruct (N.leb_spec x 122);
    destruct (N.leb_spec 65 x); destruct (N.leb_spec x 90);
    cbn [andb]; lia.
Qed.

Lemma hexdigit_any_case (x : char) :
  class_mem line_flags hexdigit x = hex_any_case x.
Proof.
  unfold hex_any_case, hexdigit, line_flags, ch. cbn [class_mem ignoreCase andb].
  change (N_of_ascii "0") with 48%N. change (N_of_ascii "9") with 57%N.
  change (N_of_ascii "a") with 97%N. change (N_of_ascii "f") with 102%N.
  destruct (swapcase_cases x) as [[Hx ->]|[[Hx ->]|[Hx ->]]];
    unfold in_range; leb_cases.
Qed.

Lemma forallb_pointwise (A : Type) (f g : A -> bool) (l : list A) :
  (forall x, f x = g x) -> forallb f l = forallb g l.
Proof.
  intros H. induction l as [|x l IH]; cbn [forallb]; [reflexivity|].
  rewrite H, IH. reflexivity.
Qed.

Lemma forallb_weaken (A : Type) (f g : A -> bool) (l : list A) :
  (forall x, f x = true -> g x = true) ->
  forallb f l = true -> forallb g l = true.
Proof.
  intros H. induction l as [|x l IH]; cbn [forallb]; [reflexivity|].
  intros Hl. apply andb_true_iff in Hl as [Hx Hl].
  rewrite (H x Hx), (IH Hl). reflexivity.
Qed.

Lemma search_here fl items prev s caps n :
  run fl items no_captures prev 0 s = Some (caps, n) ->
  search fl items prev s = Some (caps, s).
Proof. intros H. destruct s; cbn [search]; rewrite H; reflexivity. Qed.

(** The first pattern on a digest, blanks and a rest that starts with
    neither a blank nor a star: the groups are the digest and the rest. *)
Lemma format1_matches (h ws f : jsstring) :
  (32 <= List.length h <= 128)%nat ->
  forallb hex_any_case h = true ->
  ws <> [] -> forallb is_space ws = true ->
  match f with
  | c :: _ => is_space c = false /\ c <> ch "*"
  | [] => False
  end ->
  no_line_terminator f = true ->
  exec line_flags format1 2 (h ++ ws ++ f) = Some [h; f].
Proof.
  intros Hlen Hhex Hws Hspace Hhead Hlt.
  set (n := List.length h). set (m := List.length ws).
  assert (Hrun :
    run line_flags format1 no_captures None 0 (h ++ ws ++ f)
    = Some ({| starts := [(2, n + m); (1, 0)]%nat;
               ends := [(2, n + m + List.length f); (1, n)]%nat |},
            (n + m + List.length f)%nat)).
  { unfold format1, Plus, Opt. cbn [run at_bol].
    apply rep_greedy_max.
    - rewrite <- Hhex. apply forallb_pointwise. intros x. apply hexdigit_any_case.
    - lia.
    - lia.
    - destruct ws as [|w ws']; [congruence|]. cbn [app forallb] in *.
      apply andb_true_iff in Hspace as [Hw _].
      rewrite hexdigit_any_case. revert Hw.
      unfold hex_any_case, is_space, in_range. leb_cases.
    - cbn [Nat.add]. apply rep_greedy_max.
      + exact Hspace.
      + destruct ws; [congruence | cbn [List.length]; lia].
      + exact I.
      + destruct f as [|c f']; [exact I|]. cbn [class_mem]. apply Hhead.
      + apply rep_greedy_none.
        * destruct f as [|c f']; [exact I|]. destruct Hhead as [Hc Hstar].
          cbn [class_mem]. rewrite Hc, orb_false_r.
          apply N.eqb_neq. change (ch "*") with 42%N in *. revert Hstar.
          unfold canonicalize, line_flags, in_range. cbn [ignoreCase andb].
          leb_cases.
        * apply rep_greedy_all.
          -- exact Hlt.
          -- destruct f; [destruct Hhead | cbn [List.length]; lia].
          -- exact I.
          -- cbn [at_eol]. fold n m. reflexivity. }
  unfold exec. rewrite (search_here _ _ _ _ Hrun).
  cbn [seq map group assoc starts ends Nat.eqb].
  f_equal. f_equal; [|f_equal].
  - rewrite Nat.sub_0_r. cbn [skipn]. unfold n.
    rewrite firstn_app, firstn_all, Nat.sub_diag. cbn [firstn]. apply app_nil_r.
  - replace (n + m + List.length f - (n + m))%nat with (List.length f) by lia.
    rewrite app_assoc, skipn_app.
    replace (List.length (h ++ ws)) with (n + m)%nat
      by (rewrite length_app; reflexivity).
    rewrite skipn_all2 by (rewrite length_app; unfold n, m; lia).
    rewrite Nat.sub_diag. cbn [skipn app]. apply firstn_all.
Qed.

Lemma trimStart_id (s : jsstring) :
  match s with x :: _ => is_space x = false | [] => True end -> trimStart s = s.
Proof. destruct s as [|x s]; cbn [trimStart]; [reflexivity|]. intros ->. reflexivity. Qed.

(** [trim] leaves alone a string that neither starts nor ends with a
    blank. *)
Lemma trim_id (s : jsstring) :
  match s with x :: _ => is_space x = false | [] => True end ->
  is_space (last s 32) = false ->
  trim s = s.
Proof.
  intros Hhead Hlast. unfold trim. rewrite (trimStart_id s Hhead).
  rewrite trimStart_id; [apply rev_involutive|].
  destruct (rev s) as [|y r] eqn:Hrev; [exact I|].
  assert (Hs : s = rev r ++ [y]).
  { rewrite <- (rev_involutive s), Hrev. reflexivity. }
  rewrite Hs, last_last in Hlast. exact Hlast.
Qed.

Lemma split_on_none (sep : char -> bool) (s : jsstring) :
  forallb (fun x => negb (sep x)) s = true -> split_on sep s = [s].
Proof.
  induction s as [|x s IH]; cbn [split_on forallb]; [reflexivity|].
  intros H. apply andb_true_iff in H as [Hx Hs].
  apply negb_true_iff in Hx. rewrite Hx, (IH Hs). reflexivity.
Qed.

Lemma hex_any_case_not_space (x : char) : hex_any_case x = true -> is_space x = false.
Proof. unfold hex_any_case, is_space, in_range. leb_cases. Qed.

Lemma last_app_nonempty (A : Type) (a b : list A) (d : A) :
  b <> [] -> last (a ++ b) d = last b d.
Proof.
  intros Hb. induction a as [|x a IH]; [reflexivity|].
  cbn [app]. destruct (a ++ b) as [|y l] eqn:Hab.
  - apply app_eq_nil in Hab as [_ Hb']. congruence.
  - change (last (x :: y :: l) d) with (last (y :: l) d). exact IH.
Qed.

(** The first grammar: a digest, blanks, a name. *)
Lemma standard_line (o : Obj.obj) (h ws f : jsstring) :
  is_digest h -> ws <> [] -> forallb is_blank ws = true -> is_name_text f ->
  parse_line o (h ++ ws ++ f) = Obj.set o (last_segment f) (toLowerCase h).
Proof.
  intros [Hlen Hhex] Hws Hblank (Hhead & Hlt & Hlast).
  assert (Hspace : forallb is_space ws = true).
  { revert Hblank. apply forallb_weaken. intros x.
    unfold is_space, is_blank, in_range. leb_cases. }
  assert (Hf : f <> []) by (destruct f; [destruct Hhead | discriminate]).
  assert (Hh : exists x h', h = x :: h' /\ hex_any_case x = true).
  { destruct h as [|x h']; [cbn in Hlen; lia|].
    exists x, h'. split; [reflexivity|].
    cbn [forallb] in Hhex. apply andb_true_iff in Hhex. apply Hhex. }
  destruct Hh as (x & h' & Hh & Hx).
  assert (Htrim : trim (h ++ ws ++ f) = h ++ ws ++ f).
  { apply trim_id.
    - rewrite Hh. cbn [app]. apply hex_any_case_not_space; exact Hx.
    - rewrite app_assoc, last_app_nonempty by exact Hf. exact Hlast. }
  unfold parse_line. rewrite Htrim.
  assert (Hskip : (match h ++ ws ++ f with [] => true | _ => false end
                   || startsWith (h ++ ws ++ f) (ch "#")) = false).
  { rewrite Hh. cbn [app startsWith orb]. change (ch "#") with 35%N.
    revert Hx. unfold hex_any_case, in_range. leb_cases. }
  rewrite Hskip.
  rewrite (@format1_matches h ws f Hlen Hhex Hws Hspace Hhead Hlt).
  rewrite trim_id; [reflexivity | | exact Hlast].
  destruct f; [exact I | apply Hhead].
Qed.

Lemma forallb_app_true (A : Type) (p : A -> bool) (a b : list A) :
  forallb p a = true -> forallb p b = true -> forallb p (a ++ b) = true.
Proof. intros Ha Hb. rewrite forallb_app, Ha, Hb. reflexivity. Qed.

(** Such a line has no line terminator. *)
Lemma standard_line_no_terminator (h ws f : jsstring) :
  is_digest h -> forallb is_blank ws = true -> is_name_text f ->
  no_line_terminator (h ++ ws ++ f) = true.
Proof.
  intros [_ Hhex] Hblank (_ & Hlt & _). unfold no_line_terminator in *.
  repeat apply forallb_app_true; [| |exact Hlt].
  - revert Hhex. apply forallb_weaken. intros x.
    unfold hex_any_case, is_line_terminator, in_range. leb_cases.
  - revert Hblank. apply forallb_weaken. intros x.
    unfold is_blank, is_line_terminator. leb_cases.
Qed.

Lemma split_lines_one (s : jsstring) :
  no_line_terminator s = true -> split_lines s = [s].
Proof.
  intros H. apply split_on_none. revert H. apply forallb_weaken. intros x.
  unfold is_line_terminator. leb_cases.
Qed.

(** A manifest that is one line of the first grammar. *)
Lemma standard_manifest (h ws f : jsstring) :
  is_digest h -> ws <> [] -> forallb is_blank ws = true -> is_name_text f ->
  parseChecksums (h ++ ws ++ f) = Obj.set [] (last_segment f) (toLowerCase h).
Proof.
  intros Hh Hws Hblank Hf. unfold parseChecksums.
  rewrite split_lines_one by (apply standard_line_no_terminator; assumption).
  cbn [fold_left]. rewrite standard_line by assumption. reflexivity.
Qed.

Lemma last_segment_plain (s : jsstring) :
  forallb (fun x => negb (is_path_sep x)) s = true -> last_segment s = s.
Proof. intros H. unfold last_segment. rewrite split_on_none by exact H. reflexivity. Qed.

(** C2: every line [<digest> = <name>], with a plain name, is read by the
    first pattern, which takes the sign and the blank after it for the
    start of the name: the key stored is [= <name>], and [<name>] is not
    a key. *)
Theorem format3_line_keeps_equals_sign (h g : jsstring) :
  is_digest h -> is_plain_name g ->
  parseChecksums (h ++ js " = " ++ g) = [(js "= " ++ g, toLowerCase h)]
  /\ Obj.get (parseChecksums (h ++ js " = " ++ g)) g = None.
Proof.
  intros Hh (Hg & Hlt & Hlast & Hsep).
  assert (Hparse : parseChecksums (h ++ js " = " ++ g)
                   = [(js "= " ++ g, toLowerCase h)]).
  { change (js " = " ++ g) with ([32] ++ (js "= " ++ g)).
    rewrite standard_manifest; try assumption; try discriminate; try reflexivity.
    - rewrite last_segment_plain.
      + apply set_empty. change (js "= " ++ g) with (61 :: 32 :: g).
        discriminate.
      + change (js "= " ++ g) with (61 :: 32 :: g). cbn [forallb].
        rewrite Hsep. reflexivity.
    - change (js "= " ++ g) with (61 :: 32 :: g). repeat split.
      + discriminate.
      + unfold no_line_terminator in *. cbn [forallb]. rewrite Hlt. reflexivity.
      + change (61 :: 32 :: g) with ([61; 32] ++ g).
        rewrite last_app_nonempty by exact Hg. exact Hlast. }
  split; [exact Hparse|]. rewrite Hparse. cbn [Obj.get].
  destruct (JS.eqb g (js "= " ++ g)) eqn:Heq; [|reflexivity].
  exfalso. assert (Hlen : List.length g = List.length (js "= " ++ g)).
  { clear - Heq. revert Heq. generalize (js "= " ++ g). induction g as [|x g IH];
      intros [|y l]; cbn [JS.eqb]; try discriminate; [reflexivity|].
    intros H. apply andb_true_iff in H as [_ H]. cbn [List.length].
    f_equal. apply IH; exact H. }
  change (js "= " ++ g) with (61 :: 32 :: g) in Hlen.
  cbn [List.length] in Hlen. lia.
Qed.

Lemma format3_line_keeps_equals_sign_witness :
  parseChecksums (md5_of_empty ++ js " = " ++ js "file.txt")
  = [(js "= " ++ js "file.txt", toLowerCase md5_of_empty)]
  /\ Obj.get (parseChecksums (md5_of_empty ++ js " = " ++ js "file.txt"))
       (js "file.txt") = None.
Proof.
  apply (@format3_line_keeps_equals_sign md5_of_empty (js "file.txt")).
  - split; [cbn; lia | vm_compute; reflexivity].
  - repeat split; try (vm_compute; reflexivity). discriminate.
Defined.

(** ** Detection of manifests *)

(** A repetition fails when the continuation fails after every prefix it
    can take. *)
Lemma rep_greedy_fails (R : Type) (k : cont R) (p : char -> bool) (s : jsstring) :
  forall lo hi prev pos,
    (forall j prev',
       (j <= List.length s)%nat -> forallb p (firstn j s) = true ->
       k prev' (pos + j)%nat (skipn j s) = None) ->
    rep_greedy k p lo hi prev pos s = None.
Proof.
  induction s as [|x s IH]; intros lo hi prev pos Hk.
  - pose proof (Hk 0%nat prev (Nat.le_0_l _) eq_refl) as H0.
    rewrite Nat.add_0_r in H0. cbn [skipn] in H0.
    cbn [rep_greedy]. destruct hi as [[|m]|]; destruct (Nat.eqb lo 0); auto.
  - pose proof (Hk 0%nat prev (Nat.le_0_l _) eq_refl) as H0.
    rewrite Nat.add_0_r in H0. cbn [skipn] in H0.
    cbn [rep_greedy].
    assert (Hstop : (if Nat.eqb lo 0 then k prev pos (x :: s) else None) = None)
      by (destruct (Nat.eqb lo 0); auto).
    rewrite Hstop. destruct (p x) eqn:Hx; [|destruct hi as [[|m]|]; reflexivity].
    rewrite IH; [destruct hi as [[|m]|]; reflexivity|].
    intros j prev' Hj Hall.
    replace (S pos + j)%nat with (pos + S j)%nat by lia.
    apply (Hk (S j) prev'); [cbn [List.length]; lia|].
    cbn [firstn forallb]. rewrite Hx, Hall. reflexivity.
Qed.

(** A repetition that needs a character fails on a character out of its
    class. *)
Lemma rep_greedy_head_fails (R : Type) (k : cont R) (p : char -> bool)
    lo hi prev pos x s :
  p x = false -> rep_greedy k p (S lo) hi prev pos (x :: s) = None.
Proof. intros Hx. cbn [rep_greedy Nat.eqb]. rewrite Hx. destruct hi as [[|m]|]; reflexivity. Qed.

(** Inside a text without line terminator no position is the start of a
    line. *)
Lemma search_bol_inside fl items x s :
  no_line_terminator (x :: s) = true ->
  search fl (Bol :: items) (Some x) s = None.
Proof.
  revert x. induction s as [|y s IH]; intros x Hlt;
    unfold no_line_terminator in Hlt; cbn [forallb] in Hlt;
    apply andb_true_iff in Hlt as [Hx Hs]; apply negb_true_iff in Hx;
    cbn [search run at_bol]; rewrite Hx, andb_false_r; [reflexivity|].
  apply IH. exact Hs.
Qed.

Lemma hexdigit_lower (x : char) :
  class_mem standardPattern_flags hexdigit x = hex_lower x.
Proof.
  unfold hex_lower, hexdigit, standardPattern_flags, ch.
  cbn [class_mem ignoreCase andb]. rewrite !orb_false_r. reflexivity.
Qed.

(** In a text that starts with a digest holding an upper-case letter, a
    run of lower-case digits is always followed by one more digit. *)
Lemma digit_after_lower_run (h rest : jsstring) :
  forallb hex_any_case h = true -> existsb hex_upper h = true ->
  forall j,
    forallb hex_lower (firstn j (h ++ rest)) = true ->
    exists y tl, skipn j (h ++ rest) = y :: tl /\ is_space y = false.
Proof.
  induction h as [|x h IH]; intros Hhex Hup j Hlow; [discriminate|].
  cbn [forallb existsb app] in *.
  apply andb_true_iff in Hhex as [Hx Hhex].
  destruct j as [|j].
  - exists x, (h ++ rest). split; [reflexivity|].
    apply hex_any_case_not_space; exact Hx.
  - cbn [firstn forallb skipn] in *. apply andb_true_iff in Hlow as [Hxl Hlow].
    apply IH; [exact Hhex | | exact Hlow].
    destruct (hex_upper x) eqn:Hxu; [|exact Hup].
    exfalso. revert Hxl Hxu. unfold hex_lower, hex_upper, in_range. leb_cases.
Qed.

Lemma standardPattern_fails_at_start (h rest : jsstring) :
  forallb hex_any_case h = true -> existsb hex_upper h = true ->
  run standardPattern_flags standardPattern no_captures None 0 (h ++ rest) = None.
Proof.
  intros Hhex Hup. unfold standardPattern, Plus. cbn [run at_bol].
  apply rep_greedy_fails. intros j prev' _ Hlow.
  rewrite (forallb_pointwise _ _ _ hexdigit_lower) in Hlow.
  destruct (@digit_after_lower_run h rest Hhex Hup j Hlow) as (y & tl & -> & Hy).
  apply rep_greedy_head_fails. cbn [class_mem]. exact Hy.
Qed.

Lemma alt_try_fails (R : Type) fl (k : cont R) words prev pos s :
  (forall w, In w words -> match_word fl w prev s = None) ->
  alt_try fl k words prev pos s = None.
Proof.
  induction words as [|w ws IH]; intros H; cbn [alt_try]; [reflexivity|].
  rewrite (H w (or_introl eq_refl)). apply IH.
  intros w' Hw'. apply H. right; exact Hw'.
Qed.

Lemma run_bol_alt fl words rest caps prev pos s :
  run fl (Bol :: Alt words :: rest) caps prev pos s
  = if at_bol fl prev
    then alt_try fl (fun prev' pos' s' => run fl rest caps prev' pos' s')
           words prev pos s
    else None.
Proof. reflexivity. Qed.

(** No algorithm word starts with a hexadecimal digit. *)
Lemma algo_word_fails (w : jsstring) (y : char) (s : jsstring) :
  In w algo_words -> hex_any_case y = true ->
  match_word bsdPattern_flags w None (y :: s) = None.
Proof.
  intros Hw Hy.
  assert (Hhead : exists a w', w = a :: w' /\ (a = 83 \/ a = 77)).
  { destruct Hw as [<-|[<-|[<-|[<-|[]]]]]; cbn; eauto. }
  destruct Hhead as (a & w' & -> & Ha). cbn [match_word].
  assert (Hne : (canonicalize bsdPattern_flags a =? canonicalize bsdPattern_flags y)
                = false).
  { apply N.eqb_neq. revert Hy.
    unfold canonicalize, bsdPattern_flags, hex_any_case, in_range.
    cbn [ignoreCase andb]. destruct Ha as [-> | ->]; leb_cases. }
  rewrite Hne. reflexivity.
Qed.

Lemma bsdPattern_fails_at_start (y : char) (s : jsstring) :
  hex_any_case y = true ->
  run bsdPattern_flags bsdPattern no_captures None 0 (y :: s) = None.
Proof.
  intros Hy. unfold bsdPattern. rewrite run_bol_alt. cbn [at_bol].
  apply alt_try_fails. intros w Hw. apply algo_word_fails; assumption.
Qed.

(** C4: a one-line manifest of the first grammar whose digest holds an
    upper-case letter is parsed into its entry (a name that the object
    stores: any but [__proto__]), and [containsChecksums] answers false
    for it. *)
Theorem parsed_but_not_detected (h ws f : jsstring) :
  is_digest h -> existsb hex_upper h = true ->
  ws <> [] -> forallb is_blank ws = true -> is_name_text f ->
  last_segment f <> Obj.proto ->
  containsChecksums (h ++ ws ++ f) = false
  /\ parseChecksums (h ++ ws ++ f) = [(last_segment f, toLowerCase h)].
Proof.
  intros Hh Hup Hws Hblank Hf Hkey.
  split; [|rewrite standard_manifest by assumption; apply set_empty; exact Hkey].
  pose proof (@standard_line_no_terminator h ws f Hh Hblank Hf) as Hlt.
  destruct Hh as [Hlen Hhex].
  pose proof (@standardPattern_fails_at_start h (ws ++ f) Hhex Hup) as Hstd.
  destruct h as [|y h']; [discriminate|].
  assert (Hy : hex_any_case y = true)
    by (cbn [forallb] in Hhex; apply andb_true_iff in Hhex; apply Hhex).
  pose proof (@bsdPattern_fails_at_start y (h' ++ ws ++ f) Hy) as Hbsd.
  cbn [app] in *. unfold containsChecksums, test.
  cbn [search]. rewrite Hstd, Hbsd.
  unfold standardPattern at 1, bsdPattern at 1.
  rewrite !search_bol_inside by exact Hlt. reflexivity.
Qed.

Lemma parsed_but_not_detected_witness :
  containsChecksums (js "D41D8CD98F00B204E9800998ECF8427E" ++ js "  " ++ js "file.txt")
  = false
  /\ parseChecksums (js "D41D8CD98F00B204E9800998ECF8427E" ++ js "  " ++ js "file.txt")
     = [(last_segment (js "file.txt"),
         toLowerCase (js "D41D8CD98F00B204E9800998ECF8427E"))].
Proof.
  apply (@parsed_but_not_detected (js "D41D8CD98F00B204E9800998ECF8427E")
           (js "  ") (js "file.txt")).
  - split; [cbn; lia | vm_compute; reflexivity].
  - vm_compute; reflexivity.
  - discriminate.
  - vm_compute; reflexivity.
  - repeat split; try (vm_compute; reflexivity); discriminate.
  - vm_compute; discriminate.
Defined.

(** A line of the third grammar without blanks around the sign reaches the
    third pattern and is parsed, and is not detected either. *)
Example unspaced_format3_line :
  containsChecksums (md5_of_empty ++ js "=file.txt") = false
  /\ parseChecksums (md5_of_empty ++ js "=file.txt")
     = [(js "file.txt", md5_of_empty)].
Proof. split; vm_compute; reflexivity. Qed.

(** A one-line manifest of the first grammar, [<digest><blanks><name>], is
    parsed into exactly one entry: the last path segment of the name, with
    the digest in lower case; except that the name [__proto__] cannot be
    stored, and the manifest then parses into nothing. *)
Theorem standard_line_is_parsed (h ws f : jsstring) :
  is_digest h -> ws <> [] -> forallb is_blank ws = true -> is_name_text f ->
  (last_segment f <> Obj.proto ->
   parseChecksums (h ++ ws ++ f) = [(last_segment f, toLowerCase h)]
   /\ Obj.get (parseChecksums (h ++ ws ++ f)) (last_segment f)
      = Some (toLowerCase h))
  /\ (last_segment f = Obj.proto ->
      parseChecksums (h ++ ws ++ f) = []
      /\ Obj.read (parseChecksums (h ++ ws ++ f)) (last_segment f)
         = Obj.prototype_member Obj.proto).
Proof.
  intros Hh Hws Hblank Hf. rewrite standard_manifest by assumption. split.
  - intros Hkey. rewrite set_empty by exact Hkey.
    split; [reflexivity|]. cbn [Obj.get]. rewrite jsstring_eqb_refl. reflexivity.
  - intros ->. rewrite set_proto. split; reflexivity.
Qed.

Lemma standard_line_is_parsed_witness :
  parseChecksums (js "BA7816BF8F01CFEA414140DE5DAE2223B00361A396177A9CB410FF61F20015AD"
                  ++ js "  " ++ js "dir/a.iso")
  = [(last_segment (js "dir/a.iso"),
      toLowerCase
        (js "BA7816BF8F01CFEA414140DE5DAE2223B00361A396177A9CB410FF61F20015AD"))]
  /\ Obj.get
       (parseChecksums
          (js "BA7816BF8F01CFEA414140DE5DAE2223B00361A396177A9CB410FF61F20015AD"
           ++ js "  " ++ js "dir/a.iso"))
       (last_segment (js "dir/a.iso"))
     = Some (toLowerCase
               (js "BA7816BF8F01CFEA414140DE5DAE2223B00361A396177A9CB410FF61F20015AD")).
Proof.
  apply (@standard_line_is_parsed
           (js "BA7816BF8F01CFEA414140DE5DAE2223B00361A396177A9CB410FF61F20015AD")
           (js "  ") (js "dir/a.iso")).
  - split; [cbn; lia | vm_compute; reflexivity].
  - discriminate.
  - vm_compute; reflexivity.
  - repeat split; try (vm_compute; reflexivity); discriminate.
  - vm_compute; discriminate.
Defined.

Example standard_line_is_parsed_values :
  last_segment (js "dir/a.iso") = js "a.iso"
  /\ toLowerCase
       (js "BA7816BF8F01CFEA414140DE5DAE2223B00361A396177A9CB410FF61F20015AD")
     = sha256_of_abc.
Proof. split; vm_compute; reflexivity. Qed.

End ManifestLines.

(** ** Hashing runs *)

Section HashingFacts.

Context (hashwasm sha256 : Sha256).

(** A loop that returns a digest has fed every chunk to the hasher. *)
Lemma file_stream_loop_digest e rest :
  forall hash p l t log h t' log',
    file_stream_loop sha256 e hash p l t log rest = (Digest h, t', log') ->
    h = hex (fold_left update rest hash).
Proof.
  induction rest as [|c rest IH]; intros hash p l t log h t' log';
    cbn [file_stream_loop fold_left];
    destruct (Hashing.verificationAborted e t); try discriminate.
  - intros H; inversion H; reflexivity.
  - destruct (N.leb _ _); intros H; apply IH in H; exact H.
Qed.

Lemma wasm_stream_loop_digest e rest :
  forall hash p l t log h t' log',
    wasm_stream_loop hashwasm e hash p l t log rest = (Digest h, t', log') ->
    h = hex (fold_left update rest hash).
Proof.
  induction rest as [|c rest IH]; intros hash p l t log h t' log';
    cbn [wasm_stream_loop fold_left].
  - intros H; inversion H; reflexivity.
  - destruct (N.leb _ _).
    + destruct (Hashing.verificationAborted e (S t)); [discriminate|].
      intros H; apply IH in H; exact H.
    + intros H; apply IH in H; exact H.
Qed.

Lemma chunked_loop_digest (S256 : Sha256) e file cs todo :
  forall hash i p t log h t' log',
    chunked_loop S256 e file cs hash i p t log todo = (Digest h, t', log') ->
    h = hex (fold_left update (slices file cs i todo) hash).
Proof.
  induction todo as [|todo IH]; intros hash i p t log h t' log';
    cbn [chunked_loop slices fold_left].
  - intros H; inversion H; reflexivity.
  - destruct (Hashing.verificationAborted e t); [discriminate|].
    intros H; apply IH in H; exact H.
Qed.

(** A loop that throws has seen the flag set, and throws the Stop error. *)
Lemma file_stream_loop_thrown e rest :
  forall hash p l t log err t' log',
    file_stream_loop sha256 e hash p l t log rest = (Thrown err, t', log') ->
    err = StoppedByUser /\ Hashing.verificationAborted e t' = true.
Proof.
  induction rest as [|c rest IH]; intros hash p l t log err t' log';
    cbn [file_stream_loop];
    destruct (Hashing.verificationAborted e t) eqn:Hflag.
  - intros H; inversion H; subst; auto.
  - discriminate.
  - intros H; inversion H; subst; auto.
  - destruct (N.leb _ _); intros H; apply IH in H; exact H.
Qed.

Lemma wasm_stream_loop_thrown e rest :
  forall hash p l t log err t' log',
    wasm_stream_loop hashwasm e hash p l t log rest = (Thrown err, t', log') ->
    err = StoppedByUser /\ Hashing.verificationAborted e t' = true.
Proof.
  induction rest as [|c rest IH]; intros hash p l t log err t' log';
    cbn [wasm_stream_loop].
  - discriminate.
  - destruct (N.leb _ _).
    + destruct (Hashing.verificationAborted e (S t)) eqn:Hflag.
      * intros H; inversion H; subst; auto.
      * intros H; apply IH in H; exact H.
    + intros H; apply IH in H; exact H.
Qed.

Lemma chunked_loop_thrown (S256 : Sha256) e file cs todo :
  forall hash i p t log err t' log',
    chunked_loop S256 e file cs hash i p t log todo = (Thrown err, t', log') ->
    err = StoppedByUser /\ Hashing.verificationAborted e t' = true
    /\ todo <> O.
Proof.
  induction todo as [|todo IH]; intros hash i p t log err t' log';
    cbn [chunked_loop].
  - discriminate.
  - destruct (Hashing.verificationAborted e t) eqn:Hflag.
    + intros H; inversion H; subst; auto.
    + intros H; apply IH in H. intuition discriminate.
Qed.

(** With the flag set, the loops of the js-sha256 path stop at once. *)
Lemma file_stream_loop_aborted e hash p l t log rest :
  Hashing.verificationAborted e t = true ->
  file_stream_loop sha256 e hash p l t log rest = (Thrown StoppedByUser, t, log).
Proof. intros H. destruct rest; cbn [file_stream_loop]; rewrite H; reflexivity. Qed.

Lemma chunked_loop_aborted (S256 : Sha256) e file cs hash i p t log todo :
  Hashing.verificationAborted e t = true -> todo <> O ->
  chunked_loop S256 e file cs hash i p t log todo = (Thrown StoppedByUser, t, log).
Proof.
  intros H Htodo. destruct todo; [congruence|].
  cbn [chunked_loop]; rewrite H; reflexivity.
Qed.

(** Whatever backend ran, a thrown run whose flag is clear is the missing
    library, and a Stop error comes with the flag set. *)
Lemma calculateFileHash_thrown e file err t log :
  calculateFileHash hashwasm sha256 e file = (Thrown err, t, log) ->
  Hashing.verificationAborted e t = true
  \/ (err = LibraryNotLoaded /\ has_hashwasm e = false).
Proof.
  unfold calculateFileHash, calculateHashWASM, calculateHashWithFileStream,
    calculateHashStreaming.
  destruct (has_hashwasm e) eqn:Hw.
  - destruct (has_stream e) eqn:Hs.
    + destruct (wasm_stream_loop _ _ _ _ _ _ _ _) as [[[h|err1] t1] log1] eqn:Hloop;
        [discriminate|].
      apply wasm_stream_loop_thrown in Hloop as [_ Hflag].
      destruct (has_sha256 e); cbn [negb].
      * rewrite file_stream_loop_aborted by exact Hflag.
        intros H; inversion H; subst; auto.
      * intros H; inversion H; subst; auto.
    + destruct (chunked_loop _ _ _ _ _ _ _ _ _ _) as [[[h|err1] t1] log1] eqn:Hloop;
        [discriminate|].
      apply chunked_loop_thrown in Hloop as (_ & Hflag & Htodo).
      destruct (has_sha256 e); cbn [negb].
      * rewrite chunked_loop_aborted by assumption.
        intros H; inversion H; subst; auto.
      * intros H; inversion H; subst; auto.
  - destruct (has_stream e); destruct (has_sha256 e); cbn [negb];
      try (intros H; inversion H; subst; auto; fail).
    + intros H; apply file_stream_loop_thrown in H as [_ H]; auto.
    + intros H; apply chunked_loop_thrown in H as (_ & H & _); auto.
Qed.

(** Whatever backend ran, a digest is 64 characters long. *)
Lemma calculateFileHash_digest_length e file h t log :
  calculateFileHash hashwasm sha256 e file = (Digest h, t, log) ->
  List.length h = 64%nat.
Proof.
  unfold calculateFileHash, calculateHashWASM, calculateHashWithFileStream,
    calculateHashStreaming.
  destruct (has_hashwasm e).
  - destruct (has_stream e).
    + destruct (wasm_stream_loop _ _ _ _ _ _ _ _) as [[[h1|err1] t1] log1] eqn:Hloop.
      * apply wasm_stream_loop_digest in Hloop.
        intros H; inversion H; subst. apply hex_length.
      * destruct (has_sha256 e); cbn [negb].
        -- destruct (file_stream_loop _ _ _ _ _ _ _ _) as [[r2 t2] log2] eqn:H2.
           intros H; inversion H; subst.
           apply file_stream_loop_digest in H2. subst. apply hex_length.
        -- discriminate.
    + destruct (chunked_loop _ _ _ _ _ _ _ _ _ _) as [[[h1|err1] t1] log1] eqn:Hloop.
      * apply chunked_loop_digest in Hloop.
        intros H; inversion H; subst. apply hex_length.
      * destruct (has_sha256 e); cbn [negb].
        -- destruct (chunked_loop sha256 _ _ _ _ _ _ _ _ _) as [[r2 t2] log2] eqn:H2.
           intros H; inversion H; subst.
           apply chunked_loop_digest in H2. subst. apply hex_length.
        -- discriminate.
  - destruct (has_stream e); destruct (has_sha256 e); cbn [negb];
      try discriminate.
    + intros H; apply file_stream_loop_digest in H. subst. apply hex_length.
    + intros H; apply chunked_loop_digest in H. subst. apply hex_length.
Qed.


End HashingFacts.

(** ** Enumeration of a manifest *)

Lemma insert_index_In i e x l :
  In x (Obj.insert_index i e l) <-> x = (i, e) \/ In x l.
Proof.
  induction l as [|[j e'] l IH]; cbn [Obj.insert_index].
  - cbn [In]. intuition.
  - destruct (N.leb i j); cbn [In]; [intuition|].
    rewrite IH. intuition.
Qed.

Lemma indexed_In (o : Obj.obj) (e : jsstring * jsstring) :
  In e (map snd (Obj.indexed o))
  <-> In e o /\ Obj.array_index (fst e) <> None.
Proof.
  induction o as [|e' o IH]; cbn [Obj.indexed].
  - cbn [map In]. tauto.
  - destruct (Obj.array_index (fst e')) as [i|] eqn:Hi.
    + rewrite in_map_iff. split.
      * intros [[j x] [Hx Hin]]. cbn [snd] in Hx. subst x.
        apply insert_index_In in Hin as [Heq|Hin].
        -- inversion Heq; subst. split; [left; reflexivity | congruence].
        -- assert (H : In e (map snd (Obj.indexed o)))
             by (apply in_map_iff; exists (j, e); auto).
           apply IH in H. cbn [In]. tauto.
      * intros [[Heq|Hin] Hidx].
        -- subst e'. exists (i, e). split; [reflexivity|].
           apply insert_index_In. left; reflexivity.
        -- assert (H : In e (map snd (Obj.indexed o))) by (apply IH; auto).
           apply in_map_iff in H as [[j x] [Hx Hj]]. cbn [snd] in Hx. subst x.
           exists (j, e). split; [reflexivity|].
           apply insert_index_In. right; exact Hj.
    + rewrite IH. cbn [In]. split.
      * tauto.
      * intros [[Heq|Hin] Hidx]; [subst; congruence | tauto].
Qed.

Lemma entries_In (o : Obj.obj) (e : jsstring * jsstring) :
  In e (Obj.entries o) <-> In e o.
Proof.
  unfold Obj.entries, Obj.named.
  rewrite in_app_iff, indexed_In, filter_In.
  destruct (Obj.array_index (fst e)); split; intros H.
  - destruct H as [[H _]|[_ H]]; [exact H | discriminate].
  - left. split; [exact H | discriminate].
  - destruct H as [[_ H]|[H _]]; [congruence | exact H].
  - right. split; [exact H | reflexivity].
Qed.

Lemma find_by_hash_some (M : Obj.obj) (h m h' : jsstring) :
  find_by_hash M h = Some (m, h') -> In (m, h) M /\ h' = h.
Proof.
  unfold find_by_hash. intros H. apply find_some in H as [Hin Heq].
  cbn [snd] in Heq. apply jsstring_eqb_eq in Heq. subst h'.
  split; [apply entries_In; exact Hin | reflexivity].
Qed.



Lemma get_In (M : Obj.obj) (k v : jsstring) : Obj.get M k = Some v -> In (k, v) M.
Proof.
  induction M as [|[k' v'] M IH]; cbn [Obj.get]; [discriminate|].
  destruct (JS.eqb k k') eqn:Hk.
  - apply jsstring_eqb_eq in Hk. intros H; inversion H; subst. left; reflexivity.
  - intros H. right. apply IH; exact H.
Qed.

Lemma truthy_length (s : jsstring) (n : nat) :
  List.length s = S n -> truthy s = true.
Proof. destruct s; [discriminate | reflexivity]. Qed.

(** ** The lookup of a file in the manifest *)







(** A string found by the lookup is the digest of an entry. *)
Lemma lookup_string (M : Obj.obj) (k c x v : jsstring) :
  lookup M k c = Some (x, Obj.string_value v) -> In (x, v) M.
Proof.
  unfold lookup. destruct (Obj.truthy_value (Obj.read M k)).
  - intros H; inversion H as [[Hx Hv]]. subst x. apply get_In.
    unfold Obj.read in Hv. destruct (Obj.get M k) as [w|].
    + congruence.
    + destruct (Obj.inherits k); discriminate.
  - destruct (find_by_hash M c) as [[m h]|] eqn:Hfind; [|discriminate].
    intros H; inversion H; subst.
    destruct (find_by_hash_some _ _ Hfind) as [Hin ->]. exact Hin.
Qed.

(** ** Outcome of one job *)

Section JobFacts.

Context (hashwasm sha256 : Sha256).

Local Abbreviation verify := (verifyFileChecksum hashwasm sha256).
Local Abbreviation calculate := (calculateFileHash hashwasm sha256).



(** C9: every digest the queue computes has the 64 characters of SHA-256,
    whatever the manifest holds; a verified report carries such a digest,
    which is the digest of the entry it names, so that an entry with a
    digest of 32, 40 or 128 characters never yields a verified report. *)
Theorem computed_digest_is_sha256 M V e f :
  (forall h t log,
     calculate e f = (Digest h, t, log) ->
     List.length h = 64%nat /\ getHashAlgorithm h = SHA_256)
  /\ (forall m a h,
        snd (verify M V e f) = CHECKSUM_VERIFIED m a h ->
        In (m, h) M /\ List.length h = 64%nat /\ a = SHA_256)
  /\ (forall m d,
        List.length d = 32%nat \/ List.length d = 40%nat
        \/ List.length d = 128%nat ->
        forall a, snd (verify M V e f) <> CHECKSUM_VERIFIED m a d).
Proof.
  assert (Hlen : forall h t log,
             calculate e f = (Digest h, t, log) ->
             List.length h = 64%nat /\ getHashAlgorithm h = SHA_256).
  { intros h t log Hcalc.
    pose proof (calculateFileHash_digest_length _ _ _ _ Hcalc) as H64.
    split; [exact H64|]. unfold getHashAlgorithm. rewrite H64. reflexivity. }
  assert (Hver : forall m a h,
             snd (verify M V e f) = CHECKSUM_VERIFIED m a h ->
             In (m, h) M /\ List.length h = 64%nat /\ a = SHA_256).
  { intros m a h. unfold verifyFileChecksum.
    destruct (Obj.values M); [discriminate|].
    destruct (calculate e f) as [[[c|err] t] log] eqn:Hcalc.
    - destruct (Hlen _ _ _ eq_refl) as [H64 Halg].
      destruct (lookup M (name f) c) as [[x y]|] eqn:Hlookup;
        [|cbn [snd]; discriminate].
      destruct (truthy x && Obj.strict_eqb y c) eqn:Hsame.
      + apply andb_true_iff in Hsame as [_ Hsame].
        destruct y as [|v|k]; try discriminate.
        cbn [Obj.strict_eqb] in Hsame. apply jsstring_eqb_eq in Hsame. subst v.
        apply lookup_string in Hlookup. cbn [snd algorithm_of].
        intros H; inversion H; subst. auto.
      + destruct (Obj.truthy_value y && negb (Obj.strict_eqb y c));
          cbn [snd]; discriminate.
    - destruct (Hashing.verificationAborted e t); cbn [snd]; discriminate. }
  split; [exact Hlen|]. split; [exact Hver|].
  intros m d Hd a Hrep. apply Hver in Hrep as (_ & H64 & _).
  rewrite H64 in Hd. destruct Hd as [Hd|[Hd|Hd]]; discriminate.
Qed.


End JobFacts.

(** ** Worked runs on real digests *)

Example abc_manifest_entries : abc_manifest = [(js "a.iso", sha256_of_abc)].
Proof. vm_compute. reflexivity. Qed.




(** The same click on the js-sha256 stream path ends the run. *)
Example stop_seen_by_stream_loop :
  verify_reference abc_manifest [] (page_without_wasm (Some 1)) a_iso
  = ([], hidden).
Proof. vm_compute. reflexivity. Qed.

(** The derived constants are the published ones. *)
Example sha256_constants :
  List.length Reference.K = 64%nat
  /\ firstn 2 Reference.K = [1116352408; 1899447441]%N
  /\ last Reference.K 0%N = 3329325298%N
  /\ firstn 2 Reference.H0 = [1779033703; 3144134277]%N
  /\ last Reference.H0 0%N = 1541459225%N.
Proof. vm_compute. repeat split; reflexivity. Qed.

(** The digests of section 8 of the specification. *)
Example sha256_of_empty :
  Reference.sha256_hex []
  = js "e3b0c44298fc1c149afbf4c8996fb92427ae41e4649b934ca495991b7852b855".
Proof. vm_compute. reflexivity. Qed.

Example sha256_of_zero :
  Reference.sha256_hex (js "0")
  = js "5feceb66ffc86f38d952786c6d696c79c2dbc239dd4e91b46729d73a27fb57e9".
Proof. vm_compute. reflexivity. Qed.

(** ** The upload gate *)

Lemma hasOwnProperty_keys (M : Obj.obj) (k : jsstring) :
  Obj.hasOwnProperty M k = true -> Obj.keys M <> [].
Proof.
  unfold Obj.hasOwnProperty. destruct (Obj.get M k) as [v|] eqn:Hget;
    [|discriminate].
  intros _ Hnil. apply get_In, entries_In in Hget.
  unfold Obj.keys in Hnil. destruct (Obj.entries M); [exact Hget | discriminate].
Qed.

Lemma filter_all (A : Type) (p : A -> bool) (l : list A) :
  (forall x, In x l -> p x = true) -> filter p l = l.
Proof.
  induction l as [|x l IH]; intros H; cbn [filter]; [reflexivity|].
  rewrite (H x) by (left; reflexivity).
  rewrite IH; [reflexivity|]. intros y Hy. apply H. right; exact Hy.
Qed.

Lemma filter_shorter (A : Type) (p : A -> bool) (l : list A) (x : A) :
  In x l -> p x = false -> (List.length (filter p l) < List.length l)%nat.
Proof.
  induction l as [|y l IH]; intros Hin Hx; [destruct Hin|].
  cbn [filter List.length]. destruct Hin as [->|Hin].
  - rewrite Hx. pose proof (filter_length_le p l). lia.
  - specialize (IH Hin Hx). destruct (p y); cbn [List.length]; lia.
Qed.

(** [loop_head] and [processQueue] leave the array of references and the
    files of the items alone. *)
Lemma update_item_length its id f :
  List.length (update_item its id f) = List.length its.
Proof.
  revert id; induction its as [|it its IH]; intros [|id]; cbn [update_item List.length];
    try reflexivity. rewrite IH; reflexivity.
Qed.

Lemma update_item_files its id st r :
  map file (update_item its id (set_status st r)) = map file its.
Proof.
  revert id; induction its as [|it its IH]; intros [|id]; cbn [update_item map];
    try reflexivity. rewrite IH; reflexivity.
Qed.

Lemma loop_head_frame s :
  fileQueue (fst (loop_head s)) = fileQueue s
  /\ map file (items (fst (loop_head s))) = map file (items s)
  /\ List.length (items (fst (loop_head s))) = List.length (items s)
  /\ forall l, ~ In (Confirm l) (snd (loop_head s)).
Proof.
  unfold loop_head.
  destruct (fileQueue s) as [|id0 q] eqn:Hq;
    [|destruct (findPending (items s) (id0 :: q))];
    cbn [fst snd fileQueue items]; rewrite ?Hq, ?update_item_files,
      ?update_item_length; repeat split; auto.
  intros l' [H|[]]; discriminate.
Qed.

Lemma processQueue_frame s :
  fileQueue (fst (processQueue s)) = fileQueue s
  /\ map file (items (fst (processQueue s))) = map file (items s)
  /\ List.length (items (fst (processQueue s))) = List.length (items s)
  /\ forall l, ~ In (Confirm l) (snd (processQueue s)).
Proof.
  unfold processQueue. destruct (isProcessingQueue s).
  - cbn. repeat split; auto.
  - match goal with
    | |- context [loop_head ?x] => exact (loop_head_frame x)
    end.
Qed.

Lemma upload_frame s files :
  let s' := fst (if isProcessingQueue (enqueued s files)
                 then (enqueued s files, [])
                 else processQueue (enqueued s files)) in
  fileQueue s' = fileQueue s ++ seq (List.length (items s)) (List.length files)
  /\ map file (items s') = map file (items s) ++ files
  /\ List.length (items s') = (List.length (items s) + List.length files)%nat.
Proof.
  assert (Hfiles : map file (items (enqueued s files)) = map file (items s) ++ files).
  { cbn. rewrite map_app, map_map. cbn. rewrite map_id. reflexivity. }
  assert (Hlen : List.length (items (enqueued s files))
                 = (List.length (items s) + List.length files)%nat).
  { cbn. rewrite length_app, length_map. reflexivity. }
  cbv zeta. destruct (isProcessingQueue (enqueued s files)).
  - cbn [fst]. auto.
  - destruct (processQueue_frame (enqueued s files)) as (Hq & Hf & Hl & _).
    rewrite Hq, Hf, Hl. auto.
Qed.

Lemma inherits_hasOwnProperty : Obj.inherits (js "hasOwnProperty") = true.
Proof. vm_compute. reflexivity. Qed.

(** [parsedChecksums.hasOwnProperty(name)] answers unless the manifest has
    an entry of that very name. *)
Lemma call_hasOwnProperty_cases (M : Obj.obj) (k : jsstring) :
  Obj.call_hasOwnProperty M k
  = match Obj.get M (js "hasOwnProperty") with
    | Some _ => None
    | None => Some (Obj.hasOwnProperty M k)
    end.
Proof.
  unfold Obj.call_hasOwnProperty, Obj.read.
  destruct (Obj.get M (js "hasOwnProperty")); [reflexivity|].
  rewrite inherits_hasOwnProperty. reflexivity.
Qed.

Lemma filesNotInList_answers (M : Obj.obj) (files : list File) :
  Obj.get M (js "hasOwnProperty") = None ->
  filesNotInList M files
  = Some (filter (fun f => negb (Obj.hasOwnProperty M (name f))) files).
Proof.
  intros Hcall. destruct files as [|f files]; [reflexivity|].
  unfold filesNotInList. rewrite call_hasOwnProperty_cases, Hcall. reflexivity.
Qed.

Lemma filesNotInList_throws (M : Obj.obj) (files : list File) :
  files <> [] -> Obj.get M (js "hasOwnProperty") <> None ->
  filesNotInList M files = None.
Proof.
  intros Hfiles Hown. destruct files as [|f files]; [congruence|].
  unfold filesNotInList. rewrite call_hasOwnProperty_cases.
  destruct (Obj.get M (js "hasOwnProperty")); [reflexivity | congruence].
Qed.

Lemma filesNotInList_some (M : Obj.obj) (files l : list File) :
  filesNotInList M files = Some l ->
  l = filter (fun f => negb (Obj.hasOwnProperty M (name f))) files.
Proof.
  destruct files as [|f files]; cbn [filesNotInList filter].
  - intros H; inversion H; reflexivity.
  - destruct (Obj.call_hasOwnProperty M (name f)); [|discriminate].
    intros H; inversion H; reflexivity.
Qed.

(** The handler throws exactly on a non-empty batch against a manifest
    with an entry named [hasOwnProperty]; the page is then left as it
    was. *)
Lemma upload_throws s files userConfirmed :
  files <> [] -> Obj.get (parsedChecksums s) (js "hasOwnProperty") <> None ->
  handleChecksumFileUpload s files userConfirmed = (s, [NotAFunction]).
Proof.
  intros Hfiles Hown. unfold handleChecksumFileUpload.
  destruct files as [|f0 files']; [congruence|].
  destruct (Obj.keys (parsedChecksums s)) as [|k0 ks] eqn:Hkeys.
  - exfalso. destruct (Obj.get (parsedChecksums s) (js "hasOwnProperty")) as [v|] eqn:Hget;
      [|congruence].
    apply get_In, entries_In in Hget. unfold Obj.keys in Hkeys.
    destruct (Obj.entries (parsedChecksums s)); [exact Hget | discriminate].
  - rewrite filesNotInList_throws by assumption. reflexivity.
Qed.

Lemma status_of_lt its id st : status_of its id = Some st -> (id < List.length its)%nat.
Proof.
  unfold status_of. intros H. apply nth_error_Some.
  destruct (nth_error its id); [discriminate | discriminate].
Qed.

Lemma status_of_update_same its id st r :
  (id < List.length its)%nat ->
  status_of (update_item its id (set_status st r)) id = Some st.
Proof.
  revert id; induction its as [|it its IH]; intros [|id] H; cbn [List.length] in H;
    try lia; [reflexivity|].
  cbn [update_item]. unfold status_of in *. cbn [nth_error]. apply IH. lia.
Qed.

Lemma status_of_update_other its id id' f :
  id <> id' -> status_of (update_item its id f) id' = status_of its id'.
Proof.
  revert id id'; induction its as [|it its IH]; intros [|id] [|id'] H;
    cbn [update_item]; try reflexivity; try congruence.
  unfold status_of in *. cbn [nth_error]. apply IH. congruence.
Qed.

Lemma status_of_app_old its more id :
  (id < List.length its)%nat -> status_of (its ++ more) id = status_of its id.
Proof. intros H. unfold status_of. rewrite nth_error_app1 by exact H. reflexivity. Qed.

Lemma status_of_app_new its files id st :
  (List.length its <= id)%nat ->
  status_of (its ++ map new_item files) id = Some st -> st = pending.
Proof.
  intros H. unfold status_of. rewrite nth_error_app2 by exact H.
  rewrite nth_error_map. destruct (nth_error files _); cbn; congruence.
Qed.

(** The items of a batch after the upload that queued them: each is
    pending, or is the one item that the handler started. *)
Lemma enqueued_items_wait s files :
  let after := if isProcessingQueue (enqueued s files)
               then (enqueued s files, [])
               else processQueue (enqueued s files) in
  forall id,
    (List.length (items s) <= id < List.length (items s) + List.length files)%nat ->
    status_of (items (fst after)) id = Some pending
    \/ (status_of (items (fst after)) id = Some processing
        /\ snd after = [Started id]).
Proof.
  cbv zeta. intros id Hid.
  assert (Hnew : status_of (items (enqueued s files)) id = Some pending).
  { cbn [enqueued items]. unfold status_of.
    rewrite nth_error_app2 by lia. rewrite nth_error_map.
    destruct (nth_error files (id - List.length (items s))) eqn:Hnth; [reflexivity|].
    apply nth_error_None in Hnth. lia. }
  destruct (isProcessingQueue (enqueued s files)) eqn:Hproc; [left; exact Hnew|].
  unfold processQueue. rewrite Hproc. unfold loop_head.
  cbn [fileQueue items isProcessingQueue queueItem].
  destruct (fileQueue (enqueued s files)) as [|id0 q]; [left; exact Hnew|].
  destruct (findPending (items (enqueued s files)) (id0 :: q)) as [p|] eqn:Hfind;
    [|left; exact Hnew].
  cbn [fst snd items].
  destruct (Nat.eq_dec p id) as [->|Hne].
  - right. split; [|reflexivity].
    apply status_of_update_same. apply (status_of_lt _ _ Hnew).
  - left. rewrite status_of_update_other by exact Hne. exact Hnew.
Qed.

(** C5: when no file of the batch is named in the manifest, nothing of the
    batch is queued and no job of the batch starts unless the dialog was
    opened first and answered with yes; when the answer is no, the page is
    left as it was: nothing is queued and no job starts.  The dialog is
    the first thing the handler does whenever
    [parsedChecksums.hasOwnProperty] can be called; against a manifest
    with an entry of that name the handler throws instead, and nothing is
    queued or started either. *)
Theorem unmatched_batch_needs_confirmation s files userConfirmed :
  (forall f, In f files ->
             Obj.hasOwnProperty (parsedChecksums s) (name f) = false) ->
  (fst (handleChecksumFileUpload s files userConfirmed) <> s
   \/ (exists id,
         In (Started id) (snd (handleChecksumFileUpload s files userConfirmed))) ->
   userConfirmed = true
   /\ exists rest,
        snd (handleChecksumFileUpload s files userConfirmed)
        = Confirm (map name files) :: rest)
  /\ (userConfirmed = false ->
      fst (handleChecksumFileUpload s files userConfirmed) = s
      /\ forall id,
           ~ In (Started id) (snd (handleChecksumFileUpload s files userConfirmed)))
  /\ (files <> [] -> Obj.keys (parsedChecksums s) <> [] ->
      (Obj.get (parsedChecksums s) (js "hasOwnProperty") = None ->
       exists rest,
         snd (handleChecksumFileUpload s files userConfirmed)
         = Confirm (map name files) :: rest)
      /\ (Obj.get (parsedChecksums s) (js "hasOwnProperty") <> None ->
          handleChecksumFileUpload s files userConfirmed = (s, [NotAFunction]))).
Proof.
  intros Habsent.
  assert (Hquiet : forall eff : list effect,
            (forall id, ~ In (Started id) eff) ->
            (s <> s \/ (exists id, In (Started id) eff) ->
             userConfirmed = true
             /\ exists rest, eff = Confirm (map name files) :: rest)
            /\ (userConfirmed = false -> s = s /\ forall id, ~ In (Started id) eff)).
  { intros eff Hno. split; [|auto].
    intros [H | [id Hid]]; [congruence | destruct (Hno id Hid)]. }
  destruct files as [|f0 files']; [|set (files := f0 :: files') in *].
  { cbn [handleChecksumFileUpload fst snd].
    destruct (Hquiet []) as [H1 H2]; [intros id []|].
    split; [exact H1|]. split; [exact H2 | congruence]. }
  destruct (Obj.get (parsedChecksums s) (js "hasOwnProperty")) as [v|] eqn:Hcall.
  { rewrite upload_throws by (unfold files; congruence). cbn [fst snd].
    destruct (Hquiet [NotAFunction]) as [H1 H2];
      [intros id [H|[]]; discriminate|].
    split; [exact H1|]. split; [exact H2|].
    intros _ _. split; [discriminate | reflexivity]. }
  unfold handleChecksumFileUpload. fold files.
  change (match files with [] => (s, []) | _ :: _ => ?x end) with x.
  destruct (Obj.keys (parsedChecksums s)) as [|k0 ks] eqn:Hkeys.
  { cbn [fst snd].
    destruct (Hquiet [NoChecksumsLoaded]) as [H1 H2];
      [intros id [H|[]]; discriminate|].
    split; [exact H1|]. split; [exact H2 | congruence]. }
  rewrite (filesNotInList_answers _ files Hcall).
  rewrite filter_all
    by (intros f Hf; rewrite (Habsent f Hf); reflexivity).
  assert (Hasks : negb (Nat.eqb (List.length files) 0)
                  && Nat.eqb (List.length files) (List.length files) = true).
  { rewrite Nat.eqb_refl. reflexivity. }
  rewrite Hasks. cbn [andb].
  destruct userConfirmed; cbn [negb].
  - destruct (if isProcessingQueue _ then _ else _) as [s' started].
    cbn [snd fst app]. split; [eauto|]. split; [discriminate|].
    intros _ _. split; [eauto | congruence].
  - cbn [snd fst]. destruct (Hquiet [Confirm (map name files)]) as [H1 H2];
      [intros id [H|[]]; discriminate|].
    split; [exact H1|]. split; [exact H2|].
    intros _ _. split; [eauto | congruence].
Qed.

Lemma unmatched_batch_needs_confirmation_witness :
  fst (handleChecksumFileUpload (initial abc_manifest) [b_iso] false)
  = initial abc_manifest
  /\ snd (handleChecksumFileUpload (initial abc_manifest) [b_iso] false)
     = [Confirm [js "b.iso"]].
Proof.
  assert (Habsent : forall f, In f [b_iso] ->
            Obj.hasOwnProperty (parsedChecksums (initial abc_manifest)) (name f)
            = false).
  { intros f [<-|[]]. vm_compute. reflexivity. }
  destruct (@unmatched_batch_needs_confirmation (initial abc_manifest) [b_iso]
              false Habsent) as (_ & Hno & _).
  split; [apply (Hno eq_refl) | vm_compute; reflexivity].
Defined.

(** C10: against a manifest that has an entry named [hasOwnProperty], with
    whatever digest, the handler throws on every batch, a batch with files
    named in the manifest included: no file is queued and no job starts.
    Against every other manifest a batch with a file named in it opens no
    dialog and every file of the batch, named or not, becomes a pending
    item of the queue, in the order of the batch, the first of them being
    started at once when the queue is idle. *)
Theorem matched_batch_is_enqueued_whole s files userConfirmed :
  (exists f, In f files
             /\ Obj.hasOwnProperty (parsedChecksums s) (name f) = true) ->
  (Obj.get (parsedChecksums s) (js "hasOwnProperty") <> None ->
   handleChecksumFileUpload s files userConfirmed = (s, [NotAFunction])
   /\ items (fst (handleChecksumFileUpload s files userConfirmed)) = items s
   /\ fileQueue (fst (handleChecksumFileUpload s files userConfirmed))
      = fileQueue s
   /\ forall id,
        ~ In (Started id) (snd (handleChecksumFileUpload s files userConfirmed)))
  /\ (Obj.get (parsedChecksums s) (js "hasOwnProperty") = None ->
      (forall l,
         ~ In (Confirm l) (snd (handleChecksumFileUpload s files userConfirmed)))
      /\ fileQueue (fst (handleChecksumFileUpload s files userConfirmed))
         = fileQueue s ++ seq (List.length (items s)) (List.length files)
      /\ map file (items (fst (handleChecksumFileUpload s files userConfirmed)))
         = map file (items s) ++ files
      /\ forall id,
           (List.length (items s) <= id
            < List.length (items s) + List.length files)%nat ->
           status_of
             (items (fst (handleChecksumFileUpload s files userConfirmed))) id
           = Some pending
           \/ (status_of
                 (items (fst (handleChecksumFileUpload s files userConfirmed))) id
               = Some processing
               /\ snd (handleChecksumFileUpload s files userConfirmed)
                  = [Started id])).
Proof.
  intros (f & Hin & Hown).
  assert (Hfiles : files <> []) by (destruct files; [destruct Hin | discriminate]).
  split.
  { intros Hcall. rewrite upload_throws by assumption. cbn [fst snd].
    repeat split; try reflexivity. intros id [H|[]]; discriminate. }
  intros Hcall. unfold handleChecksumFileUpload.
  destruct files as [|f0 files']; [congruence | set (files := f0 :: files') in *].
  destruct (Obj.keys (parsedChecksums s)) as [|k0 ks] eqn:Hkeys;
    [exfalso; exact (hasOwnProperty_keys _ _ Hown Hkeys)|].
  rewrite (filesNotInList_answers _ files Hcall).
  set (notInList := filter _ files).
  assert (Hshort : (List.length notInList < List.length files)%nat).
  { apply (filter_shorter _ _ f Hin). rewrite Hown. reflexivity. }
  assert (Hasks : negb (Nat.eqb (List.length notInList) 0)
                  && Nat.eqb (List.length notInList) (List.length files) = false).
  { apply andb_false_iff. right. apply Nat.eqb_neq. lia. }
  rewrite Hasks. cbn [andb app].
  pose proof (upload_frame s files) as Hframe. cbv zeta in Hframe.
  pose proof (enqueued_items_wait s files) as Hwait. cbv zeta in Hwait.
  fold (enqueued s files).
  destruct (isProcessingQueue (enqueued s files)) eqn:Hproc.
  - cbn [fst snd] in *. split; [auto|]. tauto.
  - destruct (processQueue (enqueued s files)) as [s' started] eqn:Hpq.
    cbn [fst snd] in *. split; [|tauto].
    pose proof (processQueue_frame (enqueued s files)) as (_ & _ & _ & Hno).
    rewrite Hpq in Hno. exact Hno.
Qed.

Lemma matched_batch_is_enqueued_whole_witness :
  Obj.hasOwnProperty shadowed_manifest (name a_iso) = true
  /\ handleChecksumFileUpload (initial shadowed_manifest) [a_iso] false
     = (initial shadowed_manifest, [NotAFunction])
  /\ (forall l, ~ In (Confirm l)
                  (snd (handleChecksumFileUpload (initial abc_manifest)
                          [b_iso; a_iso] false)))
  /\ fileQueue (fst (handleChecksumFileUpload (initial abc_manifest)
                       [b_iso; a_iso] false))
     = [0; 1]%nat.
Proof.
  split; [vm_compute; reflexivity|]. split.
  - apply (@matched_batch_is_enqueued_whole (initial shadowed_manifest)
             [a_iso] false).
    + exists a_iso. split; [left; reflexivity | vm_compute; reflexivity].
    + vm_compute. discriminate.
  - destruct (@matched_batch_is_enqueued_whole (initial abc_manifest)
                [b_iso; a_iso] false) as [_ Hgood].
    + exists a_iso. split; [right; left; reflexivity | vm_compute; reflexivity].
    + destruct (Hgood eq_refl) as (Hno & Hq & _). split; [exact Hno | exact Hq].
Defined.

(** ** The queue as a state machine *)

Lemma started_app a b : started (a ++ b) = started a ++ started b.
Proof. apply flat_map_app. Qed.

Lemma started_In id tr : In id (started tr) <-> In (Started id) tr.
Proof.
  unfold started. rewrite in_flat_map. split.
  - intros [x [Hx Hid]]. destruct x; try destruct Hid as [<-|[]]; try destruct Hid.
    exact Hx.
  - intros H. exists (Started id). split; [exact H | left; reflexivity].
Qed.

(** [findIndex] returns the first pending item of the array. *)
Lemma findPending_some its q p :
  findPending its q = Some p ->
  In p q /\ status_of its p = Some pending
  /\ (StronglySorted lt q ->
      forall j, In j q -> status_of its j = Some pending -> (p <= j)%nat).
Proof.
  induction q as [|id q IH]; cbn [findPending]; [discriminate|].
  destruct (status_of its id) as [[]|] eqn:Hid;
    try (intros H; apply IH in H as (Hin & Hp & Hfirst);
         split; [right; exact Hin|]; split; [exact Hp|];
         intros Hs j [<-|Hj] Hpend;
         [congruence | inversion Hs; subst; apply Hfirst; assumption]).
  intros H; inversion H; subst p.
  split; [left; reflexivity|]. split; [exact Hid|].
  intros Hs j [<-|Hj] _; [lia|].
  inversion Hs as [|? ? _ Hall]; subst.
  rewrite Forall_forall in Hall. specialize (Hall j Hj). lia.
Qed.

Lemma StronglySorted_snoc l x :
  StronglySorted lt l -> (forall y, In y l -> (y < x)%nat) ->
  StronglySorted lt (l ++ [x]).
Proof.
  induction l as [|y l IH]; intros Hs Hlt; cbn [app].
  - constructor; constructor.
  - inversion Hs as [|? ? Hs' Hall]; subst. constructor.
    + apply IH; [exact Hs' | intros z Hz; apply Hlt; right; exact Hz].
    + rewrite Forall_forall in *. intros z Hz. apply in_app_or in Hz as [Hz|[<-|[]]].
      * apply Hall; exact Hz.
      * apply Hlt. left; reflexivity.
Qed.

Lemma StronglySorted_app_seq l a n :
  StronglySorted lt l -> (forall y, In y l -> (y < a)%nat) ->
  StronglySorted lt (l ++ seq a n).
Proof.
  revert l a; induction n as [|n IH]; intros l a Hs Hlt; cbn [seq].
  - rewrite app_nil_r. exact Hs.
  - change (a :: seq (S a) n) with ([a] ++ seq (S a) n). rewrite app_assoc.
    apply IH.
    + apply StronglySorted_snoc; assumption.
    + intros y Hy. apply in_app_or in Hy as [Hy|[<-|[]]]; [|lia].
      specialize (Hlt y Hy). lia.
Qed.

Lemma loop_head_inv s log :
  LoopInv s log ->
  Inv (fst (loop_head s)) (log ++ started (snd (loop_head s))).
Proof.
  intros [Hidle Hsorted Hbound Hstarted Horder Hahead].
  assert (Hfinish :
    forall s', items s' = items s -> fileQueue s' = fileQueue s ->
               isProcessingQueue s' = false -> queueItem s' = None ->
               Inv s' (log ++ started [])).
  { intros s' Hi Hq Hp Hc. cbn [started flat_map]. rewrite app_nil_r.
    constructor; rewrite ?Hi, ?Hq, ?Hp, ?Hc; auto; try discriminate.
    intros id. split; [intros H; exfalso; exact (Hidle id H) | discriminate]. }
  unfold loop_head.
  destruct (fileQueue s) as [|id0 q] eqn:Hq; [apply Hfinish; auto|].
  rewrite <- Hq in *.
  destruct (findPending (items s) (fileQueue s)) as [p|] eqn:Hfind;
    [|apply Hfinish; auto].
  apply findPending_some in Hfind as (Hin & Hpend & Hfirst).
  specialize (Hfirst Hsorted).
  pose proof (status_of_lt _ _ Hpend) as Hlt.
  cbn [fst snd started flat_map app].
  constructor; cbn [isProcessingQueue queueItem items fileQueue].
  - reflexivity.
  - intros id. destruct (Nat.eq_dec p id) as [<-|Hne].
    + rewrite status_of_update_same by exact Hlt. tauto.
    + rewrite status_of_update_other by exact Hne. split.
      * intros H; exfalso; exact (Hidle id H).
      * intros H; inversion H; congruence.
  - exact Hsorted.
  - intros id Hid. rewrite update_item_length. apply Hbound; exact Hid.
  - intros id. rewrite in_app_iff. destruct (Nat.eq_dec p id) as [<-|Hne].
    + rewrite status_of_update_same by exact Hlt. split.
      * intros _. exists processing. split; [reflexivity | discriminate].
      * intros _. right. left. reflexivity.
    + rewrite status_of_update_other by exact Hne. rewrite <- Hstarted.
      split; [intros [H|[H|[]]]; [exact H | congruence] | auto].
  - apply StronglySorted_snoc; [exact Horder|].
    intros i Hi. apply (Hahead i p Hi Hin Hpend).
  - intros i j Hi Hj Hjp. destruct (Nat.eq_dec p j) as [<-|Hne].
    + rewrite status_of_update_same in Hjp by exact Hlt. discriminate.
    + rewrite status_of_update_other in Hjp by exact Hne.
      apply in_app_or in Hi as [Hi|[<-|[]]].
      * apply (Hahead i j Hi Hj Hjp).
      * specialize (Hfirst j Hj Hjp). lia.
  - intros id H. inversion H; subst. exists log. reflexivity.
Qed.

Lemma idle_when_not_processing s log :
  Inv s log -> isProcessingQueue s = false ->
  forall id, status_of (items s) id <> Some processing.
Proof.
  intros HI Hidle id Hid. apply (inv_current HI) in Hid.
  pose proof (inv_flag HI) as Hflag. rewrite Hid, Hidle in Hflag. discriminate.
Qed.

Lemma enqueued_inv s log files : Inv s log -> Inv (enqueued s files) log.
Proof.
  intros HI.
  pose proof HI as [Hflag Hcur Hsorted Hbound Hstarted Horder Hahead Hlast].
  assert (Hold : forall id st,
            status_of (items s ++ map new_item files) id = Some st ->
            st <> pending -> status_of (items s) id = Some st).
  { intros id st H Hst.
    destruct (Nat.lt_ge_cases id (List.length (items s))) as [Hlt|Hge].
    - rewrite status_of_app_old in H by exact Hlt. exact H.
    - apply status_of_app_new in H; [congruence | exact Hge]. }
  constructor; cbn [enqueued isProcessingQueue queueItem items fileQueue].
  - exact Hflag.
  - intros id. rewrite <- Hcur. split.
    + intros H. apply Hold; [exact H | discriminate].
    + intros H. rewrite status_of_app_old by (apply (status_of_lt _ _ H)). exact H.
  - apply StronglySorted_app_seq; assumption.
  - intros id Hid. rewrite length_app, length_map.
    apply in_app_or in Hid as [Hid|Hid].
    + specialize (Hbound id Hid). lia.
    + apply in_seq in Hid. lia.
  - intros id. rewrite Hstarted. split.
    + intros (st & Hst & Hne). exists st. split; [|exact Hne].
      rewrite status_of_app_old by (apply (status_of_lt _ _ Hst)). exact Hst.
    + intros (st & Hst & Hne). exists st. split; [|exact Hne]. apply Hold; assumption.
  - exact Horder.
  - intros i j Hi Hj Hjp. apply in_app_or in Hj as [Hj|Hj].
    + apply (Hahead i j Hi Hj).
      rewrite status_of_app_old in Hjp by (apply Hbound; exact Hj). exact Hjp.
    + apply in_seq in Hj. apply Hstarted in Hi as (st & Hst & _).
      apply status_of_lt in Hst. lia.
  - exact Hlast.
Qed.

Lemma processQueue_inv s log :
  Inv s log ->
  Inv (fst (processQueue s)) (log ++ started (snd (processQueue s))).
Proof.
  intros HI. unfold processQueue.
  destruct (isProcessingQueue s) eqn:Hproc.
  - cbn [fst snd started flat_map]. rewrite app_nil_r. exact HI.
  - apply loop_head_inv.
    pose proof (idle_when_not_processing HI Hproc) as Hidle.
    destruct HI. constructor; cbn [items fileQueue]; assumption.
Qed.

Lemma handleChecksumFileUpload_inv s log files userConfirmed :
  Inv s log ->
  Inv (fst (handleChecksumFileUpload s files userConfirmed))
      (log ++ started (snd (handleChecksumFileUpload s files userConfirmed))).
Proof.
  intros HI.
  assert (Hsame : forall eff, started eff = [] -> Inv s (log ++ started eff)).
  { intros eff ->. rewrite app_nil_r. exact HI. }
  unfold handleChecksumFileUpload.
  destruct files as [|f0 files']; [apply Hsame; reflexivity|].
  destruct (Obj.keys (parsedChecksums s)); [apply Hsame; reflexivity|].
  destruct (filesNotInList (parsedChecksums s) (f0 :: files')) as [notInList|];
    [|apply Hsame; reflexivity].
  match goal with
  | |- context [if ?c && negb userConfirmed then _ else _] =>
      destruct (c && negb userConfirmed); [apply Hsame; reflexivity|];
      generalize c; intros asks
  end.
  fold (enqueued s (f0 :: files')).
  pose proof (enqueued_inv (f0 :: files') HI) as HE.
  assert (Hskip : forall eff,
            started ((if asks then [Confirm (map name notInList)] else []) ++ eff)
            = started eff).
  { intros eff. rewrite started_app. destruct asks; reflexivity. }
  destruct (isProcessingQueue (enqueued s (f0 :: files'))) eqn:Hproc.
  - cbn [fst snd]. rewrite Hskip. cbn [started flat_map]. rewrite app_nil_r.
    exact HE.
  - pose proof (processQueue_inv HE) as HP.
    destruct (processQueue (enqueued s (f0 :: files'))) as [s' eff].
    cbn [fst snd] in *. rewrite Hskip. exact HP.
Qed.

Section QueueFacts.

Context (hashwasm sha256 : Sha256).

Lemma job_settled_inv s log e escaped :
  Inv s log ->
  Inv (fst (job_settled hashwasm sha256 s e escaped))
      (log ++ started (snd (job_settled hashwasm sha256 s e escaped))).
Proof.
  intros HI.
  assert (Hsame : Inv s (log ++ started [])).
  { cbn [started flat_map]. rewrite app_nil_r. exact HI. }
  unfold job_settled.
  destruct (queueItem s) as [id|] eqn:Hcur; [|exact Hsame].
  destruct (nth_error (items s) id) as [it|] eqn:Hit; [|exact Hsame].
  assert (Hloop : forall verified st r reported,
            st = completed \/ st = error ->
            started reported = [] ->
            let s0 := {| parsedChecksums := parsedChecksums s;
                         verifiedFiles := verified;
                         items := update_item (items s) id (set_status st r);
                         fileQueue := fileQueue s;
                         isProcessingQueue := isProcessingQueue s;
                         queueItem := queueItem s; timers := timers s |} in
            Inv (fst (loop_head s0))
                (log ++ started (reported ++ snd (loop_head s0)))).
  { intros verified st r reported Hst Hrep s0.
    rewrite started_app, Hrep. cbn [app]. apply loop_head_inv.
    pose proof HI as [Hflag Hcurrent Hsorted Hbound Hstarted Horder Hahead _].
    assert (Hproc : status_of (items s) id = Some processing)
      by (apply Hcurrent; exact Hcur).
    pose proof (status_of_lt _ _ Hproc) as Hlt.
    constructor; cbn [s0 items fileQueue].
    - intros x. destruct (Nat.eq_dec id x) as [<-|Hne].
      + rewrite status_of_update_same by exact Hlt.
        destruct Hst as [-> | ->]; discriminate.
      + rewrite status_of_update_other by exact Hne.
        intros H. apply Hcurrent in H. congruence.
    - exact Hsorted.
    - intros x Hx. rewrite update_item_length. apply Hbound; exact Hx.
    - intros x. rewrite Hstarted. destruct (Nat.eq_dec id x) as [<-|Hne].
      + rewrite status_of_update_same by exact Hlt. split.
        * intros _. exists st. split; [reflexivity|].
          destruct Hst as [-> | ->]; discriminate.
        * intros _. exists processing. split; [exact Hproc | discriminate].
      + rewrite status_of_update_other by exact Hne. tauto.
    - exact Horder.
    - intros i j Hi Hj Hjp. apply (Hahead i j Hi Hj).
      destruct (Nat.eq_dec id j) as [<-|Hne].
      + rewrite status_of_update_same in Hjp by exact Hlt.
        destruct Hst as [-> | ->]; discriminate.
      + rewrite status_of_update_other in Hjp by exact Hne. exact Hjp. }
  rewrite Hcur in Hloop.
  destruct escaped as [msg|].
  - specialize (Hloop (verifiedFiles s) error (Some msg) [] (or_intror eq_refl) eq_refl).
    cbv zeta in Hloop.
    destruct (loop_head _) as [s' eff]. exact Hloop.
  - destruct (verifyFileChecksum hashwasm sha256 (parsedChecksums s)
                (verifiedFiles s) e (file it)) as [v r].
    specialize (Hloop v completed None [Reported id r] (or_introl eq_refl) eq_refl).
    cbv zeta in Hloop.
    destruct (loop_head _) as [s' eff]. exact Hloop.
Qed.

Lemma timer_fired_inv s log :
  Inv s log -> Inv (fst (timer_fired s)) (log ++ started (snd (timer_fired s))).
Proof.
  intros HI. unfold timer_fired. destruct (timers s);
    cbn [fst snd started flat_map]; rewrite app_nil_r; [exact HI|].
  destruct HI. constructor; cbn [isProcessingQueue queueItem items fileQueue];
    try assumption.
  - constructor.
  - intros id [].
  - intros i j _ [].
Qed.

Lemma initial_inv manifest : Inv (initial manifest) [].
Proof.
  constructor; cbn [initial isProcessingQueue queueItem items fileQueue].
  - reflexivity.
  - intros id. unfold status_of. destruct id; cbn; split; discriminate.
  - constructor.
  - intros id [].
  - intros id. split; [intros [] |].
    intros (st & H & _). unfold status_of in H. destruct id; discriminate.
  - constructor.
  - intros i j [].
  - discriminate.
Qed.

Lemma reaches_inv manifest s tr :
  reaches hashwasm sha256 manifest s tr -> Inv s (started tr).
Proof.
  induction 1 as [|s tr i _ IH].
  - apply initial_inv.
  - rewrite started_app. destruct i as [files c|e escaped|]; cbn [step].
    + apply handleChecksumFileUpload_inv; exact IH.
    + apply job_settled_inv; exact IH.
    + apply timer_fired_inv; exact IH.
Qed.

End QueueFacts.

Lemma StronglySorted_app_lt l1 l2 x y :
  StronglySorted lt (l1 ++ l2) -> In x l1 -> In y l2 -> (x < y)%nat.
Proof.
  induction l1 as [|a l1 IH]; intros Hs Hx Hy; [destruct Hx|].
  cbn [app] in Hs. inversion Hs as [|? ? Hs' Hall]; subst.
  destruct Hx as [<-|Hx].
  - rewrite Forall_forall in Hall. apply Hall. apply in_or_app. right; exact Hy.
  - apply IH; assumption.
Qed.

(** An upload passes the gate when a manifest is loaded whose
    [hasOwnProperty] can be called and either a file of the batch is named
    in it or the dialog was answered with yes. *)
Lemma passed_gate_is_enqueued s files userConfirmed :
  files <> [] -> Obj.keys (parsedChecksums s) <> [] ->
  Obj.get (parsedChecksums s) (js "hasOwnProperty") = None ->
  (userConfirmed = true
   \/ exists f, In f files
                /\ Obj.hasOwnProperty (parsedChecksums s) (name f) = true) ->
  fileQueue (fst (handleChecksumFileUpload s files userConfirmed))
  = fileQueue s ++ seq (List.length (items s)) (List.length files)
  /\ map file (items (fst (handleChecksumFileUpload s files userConfirmed)))
     = map file (items s) ++ files
  /\ List.length (items (fst (handleChecksumFileUpload s files userConfirmed)))
     = (List.length (items s) + List.length files)%nat
  /\ forall id,
       (List.length (items s) <= id
        < List.length (items s) + List.length files)%nat ->
       status_of (items (fst (handleChecksumFileUpload s files userConfirmed))) id
       = Some pending
       \/ (status_of
             (items (fst (handleChecksumFileUpload s files userConfirmed))) id
           = Some processing
           /\ In (Started id)
                (snd (handleChecksumFileUpload s files userConfirmed))).
Proof.
  intros Hfiles Hkeys Hcall Hgate. unfold handleChecksumFileUpload.
  destruct files as [|f0 files']; [congruence | set (files := f0 :: files') in *].
  destruct (Obj.keys (parsedChecksums s)); [congruence|].
  rewrite (filesNotInList_answers _ files Hcall).
  set (notInList := filter _ files).
  assert (Hpass : negb (Nat.eqb (List.length notInList) 0)
                  && Nat.eqb (List.length notInList) (List.length files)
                  && negb userConfirmed = false).
  { destruct Hgate as [-> | (f & Hin & Hown)].
    - apply andb_false_r.
    - assert (Hshort : (List.length notInList < List.length files)%nat)
        by (apply (filter_shorter _ _ f Hin); rewrite Hown; reflexivity).
      apply andb_false_iff. left. apply andb_false_iff. right.
      apply Nat.eqb_neq. lia. }
  rewrite Hpass. fold (enqueued s files).
  pose proof (upload_frame s files) as Hframe. cbv zeta in Hframe.
  pose proof (enqueued_items_wait s files) as Hwait. cbv zeta in Hwait.
  destruct (if isProcessingQueue (enqueued s files) then _ else _) as [s' eff].
  cbn [fst snd] in *. destruct Hframe as (Hq & Hf & Hl).
  split; [exact Hq|]. split; [exact Hf|]. split; [exact Hl|].
  intros id Hid. destruct (Hwait id Hid) as [Hp | [Hp ->]]; [left; exact Hp|].
  right. split; [exact Hp|]. apply in_or_app. right. left. reflexivity.
Qed.

Lemma findPending_finds its q id :
  In id q -> status_of its id = Some pending ->
  exists p, findPending its q = Some p.
Proof.
  induction q as [|id0 q IH]; intros Hin Hpend; [destruct Hin|].
  cbn [findPending]. destruct Hin as [->|Hin].
  - rewrite Hpend. eauto.
  - destruct (status_of its id0) as [[| | |]|]; eauto.
Qed.

Section Scheduler.

Context (hashwasm sha256 : Sha256).

(** When the job in progress settles while items of the queue are
    pending, the first of them is started. *)
Lemma settled_starts_next s log e escaped id :
  Inv s log ->
  queueItem s <> None ->
  In id (fileQueue s) -> status_of (items s) id = Some pending ->
  exists next,
    In (Started next) (snd (step hashwasm sha256 s (Settled e escaped)))
    /\ In next (fileQueue s)
    /\ status_of (items s) next = Some pending
    /\ (next <= id)%nat.
Proof.
  intros HI Hcur Hin Hpend. cbn [step]. unfold job_settled.
  destruct (queueItem s) as [j|] eqn:Hj; [clear Hcur | congruence].
  assert (Hproc : status_of (items s) j = Some processing)
    by (apply (inv_current HI); exact Hj).
  assert (Hne : j <> id) by (intros ->; congruence).
  destruct (nth_error (items s) j) as [it|] eqn:Hit;
    [|unfold status_of in Hproc; rewrite Hit in Hproc; discriminate].
  assert (Hloop : forall verified st r reported,
            st = completed \/ st = error ->
            let s0 := {| parsedChecksums := parsedChecksums s;
                         verifiedFiles := verified;
                         items := update_item (items s) j (set_status st r);
                         fileQueue := fileQueue s;
                         isProcessingQueue := isProcessingQueue s;
                         queueItem := Some j; timers := timers s |} in
            exists next,
              In (Started next) (reported ++ snd (loop_head s0))
              /\ In next (fileQueue s)
              /\ status_of (items s) next = Some pending
              /\ (next <= id)%nat).
  { intros verified st r reported Hst s0.
    assert (Hpend' : status_of (items s0) id = Some pending).
    { cbn [s0 items]. rewrite status_of_update_other by exact Hne. exact Hpend. }
    destruct (@findPending_finds (items s0) (fileQueue s) id Hin Hpend')
      as [next Hfind].
    pose proof (findPending_some _ _ Hfind) as (Hnext & Hnp & Hfirst).
    exists next. unfold loop_head. cbn [s0 fileQueue items] in *.
    destruct (fileQueue s) as [|id0 q] eqn:Hq; [destruct Hin|].
    rewrite Hfind. cbn [snd].
    assert (Hnj : j <> next).
    { intros <-. rewrite status_of_update_same in Hnp
        by (apply (status_of_lt _ _ Hproc)).
      destruct Hst as [-> | ->]; discriminate. }
    rewrite status_of_update_other in Hnp by exact Hnj.
    split; [apply in_or_app; right; left; reflexivity|].
    split; [exact Hnext|]. split; [exact Hnp|].
    apply Hfirst.
    - rewrite <- Hq. exact (inv_sorted HI).
    - exact Hin.
    - rewrite status_of_update_other by exact Hne. exact Hpend. }
  destruct escaped as [msg|].
  - specialize (Hloop (verifiedFiles s) error (Some msg) [] (or_intror eq_refl)).
    cbv zeta in Hloop. destruct (loop_head _) as [s' eff]. exact Hloop.
  - destruct (verifyFileChecksum hashwasm sha256 (parsedChecksums s)
                (verifiedFiles s) e (file it)) as [v r].
    specialize (Hloop v completed None [Reported j r] (or_introl eq_refl)).
    cbv zeta in Hloop. destruct (loop_head _) as [s' eff]. exact Hloop.
Qed.

(** On every page reached from a loaded manifest, (1) a batch of N files
    that passes the gate adds exactly N items to the queue, one per file
    and in the order of the batch, each of them pending unless the handler
    started it at once; (2) at most one item is being
    processed; (3) the items were started in the order of their submission;
    (4) every item started before the current one is completed or failed;
    (5) whenever a handler starts an item, all items started before it come
    earlier in submission order and are completed or failed by then;
    (6) when the job in progress settles while items of the queue are
    pending, the first of them is started. *)
Theorem queue_is_sequential_and_fifo manifest s tr :
  reaches hashwasm sha256 manifest s tr ->
  (forall files userConfirmed,
     files <> [] -> Obj.keys (parsedChecksums s) <> [] ->
     Obj.get (parsedChecksums s) (js "hasOwnProperty") = None ->
     (userConfirmed = true
      \/ exists f, In f files
                   /\ Obj.hasOwnProperty (parsedChecksums s) (name f) = true) ->
     fileQueue (fst (handleChecksumFileUpload s files userConfirmed))
     = fileQueue s ++ seq (List.length (items s)) (List.length files)
     /\ map file (items (fst (handleChecksumFileUpload s files userConfirmed)))
        = map file (items s) ++ files
     /\ List.length (items (fst (handleChecksumFileUpload s files userConfirmed)))
        = (List.length (items s) + List.length files)%nat
     /\ forall id,
          (List.length (items s) <= id
           < List.length (items s) + List.length files)%nat ->
          status_of
            (items (fst (handleChecksumFileUpload s files userConfirmed))) id
          = Some pending
          \/ (status_of
                (items (fst (handleChecksumFileUpload s files userConfirmed))) id
              = Some processing
              /\ In (Started id)
                   (snd (handleChecksumFileUpload s files userConfirmed))))
  /\ (forall i j,
        status_of (items s) i = Some processing ->
        status_of (items s) j = Some processing -> i = j)
  /\ StronglySorted lt (started tr)
  /\ (forall id,
        In id (started tr) -> queueItem s <> Some id ->
        status_of (items s) id = Some completed
        \/ status_of (items s) id = Some error)
  /\ (forall i id,
        In (Started id) (snd (step hashwasm sha256 s i)) ->
        forall prev,
          In prev (started tr) ->
          (prev < id)%nat
          /\ (status_of (items (fst (step hashwasm sha256 s i))) prev
              = Some completed
              \/ status_of (items (fst (step hashwasm sha256 s i))) prev
                 = Some error))
  /\ (forall e escaped id,
        queueItem s <> None ->
        In id (fileQueue s) -> status_of (items s) id = Some pending ->
        exists next,
          In (Started next) (snd (step hashwasm sha256 s (Settled e escaped)))
          /\ In next (fileQueue s)
          /\ status_of (items s) next = Some pending
          /\ (next <= id)%nat).
Proof.
  intros Hreach.
  assert (Hdone : forall s0 tr0,
            reaches hashwasm sha256 manifest s0 tr0 ->
            forall id, In id (started tr0) -> queueItem s0 <> Some id ->
            status_of (items s0) id = Some completed
            \/ status_of (items s0) id = Some error).
  { intros s0 tr0 H0 id Hid Hcur. pose proof (reaches_inv H0) as HI.
    apply (inv_started HI) in Hid as (st & Hst & Hne).
    destruct st; auto; [congruence|].
    exfalso. apply Hcur. apply (inv_current HI). exact Hst. }
  pose proof (reaches_inv Hreach) as HI.
  split; [intros files c; apply passed_gate_is_enqueued|].
  split.
  { intros i j Hi Hj. apply (inv_current HI) in Hi, Hj. congruence. }
  split; [exact (inv_order HI)|].
  split; [apply Hdone; exact Hreach|].
  split; [|intros e escaped id Hcur Hin Hpend;
            eapply settled_starts_next; eassumption].
  intros i id Hid prev Hprev.
  pose proof (reaches_step i Hreach) as Hpost.
  pose proof (reaches_inv Hpost) as HI'.
  rewrite started_app in HI'.
  apply started_In in Hid.
  assert (Hlt : (prev < id)%nat)
    by (eapply StronglySorted_app_lt; [exact (inv_order HI') | exact Hprev | exact Hid]).
  split; [exact Hlt|].
  apply (Hdone _ _ Hpost).
  - rewrite started_app. apply in_or_app. left; exact Hprev.
  - intros Hcur. apply (inv_last HI') in Hcur as (l & Hl).
    pose proof (inv_order HI') as Hsorted. rewrite Hl in Hsorted.
    assert (Hin : In id (l ++ [prev]))
      by (rewrite <- Hl; apply in_or_app; right; exact Hid).
    apply in_app_or in Hin as [Hin|[Heq|[]]]; [|lia].
    pose proof (@StronglySorted_app_lt l [prev] id prev Hsorted Hin
                  (or_introl eq_refl)). lia.
Qed.

End Scheduler.

(** ** Items that left the queue *)

(** The head of the loop starts an item of the array, if any. *)
Lemma loop_head_keeps_out s id :
  status_of (items s) id = Some pending -> ~ In id (fileQueue s) ->
  status_of (items (fst (loop_head s))) id = Some pending
  /\ fileQueue (fst (loop_head s)) = fileQueue s
  /\ ~ In (Started id) (snd (loop_head s)).
Proof.
  intros Hpend Hout. unfold loop_head.
  destruct (fileQueue s) as [|id0 q] eqn:Hq;
    [cbn [fst snd items fileQueue]; rewrite ?Hq; auto|].
  destruct (findPending (items s) (id0 :: q)) as [p|] eqn:Hfind;
    [|cbn [fst snd items fileQueue]; rewrite ?Hq; auto].
  apply findPending_some in Hfind as (Hin & _ & _).
  assert (Hne : p <> id) by (intros ->; exact (Hout Hin)).
  cbn [fst snd items fileQueue].
  rewrite status_of_update_other by exact Hne.
  split; [exact Hpend|]. split; [rewrite ?Hq; reflexivity|].
  intros [H|[]]. inversion H. congruence.
Qed.

Section Discarded.

Context (hashwasm sha256 : Sha256).

(** One event leaves a pending item that is not in the array where it
    is. *)
Lemma step_keeps_out s log i id :
  Inv s log ->
  status_of (items s) id = Some pending -> ~ In id (fileQueue s) ->
  status_of (items (fst (step hashwasm sha256 s i))) id = Some pending
  /\ ~ In id (fileQueue (fst (step hashwasm sha256 s i)))
  /\ ~ In (Started id) (snd (step hashwasm sha256 s i)).
Proof.
  intros HI Hpend Hout.
  assert (Hsame : forall eff : list effect,
            (forall x, In x eff -> x <> Started id) ->
            status_of (items s) id = Some pending
            /\ ~ In id (fileQueue s) /\ ~ In (Started id) eff).
  { intros eff Heff. split; [exact Hpend|]. split; [exact Hout|].
    intros Hin. exact (Heff _ Hin eq_refl). }
  pose proof (status_of_lt _ _ Hpend) as Hlt.
  destruct i as [files userConfirmed | e escaped |]; cbn [step].
  - unfold handleChecksumFileUpload.
    destruct files as [|f0 files']; [apply Hsame; intros x []|].
    destruct (Obj.keys (parsedChecksums s));
      [apply Hsame; intros x [<-|[]]; discriminate|].
    destruct (filesNotInList _ _) as [notInList|];
      [|apply Hsame; intros x [<-|[]]; discriminate].
    match goal with
    | |- context [if ?c && negb userConfirmed then _ else _] =>
        destruct (c && negb userConfirmed);
          [apply Hsame; intros x [<-|[]]; discriminate|];
        generalize c; intros asks
    end.
    fold (enqueued s (f0 :: files')).
    assert (Hpend' : status_of (items (enqueued s (f0 :: files'))) id
                     = Some pending).
    { cbn [enqueued items]. rewrite status_of_app_old by exact Hlt. exact Hpend. }
    assert (Hout' : ~ In id (fileQueue (enqueued s (f0 :: files')))).
    { cbn [enqueued fileQueue]. intros Hin. apply in_app_or in Hin as [Hin|Hin];
        [exact (Hout Hin)|]. apply in_seq in Hin. lia. }
    assert (Hdialog : forall eff,
              ~ In (Started id) eff ->
              ~ In (Started id)
                  ((if asks then [Confirm (map name notInList)] else []) ++ eff)).
    { intros eff Heff Hin. apply in_app_or in Hin as [Hin|Hin]; [|exact (Heff Hin)].
      destruct asks; [destruct Hin as [Hin|[]]; discriminate | destruct Hin]. }
    destruct (isProcessingQueue (enqueued s (f0 :: files'))) eqn:Hproc.
    + cbn [fst snd]. split; [exact Hpend'|]. split; [exact Hout'|].
      apply Hdialog. intros [].
    + unfold processQueue. rewrite Hproc.
      match goal with
      | |- context [loop_head ?x] =>
          destruct (@loop_head_keeps_out x id Hpend' Hout') as (H1 & H2 & H3);
          destruct (loop_head x) as [s' eff]
      end.
      cbn [fst snd] in *. split; [exact H1|]. split; [|apply Hdialog; exact H3].
      rewrite H2. exact Hout'.
  - unfold job_settled.
    destruct (queueItem s) as [j|] eqn:Hcur; [|apply Hsame; intros x []].
    destruct (nth_error (items s) j) as [it|] eqn:Hit; [|apply Hsame; intros x []].
    assert (Hne : j <> id).
    { intros ->. apply (inv_current HI) in Hcur. congruence. }
    assert (Hloop : forall verified st r reported,
              (forall x, In x reported -> x <> Started id) ->
              let s0 := {| parsedChecksums := parsedChecksums s;
                           verifiedFiles := verified;
                           items := update_item (items s) j (set_status st r);
                           fileQueue := fileQueue s;
                           isProcessingQueue := isProcessingQueue s;
                           queueItem := queueItem s; timers := timers s |} in
              status_of (items (fst (loop_head s0))) id = Some pending
              /\ ~ In id (fileQueue (fst (loop_head s0)))
              /\ ~ In (Started id) (reported ++ snd (loop_head s0))).
    { intros verified st r reported Hrep s0.
      destruct (@loop_head_keeps_out s0 id) as (H1 & H2 & H3).
      - cbn [s0 items]. rewrite status_of_update_other by exact Hne. exact Hpend.
      - exact Hout.
      - split; [exact H1|]. split; [rewrite H2; exact Hout|].
        intros Hin. apply in_app_or in Hin as [Hin|Hin];
          [exact (Hrep _ Hin eq_refl) | exact (H3 Hin)]. }
    rewrite Hcur in Hloop.
    destruct escaped as [msg|].
    + specialize (Hloop (verifiedFiles s) error (Some msg) []).
      cbv zeta in Hloop. destruct (loop_head _) as [s' eff].
      apply Hloop. intros x [].
    + destruct (verifyFileChecksum hashwasm sha256 (parsedChecksums s)
                  (verifiedFiles s) e (file it)) as [v r].
      specialize (Hloop v completed None [Reported j r]).
      cbv zeta in Hloop. destruct (loop_head _) as [s' eff].
      apply Hloop. intros x [<-|[]]. discriminate.
  - unfold timer_fired. destruct (timers s); [apply Hsame; intros x []|].
    cbn [fst snd items fileQueue]. split; [exact Hpend|]. split; intros [].
Qed.

Lemma run_from_reaches manifest s tr inputs :
  reaches hashwasm sha256 manifest s tr ->
  reaches hashwasm sha256 manifest (fst (run_from hashwasm sha256 s inputs))
    (tr ++ snd (run_from hashwasm sha256 s inputs)).
Proof.
  revert s tr. induction inputs as [|i rest IH]; intros s tr Hreach;
    cbn [run_from fst snd].
  - rewrite app_nil_r. exact Hreach.
  - rewrite app_assoc. apply IH. apply reaches_step. exact Hreach.
Qed.

Lemma run_from_app s a b :
  run_from hashwasm sha256 s (a ++ b)
  = (fst (run_from hashwasm sha256 (fst (run_from hashwasm sha256 s a)) b),
     snd (run_from hashwasm sha256 s a)
     ++ snd (run_from hashwasm sha256 (fst (run_from hashwasm sha256 s a)) b)).
Proof.
  revert s. induction a as [|i a IH]; intros s; cbn [app run_from fst snd].
  - destruct (run_from hashwasm sha256 s b); reflexivity.
  - rewrite IH. cbn [fst snd]. rewrite app_assoc. reflexivity.
Qed.

(** A pending item that is no longer in the array stays pending, out of
    the array and unstarted, whatever happens to the page. *)
Lemma out_of_queue_for_good manifest s tr id later :
  reaches hashwasm sha256 manifest s tr ->
  status_of (items s) id = Some pending -> ~ In id (fileQueue s) ->
  status_of (items (fst (run_from hashwasm sha256 s later))) id = Some pending
  /\ ~ In id (fileQueue (fst (run_from hashwasm sha256 s later)))
  /\ ~ In (Started id) (snd (run_from hashwasm sha256 s later)).
Proof.
  revert s tr. induction later as [|i rest IH]; intros s tr Hreach Hpend Hout;
    cbn [run_from fst snd].
  - split; [exact Hpend|]. split; [exact Hout | intros []].
  - destruct (@step_keeps_out s (started tr) i id (reaches_inv Hreach) Hpend Hout)
      as (H1 & H2 & H3).
    destruct (IH _ _ (reaches_step i Hreach) H1 H2) as (H4 & H5 & H6).
    split; [exact H4|]. split; [exact H5|].
    intros Hin. apply in_app_or in Hin as [Hin|Hin]; [exact (H3 Hin) | exact (H6 Hin)].
Qed.

(** When the timer armed at the end of a run fires, the whole array is
    replaced by an empty one; every item that was pending then, the items
    of a later batch included, stays pending for good: whatever is
    uploaded, settles or times out afterwards, it is never handed to
    [verifyFileChecksum]. *)
Theorem timer_discards_pending_items manifest s tr id later :
  reaches hashwasm sha256 manifest s tr ->
  timers s <> 0%nat ->
  status_of (items s) id = Some pending ->
  fileQueue (fst (timer_fired s)) = []
  /\ items (fst (timer_fired s)) = items s
  /\ status_of
       (items (fst (run_from hashwasm sha256 (fst (timer_fired s)) later))) id
     = Some pending
  /\ ~ In (Started id)
         (snd (run_from hashwasm sha256 (fst (timer_fired s)) later)).
Proof.
  intros Hreach Htimers Hpend.
  pose proof (reaches_step Timer Hreach) as Hfired. cbn [step] in Hfired.
  assert (Hq : fileQueue (fst (timer_fired s)) = []
               /\ items (fst (timer_fired s)) = items s).
  { unfold timer_fired. destruct (timers s); [congruence|]. split; reflexivity. }
  destruct Hq as [Hq Hitems]. split; [exact Hq|]. split; [exact Hitems|].
  destruct (@out_of_queue_for_good manifest (fst (timer_fired s)) _ id later Hfired)
    as (H1 & _ & H3).
  - rewrite Hitems. exact Hpend.
  - rewrite Hq. intros [].
  - split; assumption.
Qed.

End Discarded.

(** C7: a run on which a queued job is never processed.  [a.iso] is
    uploaded and verified, which arms the timer; [a.iso] and [b.iso] are
    uploaded next, [b.iso] becoming the pending item 2 of the queue; the
    timer fires while [a.iso] is hashed.  From then on, whatever happens
    to the page, item 2 stays pending and is never handed to
    [verifyFileChecksum]. *)
Theorem queued_job_is_never_processed (later : list input) :
  let run :=
    run_from Reference.sha256_reference Reference.sha256_reference
      (initial abc_manifest) in
  fileQueue (fst (run (firstn 3 timer_run))) = [0; 1; 2]%nat
  /\ map file (items (fst (run (firstn 3 timer_run)))) = [a_iso; a_iso; b_iso]
  /\ map item_status (items (fst (run (firstn 3 timer_run))))
     = [completed; processing; pending]
  /\ fileQueue (fst (run (firstn 4 timer_run))) = []
  /\ status_of (items (fst (run (firstn 4 timer_run ++ later)))) 2
     = Some pending
  /\ ~ In (Started 2) (snd (run (firstn 4 timer_run ++ later))).
Proof.
  intros run.
  split; [vm_compute; reflexivity|]. split; [vm_compute; reflexivity|].
  split; [vm_compute; reflexivity|]. split; [vm_compute; reflexivity|].
  unfold run.
  rewrite (@run_from_app Reference.sha256_reference Reference.sha256_reference).
  cbn [fst snd].
  set (dropped := fst (run_from Reference.sha256_reference
                         Reference.sha256_reference (initial abc_manifest)
                         (firstn 4 timer_run))).
  pose proof (@run_from_reaches Reference.sha256_reference
                Reference.sha256_reference abc_manifest (initial abc_manifest) []
                (firstn 4 timer_run)
                (reaches_initial Reference.sha256_reference
                   Reference.sha256_reference abc_manifest)) as Hreach.
  fold dropped in Hreach.
  destruct (@out_of_queue_for_good Reference.sha256_reference
              Reference.sha256_reference abc_manifest dropped _ 2%nat later Hreach)
    as (H1 & _ & H3).
  - vm_compute. reflexivity.
  - vm_compute. intros [].
  - split; [exact H1|]. intros Hin. apply in_app_or in Hin as [Hin|Hin];
      [|exact (H3 Hin)].
    vm_compute in Hin. repeat (destruct Hin as [Hin|Hin]; [discriminate|]).
    exact Hin.
Qed.


Example two_files_uploaded_status :
  map item_status (items (fst two_files_uploaded)) = [processing; pending]
  /\ snd two_files_uploaded = [Started 0].
Proof. vm_compute. split; reflexivity. Qed.

Example first_job_settled_status :
  map item_status (items (fst first_job_settled)) = [completed; processing]
  /\ snd first_job_settled
     = [Reported 0 (CHECKSUM_VERIFIED (js "a.iso") SHA_256 sha256_of_abc);
        Started 1]
  /\ verifiedFiles (fst first_job_settled) = [js "a.iso"].
Proof. vm_compute. repeat split; reflexivity. Qed.

Lemma queue_is_sequential_and_fifo_witness :
  (forall i j,
     status_of (items (fst first_job_settled)) i = Some processing ->
     status_of (items (fst first_job_settled)) j = Some processing -> i = j)
  /\ StronglySorted lt
       (started (([] ++ snd two_files_uploaded) ++ snd first_job_settled)).
Proof.
  destruct (@queue_is_sequential_and_fifo Reference.sha256_reference
              Reference.sha256_reference abc_manifest
              (fst first_job_settled)
              (([] ++ snd two_files_uploaded) ++ snd first_job_settled))
    as (_ & Hone & Hfifo & _).
  - unfold first_job_settled. apply reaches_step.
    unfold two_files_uploaded. apply reaches_step. apply reaches_initial.
  - split; [exact Hone | exact Hfifo].
Defined.

(** ** The flag while the verified stream is drained *)

Lemma drain_sees_flag k rest ending :
  forall t n consumedBytes lastProgressUpdate log,
    t = S n -> (n <= k)%nat -> (k <= n + List.length rest)%nat ->
    forallb is_progress log = true ->
    exists log',
      drain (set_while_waiting k) t n consumedBytes lastProgressUpdate log
        rest ending
      = (returned k, log')
      /\ forallb is_progress log' = true.
Proof.
  induction rest as [|len rest IH]; intros t n cb lp log Ht Hn Hk Hlog; subst t.
  - assert (k = n) by (cbn [List.length] in Hk; lia). subst k.
    exists log. split; [|exact Hlog].
    cbn [drain]. unfold set_while_waiting.
    rewrite (proj2 (Nat.ltb_lt n (S n))) by lia. reflexivity.
  - cbn [drain]. unfold set_while_waiting at 1.
    destruct (Nat.ltb k (S n)) eqn:Hflag.
    + apply Nat.ltb_lt in Hflag. assert (k = n) by lia. subst k.
      exists log. split; [reflexivity | exact Hlog].
    + apply Nat.ltb_ge in Hflag. cbn [List.length] in Hk.
      destruct (N.leb _ _); apply IH; try reflexivity; try lia; try exact Hlog.
      rewrite forallb_app, Hlog. reflexivity.
Qed.

(** When [stopVerification] runs before the stream of
    [verificationResult.data] is exhausted, the loop that drains it sees
    the flag at the next chunk boundary and the run returns there, with
    nothing displayed but progress. *)
Lemma set_flag_ends_the_drain c k lens ending verifiedDataContent :
  verify_throws c = false ->
  data c = ReadableStream lens ending ->
  (k <= List.length lens)%nat ->
  fst (verify_detached (set_while_waiting k) c verifiedDataContent)
  = cancelled_in_drain k
  /\ forallb is_progress
       (snd (verify_detached (set_while_waiting k) c verifiedDataContent))
     = true.
Proof.
  intros Hverify Hdata Hk. unfold verify_detached. rewrite Hverify, Hdata.
  destruct (@drain_sees_flag k lens ending 1%nat 0%nat 0%N 0%N [showProgress 10])
    as (log' & Hdrain & Hquiet); try reflexivity; try lia.
  rewrite Hdrain. cbn [fst snd]. split; [reflexivity | exact Hquiet].
Qed.

(** [stopVerification], were it run while the second chunk is read, would
    end the run there, in silence; on a page left alone the same run ends
    in the error display. *)
Example flag_set_in_drain :
  verify_detached (set_while_waiting 1) three_chunks None
  = (cancelled_in_drain 1, [showProgress 10])
  /\ verify_detached never_set three_chunks None
     = (caught,
        [showProgress 10; showProgress 95; showProgress 97; showError;
         hideProgress; hideProgressLater]).
Proof. split; vm_compute; reflexivity. Qed.

(** The branch depends on the flag through the values read only. *)
Lemma drain_ext (f g : nat -> bool) rest ending :
  (forall t, f t = g t) ->
  forall t n consumedBytes lastProgressUpdate log,
    drain f t n consumedBytes lastProgressUpdate log rest ending
    = drain g t n consumedBytes lastProgressUpdate log rest ending.
Proof.
  intros Hfg. induction rest as [|len rest IH]; intros t n cb lp log;
    cbn [drain]; rewrite Hfg; [reflexivity|].
  rewrite !IH. reflexivity.
Qed.

Lemma verify_detached_ext (f g : nat -> bool) c verifiedDataContent :
  (forall t, f t = g t) ->
  verify_detached f c verifiedDataContent = verify_detached g c verifiedDataContent.
Proof.
  intros Hfg. unfold verify_detached, outer_catch.
  destruct (verify_throws c); [rewrite Hfg; reflexivity|].
  assert (Hdrain : forall lens ending,
            drain f 1 0 0 0 [showProgress 10] lens ending
            = drain g 1 0 0 0 [showProgress 10] lens ending)
    by (intros; apply drain_ext; exact Hfg).
  destruct (data c) as [lens ending| len | |]; rewrite ?Hdrain;
    match goal with
    | |- context [drain g ?a ?b ?c ?d ?e ?l ?x] =>
        destruct (drain g a b c d e l x) as [[n|t|t] log']
    | _ => idtac
    end; rewrite ?Hfg; reflexivity.
Qed.

(** While the flag stays clear the loop never returns: the stream is
    drained to its end or to its failure. *)
Lemma drain_unflagged rest ending :
  forall t n consumedBytes lastProgressUpdate log,
    forall k, fst (drain never_set t n consumedBytes lastProgressUpdate log
                     rest ending) <> returned k.
Proof.
  induction rest as [|len rest IH]; intros t n cb lp log k; cbn [drain never_set].
  - destruct ending; cbn [fst]; discriminate.
  - destruct (N.leb _ _); apply IH.
Qed.

Lemma drain_fails rest :
  forall t n consumedBytes lastProgressUpdate log,
  exists t' log',
    drain never_set t n consumedBytes lastProgressUpdate log rest fails
    = (threw t', log').
Proof.
  induction rest as [|len rest IH]; intros t n cb lp log; cbn [drain never_set].
  - eauto.
  - destruct (N.leb _ _); apply IH.
Qed.

(** With the flag clear the run ends in one of two ways: the success
    display, or the error display of the outer [catch]. *)
Lemma unflagged_run_is_not_silent c verifiedDataContent :
  (forall n, fst (verify_detached never_set c verifiedDataContent)
             <> cancelled_in_drain n)
  /\ (verify_throws c = true \/ verified_rejects c = true
      \/ (exists lens, data c = ReadableStream lens fails) ->
      fst (verify_detached never_set c verifiedDataContent) = caught
      /\ In showError (snd (verify_detached never_set c verifiedDataContent)))
  /\ (fst (verify_detached never_set c verifiedDataContent) = ran_to_end ->
      In (showSuccess verifiedDataContent)
        (snd (verify_detached never_set c verifiedDataContent))).
Proof.
  unfold verify_detached, outer_catch. cbn [never_set].
  assert (Herr : forall log : list shown,
            In showError (log ++ [showError; hideProgress; hideProgressLater])).
  { intros log. apply in_or_app. right. left. reflexivity. }
  destruct (verify_throws c) eqn:Hthrows.
  { cbn [fst snd]. split; [discriminate|]. split; [auto | discriminate]. }
  assert (Hfinished : forall log' : list shown,
            let r := if verified_rejects c
                     then (caught, (log' ++ [showProgress 97])
                                   ++ [showError; hideProgress; hideProgressLater])
                     else (ran_to_end,
                           (log' ++ [showProgress 97])
                           ++ [showProgress 90; showProgress 100;
                               showSuccess verifiedDataContent]
                           ++ [hideProgressLater]) in
            (forall n, fst r <> cancelled_in_drain n)
            /\ (verified_rejects c = true -> fst r = caught /\ In showError (snd r))
            /\ (fst r = ran_to_end -> In (showSuccess verifiedDataContent) (snd r))).
  { intros log' r. unfold r. destruct (verified_rejects c); cbn [fst snd].
    - split; [discriminate|]. split; [auto | discriminate].
    - split; [discriminate|]. split; [discriminate|]. intros _.
      apply in_or_app. right. right. right. left. reflexivity. }
  destruct (data c) as [lens ending| len | |] eqn:Hdata.
  - pose proof (@drain_unflagged lens ending 1%nat 0%nat 0%N 0%N [showProgress 10])
      as Hnot.
    assert (Hfail : ending = fails ->
              exists t log', drain never_set 1 0 0 0 [showProgress 10] lens ending
                             = (threw t, log')).
    { intros ->. apply drain_fails. }
    destruct (drain never_set 1 0 0 0 [showProgress 10] lens ending)
      as [[n|t|t] log'] eqn:Hdrain.
    + exfalso. apply (Hnot n). reflexivity.
    + destruct (Hfinished log') as (H1 & H2 & H3). cbv zeta in *.
      split; [exact H1|]. split; [|exact H3].
      intros [H|[H|(lens' & H)]]; [discriminate | exact (H2 H) |].
      inversion H; subst. destruct (Hfail eq_refl) as (t' & l' & E). discriminate.
    + cbn [fst snd]. split; [discriminate|]. split; [auto | discriminate].
  - destruct (Hfinished ([showProgress 10] ++ [showProgress 90]))
      as (H1 & H2 & H3). cbv zeta in *.
    split; [exact H1|]. split; [|exact H3].
    intros [H|[H|(lens' & H)]]; [discriminate | exact (H2 H) | discriminate].
  - destruct (Hfinished [showProgress 10]) as (H1 & H2 & H3).
    cbv zeta in *. split; [exact H1|]. split; [|exact H3].
    intros [H|[H|(lens' & H)]]; [discriminate | exact (H2 H) | discriminate].
  - destruct (Hfinished [showProgress 10]) as (H1 & H2 & H3).
    cbv zeta in *. split; [exact H1|]. split; [|exact H3].
    intros [H|[H|(lens' & H)]]; [discriminate | exact (H2 H) | discriminate].
Qed.

(** ** Further facts about uploads, progress and cancelled jobs *)

(** Without a loaded manifest an upload changes nothing and shows the NO
    CHECKSUMS LOADED panel. *)
Theorem upload_without_manifest_is_rejected s files userConfirmed :
  files <> [] -> Obj.keys (parsedChecksums s) = [] ->
  handleChecksumFileUpload s files userConfirmed = (s, [NoChecksumsLoaded]).
Proof.
  intros Hfiles Hkeys. unfold handleChecksumFileUpload.
  destruct files; [congruence|]. rewrite Hkeys. reflexivity.
Qed.

Lemma upload_without_manifest_is_rejected_witness :
  handleChecksumFileUpload (initial []) [a_iso] true
  = (initial [], [NoChecksumsLoaded]).
Proof.
  apply (@upload_without_manifest_is_rejected (initial []) [a_iso] true).
  - discriminate.
  - reflexivity.
Defined.

Section ProgressFacts.

Context (hashwasm sha256 : Sha256).

Lemma ends_complete_app pre log : ends_complete log -> ends_complete (pre ++ log).
Proof.
  intros (pre' & p & ->). exists (pre ++ pre'), p. apply app_assoc.
Qed.

Lemma file_stream_loop_complete e rest :
  forall hash p l t log h t' log',
    file_stream_loop sha256 e hash p l t log rest = (Digest h, t', log') ->
    ends_complete log'.
Proof.
  induction rest as [|c rest IH]; intros hash p l t log h t' log';
    cbn [file_stream_loop];
    destruct (Hashing.verificationAborted e t); try discriminate.
  - intros H; inversion H. exists log, p. reflexivity.
  - destruct (N.leb _ _); intros H; apply IH in H; exact H.
Qed.

Lemma wasm_stream_loop_complete e rest :
  forall hash p l t log h t' log',
    wasm_stream_loop hashwasm e hash p l t log rest = (Digest h, t', log') ->
    ends_complete log'.
Proof.
  induction rest as [|c rest IH]; intros hash p l t log h t' log';
    cbn [wasm_stream_loop].
  - intros H; inversion H. exists log, p. reflexivity.
  - destruct (N.leb _ _).
    + destruct (Hashing.verificationAborted e (S t)); [discriminate|].
      intros H; apply IH in H; exact H.
    + intros H; apply IH in H; exact H.
Qed.

Lemma chunked_loop_complete (S256 : Sha256) e file cs todo :
  forall hash i p t log h t' log',
    chunked_loop S256 e file cs hash i p t log todo = (Digest h, t', log') ->
    ends_complete log'.
Proof.
  induction todo as [|todo IH]; intros hash i p t log h t' log';
    cbn [chunked_loop].
  - intros H; inversion H. exists log, p. reflexivity.
  - destruct (Hashing.verificationAborted e t); [discriminate|].
    intros H; apply IH in H; exact H.
Qed.

(** Whatever backend ran, the last progress call of a run that returns a
    digest is the one with 100. *)
Theorem final_progress_on_success e file h t log :
  calculateFileHash hashwasm sha256 e file = (Digest h, t, log) ->
  exists pre processedBytes, log = pre ++ [Complete processedBytes].
Proof.
  unfold calculateFileHash, calculateHashWASM, calculateHashWithFileStream,
    calculateHashStreaming.
  destruct (has_hashwasm e).
  - destruct (has_stream e).
    + destruct (wasm_stream_loop _ _ _ _ _ _ _ _) as [[[h1|err1] t1] log1] eqn:Hloop.
      * intros H; inversion H; subst.
        apply (wasm_stream_loop_complete _ _ _ _ _ _ _ Hloop).
      * destruct (has_sha256 e); cbn [negb]; [|discriminate].
        destruct (file_stream_loop _ _ _ _ _ _ _ _) as [[r2 t2] log2] eqn:H2.
        intros H; inversion H; subst. apply ends_complete_app.
        apply (file_stream_loop_complete _ _ _ _ _ _ _ H2).
    + destruct (chunked_loop _ _ _ _ _ _ _ _ _ _) as [[[h1|err1] t1] log1] eqn:Hloop.
      * intros H; inversion H; subst.
        apply (chunked_loop_complete _ _ _ _ _ _ _ _ _ _ Hloop).
      * destruct (has_sha256 e); cbn [negb]; [|discriminate].
        destruct (chunked_loop sha256 _ _ _ _ _ _ _ _ _) as [[r2 t2] log2] eqn:H2.
        intros H; inversion H; subst. apply ends_complete_app.
        apply (chunked_loop_complete _ _ _ _ _ _ _ _ _ _ H2).
  - destruct (has_stream e); destruct (has_sha256 e); cbn [negb];
      try discriminate.
    + apply file_stream_loop_complete.
    + apply chunked_loop_complete.
Qed.

End ProgressFacts.

Lemma final_progress_on_success_witness :
  exists pre processedBytes, [Complete 3] = pre ++ [Complete processedBytes].
Proof.
  apply (@final_progress_on_success Reference.sha256_reference
           Reference.sha256_reference (page None) a_iso sha256_of_abc 4).
  vm_compute. reflexivity.
Defined.

Lemma loop_head_keeps_status s id st :
  status_of (items s) id = Some st -> st <> pending ->
  status_of (items (fst (loop_head s))) id = Some st.
Proof.
  intros Hst Hne. unfold loop_head.
  destruct (fileQueue s) as [|id0 q]; [exact Hst|].
  destruct (findPending (items s) (id0 :: q)) as [p|] eqn:Hfind; [|exact Hst].
  apply findPending_some in Hfind as (_ & Hp & _).
  cbn [fst items]. rewrite status_of_update_other; [exact Hst|].
  intros ->. congruence.
Qed.

Section CancelledJobs.

Context (hashwasm sha256 : Sha256).

(** A job whose hashing run was stopped is not marked as failed: the item
    ends completed, the verified set is untouched and, a manifest being
    loaded, the result panel stays hidden. *)
Theorem stopped_job_is_not_an_error s e id it t log :
  queueItem s = Some id ->
  nth_error (items s) id = Some it ->
  Obj.values (parsedChecksums s) <> [] ->
  calculateFileHash hashwasm sha256 e (file it) = (Thrown StoppedByUser, t, log) ->
  status_of (items (fst (job_settled hashwasm sha256 s e None))) id
  = Some completed
  /\ verifiedFiles (fst (job_settled hashwasm sha256 s e None)) = verifiedFiles s
  /\ exists rest,
       snd (job_settled hashwasm sha256 s e None) = Reported id hidden :: rest.
Proof.
  intros Hcur Hit Hvals Hcalc. unfold job_settled. rewrite Hcur, Hit.
  assert (Hverify : verifyFileChecksum hashwasm sha256 (parsedChecksums s)
                      (verifiedFiles s) e (file it)
                    = (verifiedFiles s, hidden)).
  { unfold verifyFileChecksum.
    destruct (Obj.values (parsedChecksums s)); [congruence|].
    rewrite Hcalc.
    destruct (calculateFileHash_thrown _ _ _ _ Hcalc) as [Hflag|[Herr _]];
      [|discriminate].
    rewrite Hflag. reflexivity. }
  rewrite Hverify.
  match goal with
  | |- context [loop_head ?s0] =>
      pose proof (@loop_head_keeps_status s0 id completed) as Hkeep;
      assert (Hv : verifiedFiles (fst (loop_head s0)) = verifiedFiles s)
        by (unfold loop_head; cbn [fileQueue items];
            destruct (fileQueue s);
            [|destruct (findPending _ _)]; reflexivity);
      destruct (loop_head s0) as [s' eff]
  end.
  cbn [fst snd items] in *.
  split; [|split; [exact Hv | exists eff; reflexivity]].
  apply Hkeep; [|discriminate].
  apply status_of_update_same. apply nth_error_Some. congruence.
Qed.

End CancelledJobs.

Lemma stopped_job_is_not_an_error_witness :
  status_of
    (items (fst (job_settled Reference.sha256_reference
                   Reference.sha256_reference (fst one_file_uploaded)
                   (page_without_wasm (Some 0%nat)) None))) 0
  = Some completed
  /\ verifiedFiles
       (fst (job_settled Reference.sha256_reference
               Reference.sha256_reference (fst one_file_uploaded)
               (page_without_wasm (Some 0%nat)) None))
     = verifiedFiles (fst one_file_uploaded)
  /\ exists rest,
       snd (job_settled Reference.sha256_reference
              Reference.sha256_reference (fst one_file_uploaded)
              (page_without_wasm (Some 0%nat)) None)
       = Reported 0 hidden :: rest.
Proof.
  apply (@stopped_job_is_not_an_error Reference.sha256_reference
           Reference.sha256_reference (fst one_file_uploaded)
           (page_without_wasm (Some 0%nat)) 0
           {| file := a_iso; item_status := processing; result := None |}
           1 []).
  - vm_compute; reflexivity.
  - vm_compute; reflexivity.
  - vm_compute; discriminate.
  - vm_compute; reflexivity.
Defined.

Example timer_run_drops_b_iso :
  started (snd (run_inputs (initial abc_manifest) timer_run)) = [0; 1]%nat
  /\ map item_status (items (fst (run_inputs (initial abc_manifest) timer_run)))
     = [completed; completed; pending]
  /\ fileQueue (fst (run_inputs (initial abc_manifest) timer_run)) = []
  /\ isProcessingQueue (fst (run_inputs (initial abc_manifest) timer_run)) = false.
Proof. vm_compute. repeat split; reflexivity. Qed.

Lemma timer_discards_pending_items_witness :
  fileQueue (fst (timer_fired (fst (run_inputs (initial abc_manifest)
                                      (firstn 3 timer_run))))) = []
  /\ items (fst (timer_fired (fst (run_inputs (initial abc_manifest)
                                     (firstn 3 timer_run)))))
     = items (fst (run_inputs (initial abc_manifest) (firstn 3 timer_run)))
  /\ status_of
       (items (fst (run_from Reference.sha256_reference
                      Reference.sha256_reference
                      (fst (timer_fired (fst (run_inputs (initial abc_manifest)
                                                (firstn 3 timer_run)))))
                      [Settled (page None) None; Upload [b_iso] true]))) 2
     = Some pending
  /\ ~ In (Started 2)
         (snd (run_from Reference.sha256_reference Reference.sha256_reference
                 (fst (timer_fired (fst (run_inputs (initial abc_manifest)
                                           (firstn 3 timer_run)))))
                 [Settled (page None) None; Upload [b_iso] true])).
Proof.
  apply (@timer_discards_pending_items Reference.sha256_reference
           Reference.sha256_reference abc_manifest
           (fst (run_inputs (initial abc_manifest) (firstn 3 timer_run)))
           (snd (run_from Reference.sha256_reference Reference.sha256_reference
                   (initial abc_manifest) (firstn 3 timer_run)))
           2%nat [Settled (page None) None; Upload [b_iso] true]).
  - change (fst (run_inputs (initial abc_manifest) (firstn 3 timer_run)))
      with (fst (run_from Reference.sha256_reference Reference.sha256_reference
                   (initial abc_manifest) (firstn 3 timer_run))).
    apply (@run_from_reaches Reference.sha256_reference
             Reference.sha256_reference abc_manifest (initial abc_manifest) []
             (firstn 3 timer_run)).
    apply reaches_initial.
  - vm_compute. discriminate.
  - vm_compute. reflexivity.
Defined.

(** ** The backends read the same bytes *)

Lemma concat_slices (f : File) (cs : N) (todo : nat) :
  forall i : N,
    (size f <= (i + N.of_nat todo) * cs)%N ->
    concat (slices f cs i todo) = skipn (N.to_nat (i * cs)) (content f).
Proof.
  unfold size. induction todo as [|todo IH]; intros i Hcover; cbn [slices concat].
  - rewrite skipn_all2; [reflexivity|]. lia.
  - rewrite IH by lia. unfold slice, size.
    set (l := content f) in *.
    replace (N.to_nat ((i + 1) * cs)) with (N.to_nat cs + N.to_nat (i * cs))%nat
      by lia.
    rewrite <- skipn_skipn.
    set (l' := skipn (N.to_nat (i * cs)) l).
    assert (Hlen : List.length l' = (List.length l - N.to_nat (i * cs))%nat)
      by apply length_skipn.
    replace (N.to_nat (N.min (i * cs + cs) (N.of_nat (List.length l)) - i * cs))
      with (Nat.min (List.length l') (N.to_nat cs)) by lia.
    rewrite firstn_min_length. apply firstn_skipn.
Qed.

Lemma chunk_count_covers (f : File) (cs : N) :
  (0 < cs)%N -> (size f <= (0 + N.of_nat (chunk_count f cs)) * cs)%N.
Proof.
  intros Hcs. unfold chunk_count. rewrite N2Nat.id, N.add_0_l.
  pose proof (N.div_mod (size f + cs - 1) cs ltac:(lia)) as Hdiv.
  pose proof (N.mod_lt (size f + cs - 1) cs ltac:(lia)) as Hmod.
  nia.
Qed.

Section BackendIndependence.

Context (hashwasm sha256 : Sha256).

(** Both libraries compute one function of the bytes they were fed, however
    the bytes were cut into chunks. *)
Variable digest_of : list byte -> jsstring.
Hypothesis hashwasm_digest :
  forall l : list chunk,
    hex (fold_left update l (@create hashwasm)) = digest_of (concat l).
Hypothesis sha256_digest :
  forall l : list chunk,
    hex (fold_left update l (@create sha256)) = digest_of (concat l).

(** Whatever backend ran and whenever Stop was clicked, a digest returned
    for a file is the digest of the whole content of the file. *)
Theorem digest_is_backend_independent e file h t log :
  calculateFileHash hashwasm sha256 e file = (Digest h, t, log) ->
  h = digest_of (content file).
Proof.
  assert (Hslices : concat (slices file (256 * MB) 0 (chunk_count file (256 * MB)))
                    = content file).
  { rewrite concat_slices by (apply chunk_count_covers; reflexivity).
    reflexivity. }
  unfold calculateFileHash, calculateHashWASM, calculateHashWithFileStream,
    calculateHashStreaming.
  destruct (has_hashwasm e).
  - destruct (has_stream e).
    + destruct (wasm_stream_loop _ _ _ _ _ _ _ _) as [[[h1|err1] t1] log1] eqn:Hloop.
      * apply wasm_stream_loop_digest in Hloop.
        intros H; inversion H; subst. apply hashwasm_digest.
      * destruct (has_sha256 e); cbn [negb]; [|discriminate].
        destruct (file_stream_loop _ _ _ _ _ _ _ _) as [[r2 t2] log2] eqn:H2.
        intros H; inversion H; subst.
        apply file_stream_loop_digest in H2. subst. apply sha256_digest.
    + destruct (chunked_loop _ _ _ _ _ _ _ _ _ _) as [[[h1|err1] t1] log1] eqn:Hloop.
      * apply chunked_loop_digest in Hloop.
        intros H; inversion H; subst. rewrite hashwasm_digest, Hslices.
        reflexivity.
      * destruct (has_sha256 e); cbn [negb]; [|discriminate].
        destruct (chunked_loop sha256 _ _ _ _ _ _ _ _ _) as [[r2 t2] log2] eqn:H2.
        intros H; inversion H; subst.
        apply chunked_loop_digest in H2. subst.
        rewrite sha256_digest, Hslices. reflexivity.
  - destruct (has_stream e); destruct (has_sha256 e); cbn [negb];
      try discriminate.
    + intros H; apply file_stream_loop_digest in H. subst. apply sha256_digest.
    + intros H; apply chunked_loop_digest in H. subst.
      rewrite sha256_digest, Hslices. reflexivity.
Qed.

End BackendIndependence.

Lemma reference_digest (l : list chunk) :
  hex (fold_left update l (@create Reference.sha256_reference))
  = Reference.sha256_hex (concat l).
Proof.
  cbn [hex create Reference.sha256_reference].
  change (Reference.sha256_hex (concat l))
    with (Reference.sha256_hex ([] ++ concat l)).
  generalize (@nil byte). induction l as [|c l IH]; intros acc; cbn [fold_left concat].
  - rewrite app_nil_r. reflexivity.
  - cbn [update Reference.sha256_reference]. rewrite IH, app_assoc. reflexivity.
Qed.

Lemma digest_is_backend_independent_witness :
  sha256_of_abc = Reference.sha256_hex (content a_iso).
Proof.
  apply (@digest_is_backend_independent Reference.sha256_reference
           Reference.sha256_reference Reference.sha256_hex
           reference_digest reference_digest page_without_stream a_iso
           sha256_of_abc 1 [Progress 3; Complete 3]).
  vm_compute. reflexivity.
Defined.

(* ===================================================================== *)
(** * Further properties *)
(* ===================================================================== *)

(** ** What a match has read *)

Section MatcherSoundness.

Local Open Scope nat_scope.

Lemma last_read_app (a b : jsstring) (prev : option char) :
  last_read (a ++ b) prev = last_read b (last_read a prev).
Proof. unfold last_read. apply fold_left_app. Qed.

(** A repetition that succeeds has taken a prefix in its class, of a
    length within its bounds, and the continuation succeeded after it. *)
Lemma rep_greedy_sound (R : Type) (k : cont R) (p : char -> bool) (s : jsstring) :
  forall lo hi prev pos r,
    rep_greedy k p lo hi prev pos s = Some r ->
    exists a b,
      s = a ++ b /\ forallb p a = true /\ lo <= List.length a
      /\ match hi with Some m => List.length a <= m | None => True end
      /\ k (last_read a prev) (pos + List.length a) b = Some r.
Proof.
  assert (Hstop : forall lo hi prev pos s r,
            (if Nat.eqb lo 0 then k prev pos s else None) = Some r ->
            exists a b,
              s = a ++ b /\ forallb p a = true /\ lo <= List.length a
              /\ match hi with Some m => List.length a <= m | None => True end
              /\ k (last_read a prev) (pos + List.length a) b = Some r).
  { intros lo hi prev pos s0 r H. destruct (Nat.eqb_spec lo 0); [|discriminate].
    exists [], s0. cbn [app forallb List.length last_read fold_left].
    rewrite Nat.add_0_r. repeat split; try assumption; try lia.
    destruct hi; [lia | exact I]. }
  induction s as [|x s IH]; intros lo hi prev pos r H.
  - cbn [rep_greedy] in H. apply Hstop. destruct hi as [[|m]|]; exact H.
  - pose proof (Hstop lo hi prev pos (x :: s) r) as Hs.
    cbn [rep_greedy] in H.
    assert (Hrec :
      forall r', rep_greedy k p (Nat.pred lo) (option_map Nat.pred hi)
                   (Some x) (S pos) s = Some r' ->
                 hi <> Some 0 -> p x = true ->
                 exists a b,
                   x :: s = a ++ b /\ forallb p a = true /\ lo <= List.length a
                   /\ match hi with Some m => List.length a <= m | None => True end
                   /\ k (last_read a prev) (pos + List.length a) b = Some r').
    { intros r' Hr Hhi0 Hx. apply IH in Hr.
      destruct Hr as (a & b & -> & Hall & Hlo & Hhi & Hk).
      exists (x :: a), b. cbn [app forallb List.length].
      rewrite Hx, Hall. repeat split; try lia.
      - destruct hi as [[|m]|]; cbn [option_map Nat.pred] in Hhi;
          [congruence | lia | exact I].
      - replace (pos + S (List.length a)) with (S pos + List.length a) by lia.
        exact Hk. }
    destruct hi as [[|m]|]; [apply Hs; exact H | |].
    + destruct (p x) eqn:Hx; [|apply Hs; exact H].
      destruct (rep_greedy k p (Nat.pred lo) (option_map Nat.pred (Some (S m)))
                  (Some x) (S pos) s) as [r'|] eqn:Hr; [|apply Hs; exact H].
      inversion H; subst r'. apply Hrec; [reflexivity | discriminate | reflexivity].
    + destruct (p x) eqn:Hx; [|apply Hs; exact H].
      destruct (rep_greedy k p (Nat.pred lo) (option_map Nat.pred None)
                  (Some x) (S pos) s) as [r'|] eqn:Hr; [|apply Hs; exact H].
      inversion H; subst r'. apply Hrec; [reflexivity | discriminate | reflexivity].
Qed.

Lemma match_word_sound fl (w : jsstring) :
  forall prev s prev' s',
    match_word fl w prev s = Some (prev', s') ->
    exists a, s = a ++ s' /\ List.length a = List.length w
              /\ prev' = last_read a prev.
Proof.
  induction w as [|c w IH]; intros prev s prev' s' H; cbn [match_word] in H.
  - inversion H; subst. exists []. repeat split.
  - destruct s as [|x s]; [discriminate|].
    destruct (N.eqb _ _); [|discriminate].
    apply IH in H as (a & -> & Hlen & ->).
    exists (x :: a). cbn [app List.length]. repeat split. lia.
Qed.

Lemma alt_try_sound (R : Type) fl (k : cont R) (words : list jsstring) :
  forall prev pos s r,
    alt_try fl k words prev pos s = Some r ->
    exists a b, s = a ++ b /\ k (last_read a prev) (pos + List.length a) b = Some r.
Proof.
  induction words as [|w ws IH]; intros prev pos s r H; cbn [alt_try] in H;
    [discriminate|].
  destruct (match_word fl w prev s) as [[prev' s']|] eqn:Hw.
  - destruct (k prev' (pos + List.length w) s') as [r'|] eqn:Hk.
    + inversion H; subst r'.
      apply match_word_sound in Hw as (a & -> & Hlen & ->).
      exists a, s'. rewrite Hlen. split; [reflexivity | exact Hk].
    + apply IH; exact H.
  - apply IH; exact H.
Qed.

Lemma assoc_other (g g' v : nat) (l : list (nat * nat)) :
  g <> g' -> assoc g ((g', v) :: l) = assoc g l.
Proof. intros H. cbn [assoc]. apply Nat.eqb_neq in H. rewrite H. reflexivity. Qed.

(** The items [pre] of a pattern read a prefix of the input and leave the
    groups they do not mention as they were. *)
Lemma run_prefix fl (pre rest : list node) :
  forall caps prev pos s r,
    run fl (pre ++ rest) caps prev pos s = Some r ->
    exists a b caps1 prev1,
      s = a ++ b
      /\ run fl rest caps1 prev1 (pos + List.length a) b = Some r
      /\ (forall g, ~ In (Open g) pre ->
                    assoc g (starts caps1) = assoc g (starts caps))
      /\ (forall g, ~ In (Close g) pre ->
                    assoc g (ends caps1) = assoc g (ends caps)).
Proof.
  induction pre as [|item pre IH]; intros caps prev pos s r H.
  - exists [], s, caps, prev. cbn [app List.length] in *. rewrite Nat.add_0_r.
    repeat split; auto.
  - cbn [app] in H. destruct item as [| |c lo hi|words|g'|g']; cbn [run] in H.
    + destruct (at_bol fl prev); [|discriminate].
      apply IH in H as (a & b & caps1 & prev1 & -> & Hrun & Hs & He).
      exists a, b, caps1, prev1. repeat split; auto.
      * intros g Hg. apply Hs. intros Hin. apply Hg. right; exact Hin.
      * intros g Hg. apply He. intros Hin. apply Hg. right; exact Hin.
    + destruct (at_eol fl s); [|discriminate].
      apply IH in H as (a & b & caps1 & prev1 & -> & Hrun & Hs & He).
      exists a, b, caps1, prev1. repeat split; auto.
      * intros g Hg. apply Hs. intros Hin. apply Hg. right; exact Hin.
      * intros g Hg. apply He. intros Hin. apply Hg. right; exact Hin.
    + apply rep_greedy_sound in H as (a1 & b1 & -> & _ & _ & _ & H).
      apply IH in H as (a & b & caps1 & prev1 & -> & Hrun & Hs & He).
      exists (a1 ++ a), b, caps1, prev1. rewrite length_app, <- app_assoc.
      rewrite Nat.add_assoc. repeat split; auto.
      * intros g Hg. apply Hs. intros Hin. apply Hg. right; exact Hin.
      * intros g Hg. apply He. intros Hin. apply Hg. right; exact Hin.
    + apply alt_try_sound in H as (a1 & b1 & -> & H).
      apply IH in H as (a & b & caps1 & prev1 & -> & Hrun & Hs & He).
      exists (a1 ++ a), b, caps1, prev1. rewrite length_app, <- app_assoc.
      rewrite Nat.add_assoc. repeat split; auto.
      * intros g Hg. apply Hs. intros Hin. apply Hg. right; exact Hin.
      * intros g Hg. apply He. intros Hin. apply Hg. right; exact Hin.
    + apply IH in H as (a & b & caps1 & prev1 & -> & Hrun & Hs & He).
      exists a, b, caps1, prev1. repeat split; auto.
      * intros g Hg. rewrite Hs by (intros Hin; apply Hg; right; exact Hin).
        cbn [starts]. apply assoc_other. intros ->. apply Hg. left; reflexivity.
      * intros g Hg. rewrite He by (intros Hin; apply Hg; right; exact Hin).
        reflexivity.
    + apply IH in H as (a & b & caps1 & prev1 & -> & Hrun & Hs & He).
      exists a, b, caps1, prev1. repeat split; auto.
      * intros g Hg. rewrite Hs by (intros Hin; apply Hg; right; exact Hin).
        reflexivity.
      * intros g Hg. rewrite He by (intros Hin; apply Hg; right; exact Hin).
        cbn [ends]. apply assoc_other. intros ->. apply Hg. left; reflexivity.
Qed.

(** The text of a group that encloses one repetition is in the class of the
    repetition and within its bounds. *)
Lemma group_of_rep fl (pre post : list node) (g : nat) (c : cclass)
    (lo : nat) (hi : option nat) prev s caps n :
  ~ In (Open g) post -> ~ In (Close g) post ->
  run fl (pre ++ Open g :: Rep c lo hi :: Close g :: post) no_captures prev 0 s
  = Some (caps, n) ->
  forallb (class_mem fl c) (group caps g s) = true
  /\ lo <= List.length (group caps g s)
  /\ match hi with Some m => List.length (group caps g s) <= m | None => True end.
Proof.
  intros Hopen Hclose H.
  apply run_prefix in H as (a & b & caps1 & prev1 & -> & H & _ & _).
  cbn [run Nat.add] in H.
  apply rep_greedy_sound in H as (h & b2 & -> & Hall & Hlo & Hhi & H).
  cbn [run] in H.
  pose proof (@run_prefix fl post [] _ _ _ _ _
                ltac:(rewrite app_nil_r; exact H)) as Hpost.
  destruct Hpost as (a3 & b3 & caps3 & prev3 & _ & Hend & Hs & He).
  cbn [run] in Hend. inversion Hend; subst caps3.
  assert (Hg : group caps g (a ++ h ++ b2) = h).
  { unfold group. rewrite (Hs g Hopen), (He g Hclose).
    cbn [starts ends assoc]. rewrite Nat.eqb_refl.
    replace (List.length a + List.length h - List.length a) with (List.length h)
      by lia.
    rewrite skipn_app, skipn_all, Nat.sub_diag. cbn [skipn app].
    rewrite firstn_app, firstn_all, Nat.sub_diag. cbn [firstn]. apply app_nil_r. }
  rewrite Hg. auto.
Qed.

Lemma search_sound fl items :
  forall s prev caps from,
    search fl items prev s = Some (caps, from) ->
    exists prev' n, run fl items no_captures prev' 0 from = Some (caps, n).
Proof.
  induction s as [|x s IH]; intros prev caps from H; cbn [search] in H.
  - destruct (run fl items no_captures prev 0 []) as [[caps' n]|] eqn:Hrun;
      [|discriminate].
    inversion H; subst. eauto.
  - destruct (run fl items no_captures prev 0 (x :: s)) as [[caps' n]|] eqn:Hrun.
    + inversion H; subst. eauto.
    + apply IH in H. exact H.
Qed.

End MatcherSoundness.

(** ** Entries of a parsed manifest *)

Section ParsedEntries.

Local Open Scope nat_scope.

Ltac leb_cases :=
  repeat (match goal with
          | |- context [N.leb ?a ?b] => destruct (N.leb_spec a b)
          | |- context [N.eqb ?a ?b] => destruct (N.eqb_spec a b)
          end; cbn [andb orb negb]);
  intros; try reflexivity; try discriminate; try lia.

Ltac not_in :=
  let H := fresh "Hin" in
  intros H; cbv delta [Plus Opt One Star] in H; cbn [In] in H;
  repeat (destruct H as [H|H]; [discriminate H|]); exact H.

Lemma exec_two_groups fl items s l :
  exec fl items 2 s = Some l ->
  exists caps from prev n,
    run fl items no_captures prev 0 from = Some (caps, n)
    /\ l = [group caps 1 from; group caps 2 from].
Proof.
  unfold exec. destruct (search fl items None s) as [[caps from]|] eqn:Hs;
    [|discriminate].
  intros H; inversion H; subst l.
  apply search_sound in Hs as (prev & n & Hrun).
  exists caps, from, prev, n. split; [exact Hrun | reflexivity].
Qed.

Lemma lower_hex (x : char) : hex_any_case x = true -> hex_lower (lower x) = true.
Proof.
  unfold lower. destruct (in_range 65%N 90%N x) eqn:E; revert E;
    unfold hex_any_case, hex_lower, in_range; leb_cases.
Qed.

(** A digest of either case, once lower-cased. *)
Lemma toLowerCase_digest (m : jsstring) :
  forallb hex_any_case m = true ->
  forallb hex_lower (toLowerCase m) = true
  /\ List.length (toLowerCase m) = List.length m.
Proof.
  intros H. unfold toLowerCase. split; [|apply length_map].
  induction m as [|x m IH]; [reflexivity|]. cbn [map forallb] in *.
  apply andb_true_iff in H as [Hx Hm]. rewrite (lower_hex _ Hx), (IH Hm).
  reflexivity.
Qed.

Lemma digit_class (m : jsstring) :
  forallb (class_mem line_flags hexdigit) m = true ->
  forallb hex_any_case m = true.
Proof.
  intros H. rewrite <- H. symmetry. apply forallb_pointwise.
  intros x. apply hexdigit_any_case.
Qed.

(** What the three patterns capture as the digest. *)
Lemma format1_digest s m1 m2 :
  exec line_flags format1 2 s = Some [m1; m2] ->
  forallb hex_any_case m1 = true /\ 32 <= List.length m1 <= 128.
Proof.
  intros H. apply exec_two_groups in H as (caps & from & prev & n & Hrun & Heq).
  inversion Heq; subst m1 m2.
  change format1
    with ([Bol] ++ Open 1 :: Rep hexdigit 32 (Some 128) :: Close 1
            :: [Plus CSpace; Opt (CUnion (CChar (ch "*")) CSpace); Open 2;
                Plus CDot; Close 2; Eol]) in Hrun.
  apply group_of_rep in Hrun; [|not_in|not_in].
  destruct Hrun as (Hall & Hlo & Hhi). split; [apply digit_class; exact Hall | lia].
Qed.

Lemma format2_digest s m1 m2 :
  exec line_flags format2 2 s = Some [m1; m2] ->
  forallb hex_any_case m2 = true /\ 32 <= List.length m2 <= 128.
Proof.
  intros H. apply exec_two_groups in H as (caps & from & prev & n & Hrun & Heq).
  inversion Heq; subst m1 m2.
  change format2
    with ([Bol; Alt algo_words; Star CSpace; One (CChar (ch "("));
           Open 1; Plus (CNot (CChar (ch ")"))); Close 1; One (CChar (ch ")"));
           Star CSpace; One (CChar (ch "=")); Star CSpace]
          ++ Open 2 :: Rep hexdigit 32 (Some 128) :: Close 2 :: []) in Hrun.
  apply group_of_rep in Hrun; [|not_in|not_in].
  destruct Hrun as (Hall & Hlo & Hhi). split; [apply digit_class; exact Hall | lia].
Qed.

Lemma format3_digest s m1 m2 :
  exec line_flags format3 2 s = Some [m1; m2] ->
  forallb hex_any_case m1 = true /\ 32 <= List.length m1 <= 128.
Proof.
  intros H. apply exec_two_groups in H as (caps & from & prev & n & Hrun & Heq).
  inversion Heq; subst m1 m2.
  change format3
    with ([Bol] ++ Open 1 :: Rep hexdigit 32 (Some 128) :: Close 1
            :: [Star CSpace; One (CChar (ch "=")); Star CSpace; Open 2;
                Plus CDot; Close 2; Eol]) in Hrun.
  apply group_of_rep in Hrun; [|not_in|not_in].
  destruct Hrun as (Hall & Hlo & Hhi). split; [apply digit_class; exact Hall | lia].
Qed.

(** Every segment of a split is free of the separator. *)
Lemma split_on_segments (sep : char -> bool) (s : jsstring) :
  Forall (fun seg => forallb (fun x => negb (sep x)) seg = true) (split_on sep s).
Proof.
  induction s as [|x s IH]; cbn [split_on].
  - constructor; [reflexivity | constructor].
  - destruct (sep x) eqn:Hx.
    + constructor; [reflexivity | exact IH].
    + destruct (split_on sep s) as [|seg segs].
      * constructor; [|constructor]. cbn [forallb]. rewrite Hx. reflexivity.
      * inversion IH; subst. constructor; [|assumption].
        cbn [forallb]. rewrite Hx. cbn [negb andb]. assumption.
Qed.

Lemma last_segment_no_separator (s : jsstring) :
  forallb (fun x => negb (is_path_sep x)) (last_segment s) = true.
Proof.
  unfold last_segment.
  pose proof (split_on_segments is_path_sep s) as H.
  induction H as [|seg segs Hseg Hsegs IH]; [reflexivity|].
  destruct segs as [|seg' segs']; [exact Hseg | exact IH].
Qed.

(** One line either leaves the mapping alone or sets one entry: a name
    without directory part and a lower-case digest. *)
Lemma parse_line_cases (o : Obj.obj) (line : jsstring) :
  parse_line o line = o
  \/ exists filename hash,
       parse_line o line = Obj.set o filename hash
       /\ forallb (fun x => negb (is_path_sep x)) filename = true
       /\ forallb hex_lower hash = true
       /\ 32 <= List.length hash <= 128.
Proof.
  unfold parse_line.
  destruct (_ || _); [left; reflexivity|].
  destruct (exec line_flags format1 2 (trim line))
    as [[|m1 [|m2 [|m3 ms]]]|] eqn:H1;
    try (destruct (exec line_flags format2 2 (trim line))
           as [[|n1 [|n2 [|n3 ns]]]|] eqn:H2;
         try (destruct (exec line_flags format3 2 (trim line))
                as [[|k1 [|k2 [|k3 ks]]]|] eqn:H3; try (left; reflexivity)));
    right.
  all: try (apply format1_digest in H1 as [Hhex Hlen];
            apply toLowerCase_digest in Hhex as [Hlow Hl];
            eexists _, _; split; [reflexivity|];
            split; [apply last_segment_no_separator|];
            split; [exact Hlow | rewrite Hl; exact Hlen]).
  all: try (apply format2_digest in H2 as [Hhex Hlen];
            apply toLowerCase_digest in Hhex as [Hlow Hl];
            eexists _, _; split; [reflexivity|];
            split; [apply last_segment_no_separator|];
            split; [exact Hlow | rewrite Hl; exact Hlen]).
  all: try (apply format3_digest in H3 as [Hhex Hlen];
            apply toLowerCase_digest in Hhex as [Hlow Hl];
            eexists _, _; split; [reflexivity|];
            split; [apply last_segment_no_separator|];
            split; [exact Hlow | rewrite Hl; exact Hlen]).
Qed.

Lemma parseChecksums_entries (content : jsstring) :
  Forall (fun e => forallb (fun x => negb (is_path_sep x)) (fst e) = true
                   /\ forallb hex_lower (snd e) = true
                   /\ 32 <= List.length (snd e) <= 128)
    (parseChecksums content).
Proof.
  unfold parseChecksums.
  assert (H : forall lines o,
            Forall (fun e => forallb (fun x => negb (is_path_sep x)) (fst e) = true
                             /\ forallb hex_lower (snd e) = true
                             /\ 32 <= List.length (snd e) <= 128) o ->
            Forall (fun e => forallb (fun x => negb (is_path_sep x)) (fst e) = true
                             /\ forallb hex_lower (snd e) = true
                             /\ 32 <= List.length (snd e) <= 128)
              (fold_left parse_line lines o)).
  { induction lines as [|line lines IH]; intros o Ho; cbn [fold_left]; [exact Ho|].
    apply IH. destruct (parse_line_cases o line) as [->|(f & h & -> & Hf & Hh & Hl)];
      [exact Ho|].
    clear IH. unfold Obj.set. destruct (JS.eqb f Obj.proto); [exact Ho|].
    induction Ho as [|[k' v'] o Hhead Ho IH]; cbn [Obj.define].
    - constructor; [cbn; auto | constructor].
    - destruct (JS.eqb f k') eqn:Hk.
      + constructor; [|exact Ho]. cbn [fst snd] in *. tauto.
      + constructor; [exact Hhead | exact IH]. }
  apply H. constructor.
Qed.

(** Every digest of a parsed manifest is 32 to 128 lower-case hexadecimal
    digits, whatever the text parsed. *)
Theorem parsed_digests_are_lowercase_hex (content filename hash : jsstring) :
  In (filename, hash) (Obj.entries (parseChecksums content)) ->
  forallb hex_lower hash = true /\ 32 <= List.length hash <= 128.
Proof.
  intros H. apply (proj1 (entries_In _ _)) in H.
  pose proof (parseChecksums_entries content) as Hall.
  rewrite Forall_forall in Hall. apply Hall in H. cbn [fst snd] in H. tauto.
Qed.

(** Every name of a parsed manifest is free of slashes and backslashes. *)
Theorem parsed_names_have_no_directory (content filename hash : jsstring) :
  In (filename, hash) (Obj.entries (parseChecksums content)) ->
  forallb (fun x => negb (is_path_sep x)) filename = true.
Proof.
  intros H. apply (proj1 (entries_In _ _)) in H.
  pose proof (parseChecksums_entries content) as Hall.
  rewrite Forall_forall in Hall. apply Hall in H. cbn [fst snd] in H. tauto.
Qed.

End ParsedEntries.

(** ** More lines of manifests *)

Section MoreManifestLines.

Local Open Scope N_scope.

Ltac leb_cases :=
  repeat (match goal with
          | |- context [N.leb ?a ?b] => destruct (N.leb_spec a b)
          | |- context [N.eqb ?a ?b] => destruct (N.eqb_spec a b)
          end; cbn [andb orb negb]);
  intros; try reflexivity; try discriminate; try lia.

(** A repetition whose upper bound is the length of [a] takes [a] and
    stops there, whatever follows. *)
Lemma rep_greedy_bounded (R : Type) (k : cont R) (p : char -> bool) (a : jsstring) :
  forall lo prev pos rest r,
    forallb p a = true ->
    (lo <= List.length a)%nat ->
    k (last_read a prev) (pos + List.length a)%nat rest = Some r ->
    rep_greedy k p lo (Some (List.length a)) prev pos (a ++ rest) = Some r.
Proof.
  induction a as [|x a IH]; intros lo prev pos rest r Hall Hlo Hk.
  - cbn [app List.length] in *. rewrite Nat.add_0_r in Hk.
    assert (lo = 0%nat) by lia. subst lo.
    destruct rest; cbn [rep_greedy Nat.eqb]; exact Hk.
  - cbn [forallb] in Hall. apply andb_true_iff in Hall as [Hx Hall].
    cbn [app List.length] in *.
    assert (Hrec : rep_greedy k p (Nat.pred lo) (Some (List.length a))
                     (Some x) (S pos) (a ++ rest) = Some r).
    { apply IH; [exact Hall | lia |].
      replace (S pos + List.length a)%nat with (pos + S (List.length a))%nat by lia.
      exact Hk. }
    cbn [rep_greedy option_map Nat.pred]. rewrite Hx, Hrec. reflexivity.
Qed.

(** One character of the class. *)
Lemma rep_greedy_one (R : Type) (k : cont R) (p : char -> bool) x prev pos rest r :
  p x = true ->
  k (Some x) (S pos) rest = Some r ->
  rep_greedy k p 1 (Some 1%nat) prev pos (x :: rest) = Some r.
Proof.
  intros Hx Hk.
  apply (@rep_greedy_bounded R k p [x] 1%nat prev pos rest r).
  - cbn [forallb]. rewrite Hx. reflexivity.
  - cbn [List.length]. lia.
  - cbn [last_read fold_left List.length]. rewrite Nat.add_1_r. exact Hk.
Qed.

Lemma match_word_self fl (w : jsstring) :
  forall prev rest, match_word fl w prev (w ++ rest) = Some (last_read w prev, rest).
Proof.
  induction w as [|c w IH]; intros prev rest; cbn [match_word app]; [reflexivity|].
  rewrite N.eqb_refl. apply IH.
Qed.

Lemma alt_try_here (R : Type) fl (k : cont R) w ws prev pos rest r :
  k (last_read w prev) (pos + List.length w)%nat rest = Some r ->
  alt_try fl k (w :: ws) prev pos (w ++ rest) = Some r.
Proof. intros Hk. cbn [alt_try]. rewrite match_word_self, Hk. reflexivity. Qed.

Lemma alt_try_next (R : Type) fl (k : cont R) w ws prev pos s :
  match_word fl w prev s = None ->
  alt_try fl k (w :: ws) prev pos s = alt_try fl k ws prev pos s.
Proof. intros H. cbn [alt_try]. rewrite H. reflexivity. Qed.

(** The text of a group from its boundaries. *)
Lemma group_between (caps : captures) (g : nat) (a m b : jsstring) :
  assoc g (starts caps) = Some (List.length a) ->
  assoc g (ends caps) = Some (List.length a + List.length m)%nat ->
  group caps g (a ++ m ++ b) = m.
Proof.
  intros Hs He. unfold group. rewrite Hs, He.
  replace (List.length a + List.length m - List.length a)%nat
    with (List.length m) by lia.
  rewrite skipn_app, skipn_all, Nat.sub_diag. cbn [skipn app].
  rewrite firstn_app, firstn_all, Nat.sub_diag. cbn [firstn]. apply app_nil_r.
Qed.

(** A pattern anchored at the start of the text matches there or nowhere. *)
Lemma exec_at_start fl items n s :
  multiline fl = false ->
  run fl (Bol :: items) no_captures None 0 s = None ->
  exec fl (Bol :: items) n s = None.
Proof.
  intros Hm Hrun. unfold exec.
  assert (H : forall s x, search fl (Bol :: items) (Some x) s = None).
  { intros s0. induction s0 as [|y s0 IH]; intros x; cbn [search run at_bol];
      rewrite Hm; cbn [andb]; [reflexivity | apply IH]. }
  destruct s as [|x s]; cbn [search]; rewrite Hrun; [reflexivity|].
  rewrite H. reflexivity.
Qed.

Lemma split_on_nonempty (sep : char -> bool) (s : jsstring) : split_on sep s <> [].
Proof.
  destruct s as [|x s]; cbn [split_on]; [discriminate|].
  destruct (sep x); [discriminate|]. destruct (split_on sep s); discriminate.
Qed.

(** [split] at a separator. *)
Lemma split_on_app (sep : char -> bool) (a b : jsstring) (x : char) :
  sep x = true ->
  split_on sep (a ++ x :: b) = split_on sep a ++ split_on sep b.
Proof.
  intros Hx. induction a as [|y a IH]; cbn [app split_on].
  - rewrite Hx. reflexivity.
  - rewrite IH. destruct (sep y); [reflexivity|].
    pose proof (split_on_nonempty sep a) as Hne.
    destruct (split_on sep a) as [|seg segs]; [congruence | reflexivity].
Qed.

Lemma parseChecksums_app (a b : jsstring) :
  parseChecksums (a ++ 10 :: b)
  = fold_left parse_line (split_lines b) (parseChecksums a).
Proof.
  unfold parseChecksums, split_lines.
  rewrite split_on_app by reflexivity. apply fold_left_app.
Qed.

Lemma get_set_same (o : Obj.obj) (k v : jsstring) :
  k <> Obj.proto -> Obj.get (Obj.set o k v) k = Some v.
Proof.
  intros Hkey. rewrite set_stores by exact Hkey.
  induction o as [|[k' v'] o IH]; cbn [Obj.define Obj.get].
  - rewrite jsstring_eqb_refl. reflexivity.
  - destruct (JS.eqb k k') eqn:Hk; cbn [Obj.get]; rewrite Hk; [reflexivity | exact IH].
Qed.

End MoreManifestLines.

Section BsdLines.

Local Open Scope N_scope.

Ltac leb_cases :=
  repeat (match goal with
          | |- context [N.leb ?a ?b] => destruct (N.leb_spec a b)
          | |- context [N.eqb ?a ?b] => destruct (N.eqb_spec a b)
          end; cbn [andb orb negb]);
  intros; try reflexivity; try discriminate; try lia.

Lemma not_paren_class fl (f : jsstring) :
  forallb (fun x => negb (x =? 41)) f = true ->
  forallb (class_mem fl (CNot (CChar 41))) f = true.
Proof.
  apply forallb_weaken. intros x. cbn [class_mem].
  unfold canonicalize, in_range. destruct (ignoreCase fl); cbn [andb]; leb_cases.
Qed.

Lemma digest_head (h : jsstring) :
  is_digest h -> exists x h', h = x :: h' /\ hex_any_case x = true.
Proof.
  intros [Hlen Hhex]. destruct h as [|x h']; [cbn in Hlen; lia|].
  exists x, h'. split; [reflexivity|].
  cbn [forallb] in Hhex. apply andb_true_iff in Hhex. apply Hhex.
Qed.

Lemma digest_last (h : jsstring) :
  is_digest h -> is_space (last h 32) = false.
Proof.
  intros [Hlen Hhex].
  assert (Hne : h <> []) by (destruct h; [cbn in Hlen; lia | discriminate]).
  destruct (exists_last Hne) as (h' & x & ->). rewrite last_last.
  rewrite forallb_app in Hhex. apply andb_true_iff in Hhex as [_ Hx].
  cbn [forallb] in Hx. rewrite andb_true_r in Hx.
  apply hex_any_case_not_space; exact Hx.
Qed.

(** The part of the second pattern after the algorithm word, on
    [ (<name>) = <digest>]. *)
Lemma format2_tail caps prev pos (f h : jsstring) :
  is_bsd_name f -> is_digest h ->
  exists caps' n,
    run line_flags
      [Star CSpace; One (CChar 40); Open 1; Plus (CNot (CChar 41)); Close 1;
       One (CChar 41); Star CSpace; One (CChar 61); Star CSpace;
       Open 2; Rep hexdigit 32 (Some 128%nat); Close 2]
      caps prev pos ([32] ++ 40 :: f ++ ([41] ++ [32] ++ 61 :: [32] ++ h))
    = Some (caps', n)
    /\ assoc 1 (starts caps') = Some (pos + 2)%nat
    /\ assoc 1 (ends caps') = Some (pos + 2 + List.length f)%nat
    /\ assoc 2 (starts caps') = Some (pos + 2 + List.length f + 4)%nat
    /\ assoc 2 (ends caps')
       = Some (pos + 2 + List.length f + 4 + List.length h)%nat.
Proof.
  intros (Hhead & Hlt & Hlast & Hparen) Hh.
  destruct (digest_head Hh) as (x & h' & Hx & Hhex). destruct Hh as [Hlen Hall].
  assert (Hf : f <> []) by (destruct f; [destruct Hhead | discriminate]).
  eexists. eexists. split.
  - unfold Star, One, Plus. cbn [run].
    apply rep_greedy_max; [reflexivity | cbn; lia | exact I | reflexivity |].
    cbv beta. apply rep_greedy_one; [reflexivity|].
    cbn [run]. apply rep_greedy_max.
    + apply not_paren_class; exact Hparen.
    + destruct f; [congruence | cbn [List.length]; lia].
    + exact I.
    + reflexivity.
    + cbv beta. cbn [run app]. apply rep_greedy_one; [reflexivity|].
      apply (@rep_greedy_max _ _ _ [32]);
        [reflexivity | cbn; lia | exact I | reflexivity |].
      cbv beta. apply rep_greedy_one; [reflexivity|].
      apply (@rep_greedy_max _ _ _ [32]); [reflexivity | cbn; lia | exact I | |].
      * rewrite Hx. cbn [class_mem]. apply hex_any_case_not_space; exact Hhex.
      * cbv beta. cbn [run]. apply rep_greedy_all.
        -- rewrite <- Hall. apply forallb_pointwise. intros y.
           apply hexdigit_any_case.
        -- lia.
        -- lia.
        -- cbn [run]. reflexivity.
  - cbn [assoc starts ends Nat.eqb List.length].
    repeat split; f_equal; lia.
Qed.

(** The same for the pattern of [containsChecksums]. *)
Lemma bsdPattern_tail caps prev pos (f h : jsstring) :
  is_bsd_name f -> is_digest h ->
  exists r,
    run bsdPattern_flags
      [Star CSpace; One (CChar 40); Plus (CNot (CChar 41));
       One (CChar 41); Star CSpace; One (CChar 61); Star CSpace;
       Open 1; Rep hexdigit 32 (Some 128%nat); Close 1]
      caps prev pos ([32] ++ 40 :: f ++ ([41] ++ [32] ++ 61 :: [32] ++ h))
    = Some r.
Proof.
  intros (Hhead & Hlt & Hlast & Hparen) Hh.
  destruct (digest_head Hh) as (x & h' & Hx & Hhex). destruct Hh as [Hlen Hall].
  assert (Hf : f <> []) by (destruct f; [destruct Hhead | discriminate]).
  eexists.
  unfold Star, One, Plus. cbn [run].
  apply rep_greedy_max; [reflexivity | cbn; lia | exact I | reflexivity |].
  cbv beta. apply rep_greedy_one; [reflexivity|].
  apply rep_greedy_max.
  - apply not_paren_class; exact Hparen.
  - destruct f; [congruence | cbn [List.length]; lia].
  - exact I.
  - reflexivity.
  - cbv beta. cbn [app]. apply rep_greedy_one; [reflexivity|].
    apply (@rep_greedy_max _ _ _ [32]);
      [reflexivity | cbn; lia | exact I | reflexivity |].
    cbv beta. apply rep_greedy_one; [reflexivity|].
    apply (@rep_greedy_max _ _ _ [32]); [reflexivity | cbn; lia | exact I | |].
    + rewrite Hx. cbn [class_mem]. apply hex_any_case_not_space; exact Hhex.
    + cbv beta. cbn [run]. apply rep_greedy_all.
      * rewrite <- Hall. apply forallb_pointwise. intros y.
        apply hexdigit_any_case.
      * lia.
      * lia.
      * cbn [run]. reflexivity.
Qed.

Lemma algo_word_head (w : jsstring) :
  In w algo_words -> exists a w', w = a :: w' /\ (a = 83 \/ a = 77).
Proof. intros [<-|[<-|[<-|[<-|[]]]]]; cbn; eauto. Qed.

Lemma algo_word_no_terminator (w : jsstring) :
  In w algo_words -> no_line_terminator w = true.
Proof. intros [<-|[<-|[<-|[<-|[]]]]]; reflexivity. Qed.

Lemma bsd_line_no_terminator (w f h : jsstring) :
  In w algo_words -> is_bsd_name f -> is_digest h ->
  no_line_terminator (w ++ js " (" ++ f ++ js ") = " ++ h) = true.
Proof.
  intros Hw (_ & Hlt & _) [_ Hhex]. unfold no_line_terminator in *.
  repeat apply forallb_app_true; try reflexivity; try assumption.
  - apply algo_word_no_terminator; exact Hw.
  - revert Hhex. apply forallb_weaken. intros x.
    unfold hex_any_case, is_line_terminator, in_range. leb_cases.
Qed.

(** The second grammar: [ALGO (<name>) = <digest>]. *)
Lemma bsd_line (o : Obj.obj) (w f h : jsstring) :
  In w algo_words -> is_bsd_name f -> is_digest h ->
  parse_line o (w ++ js " (" ++ f ++ js ") = " ++ h)
  = Obj.set o (last_segment f) (toLowerCase h).
Proof.
  intros Hw Hf Hh.
  set (line := w ++ js " (" ++ f ++ js ") = " ++ h).
  destruct (algo_word_head Hw) as (a & w' & Hwa & Ha).
  assert (Hha : hex_any_case a = false)
    by (destruct Ha as [-> | ->]; reflexivity).
  assert (Hsa : is_space a = false)
    by (destruct Ha as [-> | ->]; reflexivity).
  assert (Htrim : trim line = line).
  { apply trim_id.
    - unfold line. rewrite Hwa. cbn [app]. exact Hsa.
    - unfold line. rewrite !app_assoc.
      rewrite last_app_nonempty by (destruct Hh as [Hlen _]; destruct h;
                                    [cbn in Hlen; lia | discriminate]).
      apply digest_last; exact Hh. }
  assert (Hskip : (match line with [] => true | _ => false end
                   || startsWith line (ch "#")) = false).
  { unfold line. rewrite Hwa. cbn [app startsWith orb].
    destruct Ha as [-> | ->]; reflexivity. }
  assert (H1 : exec line_flags format1 2 line = None).
  { apply exec_at_start; [reflexivity|].
    unfold line. rewrite Hwa. cbn [app]. unfold format1. cbn [run at_bol].
    apply rep_greedy_head_fails. rewrite hexdigit_any_case. exact Hha. }
  destruct (@format2_tail no_captures (last_read w None) (0 + List.length w)%nat
              f h Hf Hh) as (caps & n & Hrun & H1s & H1e & H2s & H2e).
  assert (Hrun2 : run line_flags format2 no_captures None 0 line = Some (caps, n)).
  { unfold line, format2. rewrite run_bol_alt. cbn [at_bol]. unfold algo_words.
    clear - Hw Hrun. destruct Hw as [<-|[<-|[<-|[<-|[]]]]];
      repeat (rewrite alt_try_next by reflexivity);
      apply alt_try_here; exact Hrun. }
  assert (H2 : exec line_flags format2 2 line = Some [f; h]).
  { unfold exec. rewrite (search_here _ _ _ _ Hrun2). cbn [seq map].
    f_equal. f_equal; [|f_equal].
    - unfold line. rewrite app_assoc. apply group_between.
      + rewrite H1s. f_equal. rewrite length_app. cbn [List.length js map
          list_ascii_of_string]. lia.
      + rewrite H1e. f_equal. rewrite length_app. cbn [List.length js map
          list_ascii_of_string]. lia.
    - replace line with ((w ++ js " (" ++ f ++ js ") = ") ++ h ++ [])
        by (unfold line; rewrite app_nil_r, <- !app_assoc; reflexivity).
      apply group_between.
      + rewrite H2s. f_equal. rewrite !length_app. cbn [List.length js map
          list_ascii_of_string]. lia.
      + rewrite H2e. f_equal. rewrite !length_app. cbn [List.length js map
          list_ascii_of_string]. lia. }
  unfold parse_line. fold line. rewrite Htrim, Hskip, H1, H2.
  destruct Hf as (Hhead & _ & Hlast & _).
  rewrite trim_id; [reflexivity | | exact Hlast].
  destruct f; [exact I | exact Hhead].
Qed.

(** A one-line manifest of the second grammar, [ALGO (<name>) = <digest>],
    is detected and parsed into exactly one entry: the last path segment of
    the name (any but [__proto__], which is not stored) with the digest in
    lower case. *)
Theorem bsd_line_is_detected_and_parsed (w f h : jsstring) :
  In w algo_words -> is_bsd_name f -> is_digest h ->
  last_segment f <> Obj.proto ->
  containsChecksums (w ++ js " (" ++ f ++ js ") = " ++ h) = true
  /\ parseChecksums (w ++ js " (" ++ f ++ js ") = " ++ h)
     = [(last_segment f, toLowerCase h)].
Proof.
  intros Hw Hf Hh Hkey. split.
  - unfold containsChecksums.
    destruct (test standardPattern_flags standardPattern _); [reflexivity|].
    destruct (@bsdPattern_tail no_captures (last_read w None)
                (0 + List.length w)%nat f h Hf Hh) as (r & Hrun).
    assert (Hrun2 : run bsdPattern_flags bsdPattern no_captures None 0
                      (w ++ js " (" ++ f ++ js ") = " ++ h) = Some r).
    { unfold bsdPattern. rewrite run_bol_alt. cbn [at_bol]. unfold algo_words.
      clear - Hw Hrun. destruct Hw as [<-|[<-|[<-|[<-|[]]]]];
        repeat (rewrite alt_try_next by reflexivity);
        apply alt_try_here; exact Hrun. }
    unfold test. destruct r as [caps n].
    rewrite (search_here _ _ _ _ Hrun2). reflexivity.
  - unfold parseChecksums.
    rewrite split_lines_one by (apply bsd_line_no_terminator; assumption).
    cbn [fold_left]. rewrite bsd_line by assumption.
    apply set_empty; exact Hkey.
Qed.

End BsdLines.

Section StarredLines.

Local Open Scope N_scope.

Ltac leb_cases :=
  repeat (match goal with
          | |- context [N.leb ?a ?b] => destruct (N.leb_spec a b)
          | |- context [N.eqb ?a ?b] => destruct (N.eqb_spec a b)
          end; cbn [andb orb negb]);
  intros; try reflexivity; try discriminate; try lia.

Lemma blank_is_space (ws : jsstring) :
  forallb is_blank ws = true -> forallb is_space ws = true.
Proof.
  apply forallb_weaken. intros x. unfold is_space, is_blank, in_range. leb_cases.
Qed.

(** The first pattern on a digest, blanks, a star and a name: the star is
    taken by the optional class and the name is the second group. *)
Lemma format1_starred (h ws f : jsstring) :
  is_digest h -> ws <> [] -> forallb is_blank ws = true ->
  f <> [] -> no_line_terminator f = true ->
  exec line_flags format1 2 (h ++ ws ++ 42 :: f) = Some [h; f].
Proof.
  intros [Hlen Hhex] Hws Hblank Hf Hlt.
  pose proof (blank_is_space _ Hblank) as Hspace.
  assert (Hrun : exists caps n,
    run line_flags format1 no_captures None 0 (h ++ ws ++ [42] ++ f)
    = Some (caps, n)
    /\ assoc 1 (starts caps) = Some 0%nat
    /\ assoc 1 (ends caps) = Some (List.length h)
    /\ assoc 2 (starts caps) = Some (List.length h + List.length ws + 1)%nat
    /\ assoc 2 (ends caps)
       = Some (List.length h + List.length ws + 1 + List.length f)%nat).
  { eexists. eexists. split.
    - unfold format1, Plus, Opt. cbn [run at_bol].
      apply rep_greedy_max.
      + rewrite <- Hhex. apply forallb_pointwise. intros x. apply hexdigit_any_case.
      + lia.
      + lia.
      + destruct ws as [|w ws']; [congruence|]. cbn [app forallb] in *.
        apply andb_true_iff in Hspace as [Hw _].
        rewrite hexdigit_any_case. revert Hw.
        unfold hex_any_case, is_space, in_range. leb_cases.
      + cbv beta. cbn [run]. apply rep_greedy_max.
        * exact Hspace.
        * destruct ws; [congruence | cbn [List.length]; lia].
        * exact I.
        * reflexivity.
        * cbv beta. cbn [run].
          apply (@rep_greedy_bounded _ _ _ [42] 0%nat);
            [reflexivity | cbn [List.length]; lia |].
          cbv beta. cbn [run]. apply rep_greedy_all.
          -- exact Hlt.
          -- destruct f; [congruence | cbn [List.length]; lia].
          -- exact I.
          -- cbn [run at_eol]. reflexivity.
    - cbn [assoc starts ends Nat.eqb List.length]. repeat split; f_equal; lia. }
  destruct Hrun as (caps & n & Hrun & H1s & H1e & H2s & H2e).
  unfold exec. change (42 :: f) with ([42] ++ f).
  rewrite (search_here _ _ _ _ Hrun). cbn [seq map]. f_equal. f_equal; [|f_equal].
  - apply (@group_between caps 1 [] h (ws ++ [42] ++ f)); [exact H1s | exact H1e].
  - replace (h ++ ws ++ [42] ++ f) with ((h ++ ws ++ [42]) ++ f ++ [])
      by (rewrite app_nil_r, <- !app_assoc; reflexivity).
    apply group_between.
    + rewrite H2s. f_equal. rewrite !length_app. cbn [List.length]. lia.
    + rewrite H2e. f_equal. rewrite !length_app. cbn [List.length]. lia.
Qed.

(** The pattern of [containsChecksums] on the same line with a lower-case
    digest. *)
Lemma standardPattern_starred (h ws f : jsstring) :
  (32 <= List.length h <= 128)%nat -> forallb hex_lower h = true ->
  ws <> [] -> forallb is_blank ws = true ->
  f <> [] -> no_line_terminator f = true ->
  test standardPattern_flags standardPattern (h ++ ws ++ 42 :: f) = true.
Proof.
  intros Hlen Hhex Hws Hblank Hf Hlt.
  pose proof (blank_is_space _ Hblank) as Hspace.
  assert (Hrun : exists r,
    run standardPattern_flags standardPattern no_captures None 0
      (h ++ ws ++ 42 :: f) = Some r).
  { eexists. unfold standardPattern, Plus, One. cbn [run at_bol].
    apply rep_greedy_max.
    - rewrite <- Hhex. apply forallb_pointwise. intros x. apply hexdigit_lower.
    - lia.
    - lia.
    - destruct ws as [|w ws']; [congruence|]. cbn [app forallb] in *.
      apply andb_true_iff in Hspace as [Hw _].
      rewrite hexdigit_lower. revert Hw.
      unfold hex_lower, is_space, in_range. leb_cases.
    - cbv beta. cbn [run]. apply rep_greedy_max.
      + exact Hspace.
      + destruct ws; [congruence | cbn [List.length]; lia].
      + exact I.
      + reflexivity.
      + cbv beta. cbn [run]. apply rep_greedy_one; [reflexivity|].
        apply rep_greedy_all.
        * exact Hlt.
        * destruct f; [congruence | cbn [List.length]; lia].
        * exact I.
        * cbn [run at_eol]. reflexivity. }
  destruct Hrun as ([caps n] & Hrun). unfold test.
  rewrite (search_here _ _ _ _ Hrun). reflexivity.
Qed.

(** A one-line manifest in the binary-mode notation of the checksum tools,
    [<digest><blanks>*<name>], is parsed into the entry of the name without
    the star (any name but [__proto__], which is not stored), and detected
    when the digest is in lower case. *)
Theorem starred_line_is_parsed (h ws f : jsstring) :
  is_digest h -> ws <> [] -> forallb is_blank ws = true ->
  match f with c :: _ => is_space c = false | [] => False end ->
  no_line_terminator f = true -> is_space (last f 32) = false ->
  last_segment f <> Obj.proto ->
  parseChecksums (h ++ ws ++ 42 :: f) = [(last_segment f, toLowerCase h)]
  /\ (forallb hex_lower h = true ->
      containsChecksums (h ++ ws ++ 42 :: f) = true).
Proof.
  intros Hh Hws Hblank Hhead Hlt Hlast Hkey.
  assert (Hf : f <> []) by (destruct f; [destruct Hhead | discriminate]).
  split.
  - destruct (digest_head Hh) as (x & h' & Hx & Hhex).
    set (line := h ++ ws ++ 42 :: f).
    assert (Hline : no_line_terminator line = true).
    { unfold line, no_line_terminator in *. destruct Hh as [_ Hall].
      repeat apply forallb_app_true.
      - revert Hall. apply forallb_weaken. intros y.
        unfold hex_any_case, is_line_terminator, in_range. leb_cases.
      - revert Hblank. apply forallb_weaken. intros y.
        unfold is_blank, is_line_terminator. leb_cases.
      - cbn [forallb]. rewrite Hlt. reflexivity. }
    assert (Htrim : trim line = line).
    { apply trim_id.
      - unfold line. rewrite Hx. cbn [app]. apply hex_any_case_not_space; exact Hhex.
      - unfold line. change (42 :: f) with ([42] ++ f).
        rewrite !app_assoc, last_app_nonempty by exact Hf. exact Hlast. }
    assert (Hskip : (match line with [] => true | _ => false end
                     || startsWith line (ch "#")) = false).
    { unfold line. rewrite Hx. cbn [app startsWith orb]. change (ch "#") with 35.
      revert Hhex. unfold hex_any_case, in_range. leb_cases. }
    unfold parseChecksums. rewrite split_lines_one by exact Hline.
    cbn [fold_left]. unfold parse_line. rewrite Htrim, Hskip.
    unfold line. rewrite format1_starred by assumption.
    rewrite trim_id; [apply set_empty; exact Hkey | | exact Hlast].
    destruct f; [exact I | exact Hhead].
  - intros Hlow. unfold containsChecksums. destruct Hh as [Hlen _].
    rewrite standardPattern_starred by assumption. reflexivity.
Qed.

(** ** Several lines *)

(** Whatever precedes it, the last line of the first grammar decides the
    digest looked up under its name; a last line that names [__proto__]
    changes nothing. *)
Theorem last_line_decides_the_digest (c h ws f : jsstring) :
  is_digest h -> ws <> [] -> forallb is_blank ws = true -> is_name_text f ->
  (last_segment f <> Obj.proto ->
   Obj.get (parseChecksums (c ++ 10 :: h ++ ws ++ f)) (last_segment f)
   = Some (toLowerCase h))
  /\ (last_segment f = Obj.proto ->
      parseChecksums (c ++ 10 :: h ++ ws ++ f) = parseChecksums c).
Proof.
  intros Hh Hws Hblank Hf. rewrite parseChecksums_app.
  rewrite split_lines_one by (apply standard_line_no_terminator; assumption).
  cbn [fold_left]. rewrite standard_line by assumption. split.
  - apply get_set_same.
  - intros ->. apply set_proto.
Qed.

Lemma trimStart_blank (l : jsstring) : forallb is_space l = true -> trimStart l = [].
Proof.
  induction l as [|x l IH]; cbn [forallb trimStart]; [reflexivity|].
  intros H. apply andb_true_iff in H as [Hx Hl]. rewrite Hx. apply IH; exact Hl.
Qed.

Lemma trimStart_app (ws s : jsstring) :
  forallb is_space ws = true -> trimStart (ws ++ s) = trimStart s.
Proof.
  induction ws as [|x ws IH]; cbn [forallb trimStart app]; [reflexivity|].
  intros H. apply andb_true_iff in H as [Hx Hl]. rewrite Hx. apply IH; exact Hl.
Qed.

(** Trimming on the left leaves the last character, when it is not a
    blank, where it is. *)
Lemma trimStart_keeps_last (a : jsstring) (x : char) :
  is_space x = false -> exists a', trimStart (a ++ [x]) = a' ++ [x].
Proof.
  intros Hx. induction a as [|y a IH]; cbn [app trimStart].
  - rewrite Hx. exists []. reflexivity.
  - destruct (is_space y); [exact IH|]. exists (y :: a). reflexivity.
Qed.

Lemma trim_blank (l : jsstring) : forallb is_space l = true -> trim l = [].
Proof. intros H. unfold trim. rewrite (trimStart_blank _ H). reflexivity. Qed.

Lemma trim_comment (ws rest : jsstring) :
  forallb is_space ws = true -> exists t, trim (ws ++ 35 :: rest) = 35 :: t.
Proof.
  intros Hws. unfold trim. rewrite (trimStart_app _ _ Hws).
  assert (E : trimStart (35 :: rest) = 35 :: rest) by reflexivity.
  rewrite E. cbn [rev].
  destruct (@trimStart_keeps_last (rev rest) 35 eq_refl) as (a' & Ha).
  rewrite Ha, rev_app_distr. cbn [rev app]. eexists. reflexivity.
Qed.

(** A line that is blank, or whose first character after blanks is [#], is
    skipped. *)
Lemma skipped_line (o : Obj.obj) (l : jsstring) :
  forallb is_space l = true
  \/ (exists ws rest : jsstring, l = ws ++ 35 :: rest /\ forallb is_space ws = true) ->
  parse_line o l = o.
Proof.
  intros [Hblank | (ws & rest & -> & Hws)]; unfold parse_line.
  - rewrite (trim_blank _ Hblank). reflexivity.
  - destruct (trim_comment ws rest Hws) as (t & Ht). rewrite Ht.
    cbn [startsWith]. change (ch "#") with 35. rewrite N.eqb_refl.
    reflexivity.
Qed.

(** Blank lines and comment lines contribute nothing: removing one from a
    manifest does not change what is parsed. *)
Theorem comment_and_blank_lines_are_skipped (a l b : jsstring) :
  forallb (fun x => negb (x =? 10)) l = true ->
  (forallb is_space l = true
   \/ exists ws rest : jsstring, l = ws ++ 35 :: rest /\ forallb is_space ws = true) ->
  parseChecksums (a ++ 10 :: l ++ 10 :: b) = parseChecksums (a ++ 10 :: b).
Proof.
  intros Hline Hskip. rewrite !parseChecksums_app. unfold split_lines.
  rewrite split_on_app by reflexivity.
  rewrite (split_on_none _ l) by exact Hline.
  cbn [app fold_left]. rewrite skipped_line by exact Hskip. reflexivity.
Qed.

End StarredLines.

Section BareDigests.

Local Open Scope N_scope.

Ltac leb_cases :=
  repeat (match goal with
          | |- context [N.leb ?a ?b] => destruct (N.leb_spec a b)
          | |- context [N.eqb ?a ?b] => destruct (N.eqb_spec a b)
          end; cbn [andb orb negb]);
  intros; try reflexivity; try discriminate; try lia.

(** What is left of a digest after some of its digits: nothing, or a digit
    first. *)
Lemma digest_suffix (h : jsstring) (j : nat) :
  forallb hex_any_case h = true ->
  skipn j h = [] \/ exists y tl, skipn j h = y :: tl /\ hex_any_case y = true.
Proof.
  revert j; induction h as [|x h IH]; intros j Hhex.
  - left. destruct j; reflexivity.
  - cbn [forallb] in Hhex. apply andb_true_iff in Hhex as [Hx Hh].
    destruct j as [|j]; cbn [skipn]; [right; eauto | apply IH; exact Hh].
Qed.

Lemma algo_word_needs_its_letter fl (w : jsstring) (y : char) (s : jsstring) prev :
  In w algo_words -> hex_any_case y = true ->
  match_word fl w prev (y :: s) = None.
Proof.
  intros Hw Hy. destruct (algo_word_head Hw) as (a & w' & -> & Ha).
  cbn [match_word].
  assert (Hne : (canonicalize fl a =? canonicalize fl y) = false).
  { apply N.eqb_neq. revert Hy.
    unfold canonicalize, hex_any_case, in_range.
    destruct (ignoreCase fl); cbn [andb]; destruct Ha as [-> | ->]; leb_cases. }
  rewrite Hne. reflexivity.
Qed.

(** A digest alone on its line is not an entry. *)
Lemma bare_digest_line (o : Obj.obj) (h : jsstring) :
  is_digest h -> parse_line o h = o.
Proof.
  intros Hh. destruct (digest_head Hh) as (x & h' & Hx & Hhex).
  pose proof (digest_last Hh) as Hlast. destruct Hh as [Hlen Hall].
  assert (Htrim : trim h = h).
  { apply trim_id; [|exact Hlast]. rewrite Hx.
    apply hex_any_case_not_space; exact Hhex. }
  assert (Hskip : (match h with [] => true | _ => false end
                   || startsWith h (ch "#")) = false).
  { rewrite Hx. cbn [startsWith orb]. change (ch "#") with 35.
    revert Hhex. unfold hex_any_case, in_range. leb_cases. }
  assert (H1 : exec line_flags format1 2 h = None).
  { apply exec_at_start; [reflexivity|]. unfold format1, Plus. cbn [run at_bol].
    apply rep_greedy_fails. intros j prev' _ _. cbn [run].
    destruct (digest_suffix h j Hall) as [-> | (y & tl & -> & Hy)].
    - reflexivity.
    - apply rep_greedy_head_fails. cbn [class_mem].
      apply hex_any_case_not_space; exact Hy. }
  assert (H2 : exec line_flags format2 2 h = None).
  { apply exec_at_start; [reflexivity|]. unfold format2.
    rewrite run_bol_alt. cbn [at_bol]. apply alt_try_fails.
    intros w Hw. rewrite Hx. apply algo_word_needs_its_letter; assumption. }
  assert (H3 : exec line_flags format3 2 h = None).
  { apply exec_at_start; [reflexivity|]. unfold format3, Star, One.
    cbn [run at_bol].
    apply rep_greedy_fails. intros j prev' _ _. cbn [run].
    destruct (digest_suffix h j Hall) as [-> | (y & tl & -> & Hy)].
    - reflexivity.
    - cbn [rep_greedy Nat.eqb class_mem].
      rewrite (hex_any_case_not_space _ Hy).
      assert (Hne : (canonicalize line_flags (ch "=") =? canonicalize line_flags y)
                    = false).
      { apply N.eqb_neq. change (ch "=") with 61. revert Hy.
        unfold canonicalize, line_flags, hex_any_case, in_range.
        cbn [ignoreCase andb]. leb_cases. }
      rewrite Hne. reflexivity. }
  unfold parse_line. rewrite Htrim, Hskip, H1, H2, H3. reflexivity.
Qed.

(** The pattern of [containsChecksums] reads the end of the line as the
    blank between digest and name. *)
Lemma standardPattern_across_lines (h rest : jsstring) (c : char) :
  (32 <= List.length h <= 128)%nat -> forallb hex_lower h = true ->
  is_space c = false -> rest <> [] -> no_line_terminator rest = true ->
  test standardPattern_flags standardPattern (h ++ 10 :: c :: rest) = true.
Proof.
  intros Hlen Hhex Hc Hrest Hlt.
  assert (Hrun : exists r,
    run standardPattern_flags standardPattern no_captures None 0
      (h ++ [10] ++ c :: rest) = Some r).
  { eexists. unfold standardPattern, Plus, One. cbn [run at_bol].
    apply rep_greedy_max.
    - rewrite <- Hhex. apply forallb_pointwise. intros x. apply hexdigit_lower.
    - lia.
    - lia.
    - reflexivity.
    - cbv beta. cbn [run]. apply rep_greedy_max.
      + reflexivity.
      + cbn [List.length]. lia.
      + exact I.
      + cbn [class_mem]. exact Hc.
      + cbv beta. cbn [run]. apply rep_greedy_one.
        * cbn [class_mem]. rewrite Hc. reflexivity.
        * apply rep_greedy_all.
          -- exact Hlt.
          -- destruct rest; [congruence | cbn [List.length]; lia].
          -- exact I.
          -- cbn [run at_eol]. reflexivity. }
  destruct Hrun as ([caps n] & Hrun). unfold test.
  change (10 :: c :: rest) with ([10] ++ c :: rest).
  rewrite (search_here _ _ _ _ Hrun). reflexivity.
Qed.

(** A text made of a digest alone on its line and of a comment line is
    detected as a manifest and parsed into no entry; shown to the add-on,
    it replaces the manifest loaded by the empty one and leaves the section
    hidden. *)
Theorem bare_digest_is_detected_but_not_parsed (h rest : jsstring)
    (p : Panel.State) :
  (32 <= List.length h <= 128)%nat -> forallb hex_lower h = true ->
  rest <> [] -> no_line_terminator rest = true ->
  containsChecksums (h ++ 10 :: 35 :: rest) = true
  /\ parseChecksums (h ++ 10 :: 35 :: rest) = []
  /\ parsedChecksums
       (Panel.queue (Panel.showChecksumSection p (h ++ 10 :: 35 :: rest))) = []
  /\ Panel.container_shown (Panel.showChecksumSection p (h ++ 10 :: 35 :: rest))
     = false.
Proof.
  intros Hlen Hlow Hrest Hlt.
  assert (Hh : is_digest h).
  { split; [exact Hlen|]. revert Hlow. apply forallb_weaken. intros x.
    unfold hex_lower, hex_any_case. intros ->. reflexivity. }
  assert (Hdet : containsChecksums (h ++ 10 :: 35 :: rest) = true).
  { unfold containsChecksums.
    rewrite standardPattern_across_lines by (assumption || reflexivity).
    reflexivity. }
  assert (Hparse : parseChecksums (h ++ 10 :: 35 :: rest) = []).
  { rewrite parseChecksums_app. unfold parseChecksums.
    assert (Hdigest : no_line_terminator h = true).
    { destruct Hh as [_ Hall]. unfold no_line_terminator. revert Hall.
      apply forallb_weaken. intros x.
      unfold hex_any_case, is_line_terminator, in_range. leb_cases. }
    rewrite (split_lines_one _ Hdigest). cbn [fold_left].
    rewrite bare_digest_line by exact Hh.
    assert (Hcomment : no_line_terminator (35 :: rest) = true).
    { unfold no_line_terminator in *. cbn [forallb]. rewrite Hlt. reflexivity. }
    rewrite (split_lines_one _ Hcomment). cbn [fold_left].
    apply skipped_line. right. exists [], rest. split; reflexivity. }
  split; [exact Hdet|]. split; [exact Hparse|].
  unfold Panel.showChecksumSection. rewrite Hdet, Hparse. cbn. split; reflexivity.
Qed.

End BareDigests.

(** ** Outcomes of a job *)

Section Outcomes.

Context (hashwasm sha256 : Sha256).

Local Abbreviation verify := (verifyFileChecksum hashwasm sha256).
Local Abbreviation calculate := (calculateFileHash hashwasm sha256).

Variable digest_of : list byte -> jsstring.
Hypothesis hashwasm_digest :
  forall l : list chunk,
    hex (fold_left update l (@create hashwasm)) = digest_of (concat l).
Hypothesis sha256_digest :
  forall l : list chunk,
    hex (fold_left update l (@create sha256)) = digest_of (concat l).











End Outcomes.

Section Failures.

Context (hashwasm sha256 : Sha256).

(** Without any hashing library every job ends with the error panel and
    marks nothing, whenever Stop is clicked. *)
Theorem missing_library_is_reported M V e f :
  has_hashwasm e = false -> has_sha256 e = false -> Obj.values M <> [] ->
  verifyFileChecksum hashwasm sha256 M V e f = (V, ERROR LibraryNotLoaded).
Proof.
  intros Hw Hs Hvals. unfold verifyFileChecksum, calculateFileHash,
    calculateHashWithFileStream, calculateHashStreaming.
  rewrite Hw, Hs. cbn [negb].
  destruct (Obj.values M) as [|v0 vs]; [congruence|].
  assert (Hflag : Hashing.verificationAborted e 0 = false).
  { unfold Hashing.verificationAborted. destruct (stop e); reflexivity. }
  destruct (has_stream e); rewrite Hflag; reflexivity.
Qed.

End Failures.

(** ** The queue at rest *)

Lemma findPending_none its q :
  findPending its q = None ->
  forall id, In id q -> status_of its id <> Some pending.
Proof.
  induction q as [|id0 q IH]; cbn [findPending In]; [tauto|].
  destruct (status_of its id0) as [[| | |]|] eqn:Hst; try discriminate;
    intros H id [<-|Hin]; try congruence; apply IH; assumption.
Qed.

Lemma loop_head_at_rest s :
  isProcessingQueue (fst (loop_head s)) = false ->
  forall id, In id (fileQueue (fst (loop_head s))) ->
             status_of (items (fst (loop_head s))) id <> Some pending.
Proof.
  unfold loop_head. destruct (fileQueue s) as [|id0 q] eqn:Hq.
  - cbn [fst fileQueue]. intros _ id [].
  - destruct (findPending (items s) (id0 :: q)) eqn:Hfind.
    + cbn [fst isProcessingQueue]. discriminate.
    + cbn [fst fileQueue items]. intros _.
      apply findPending_none; exact Hfind.
Qed.

Lemma loop_head_manifest s :
  parsedChecksums (fst (loop_head s)) = parsedChecksums s
  /\ verifiedFiles (fst (loop_head s)) = verifiedFiles s.
Proof.
  unfold loop_head. destruct (fileQueue s); [split; reflexivity|].
  destruct (findPending _ _); split; reflexivity.
Qed.

Section AtRest.

Context (hashwasm sha256 : Sha256).

(** Whenever the queue is not processing, no file of the queue is waiting:
    every file still in the queue was handed to [verifyFileChecksum]. *)
Theorem idle_queue_has_no_pending_file manifest s tr :
  Queue.reaches hashwasm sha256 manifest s tr ->
  isProcessingQueue s = false ->
  forall id, In id (fileQueue s) -> status_of (items s) id <> Some pending.
Proof.
  induction 1 as [|s tr i Hreach IH].
  - intros _ id [].
  - destruct i as [files userConfirmed | e escaped |]; cbn [step].
    + unfold handleChecksumFileUpload.
      destruct files as [|f files]; [exact IH|].
      destruct (Obj.keys (parsedChecksums s)); [exact IH|].
      destruct (filesNotInList _ _) as [notInList|]; [|exact IH].
      destruct (_ && negb userConfirmed); [exact IH|].
      match goal with
      | |- context [if isProcessingQueue ?q then _ else _] =>
          destruct (isProcessingQueue q) eqn:Hflag
      end.
      * cbn [fst]. cbn [isProcessingQueue] in *. congruence.
      * unfold processQueue. rewrite Hflag.
        match goal with
        | |- context [loop_head ?x] =>
            destruct (loop_head x) as [s' eff] eqn:Hloop;
            pose proof (loop_head_at_rest x) as Hrest; rewrite Hloop in Hrest
        end.
        cbn [fst] in *. exact Hrest.
    + unfold job_settled. destruct (queueItem s) as [id|]; [|exact IH].
      destruct (nth_error (items s) id) as [it|]; [|exact IH].
      destruct escaped as [msg|].
      * match goal with
        | |- context [loop_head ?x] =>
            destruct (loop_head x) as [s' eff] eqn:Hloop;
            pose proof (loop_head_at_rest x) as Hrest; rewrite Hloop in Hrest
        end.
        cbn [fst] in *. exact Hrest.
      * destruct (verifyFileChecksum _ _ _ _ _ _) as [v r].
        match goal with
        | |- context [loop_head ?x] =>
            destruct (loop_head x) as [s' eff] eqn:Hloop;
            pose proof (loop_head_at_rest x) as Hrest; rewrite Hloop in Hrest
        end.
        cbn [fst] in *. exact Hrest.
    + unfold timer_fired. destruct (timers s); [exact IH|].
      cbn [fst fileQueue]. intros _ id [].
Qed.

End AtRest.

(** ** The checksum section *)

Lemma get_none_keys (o : Obj.obj) (k : jsstring) :
  Obj.get o k = None <-> ~ In k (map fst o).
Proof.
  induction o as [|[k' v'] o IH]; cbn [Obj.get map In fst]; [tauto|].
  destruct (JS.eqb k k') eqn:Hk.
  - apply jsstring_eqb_eq in Hk. subst. split; [discriminate | tauto].
  - apply jsstring_eqb_neq in Hk. rewrite IH. split.
    + intros H [E|Hin]; [congruence | tauto].
    + tauto.
Qed.

Lemma define_keys (o : Obj.obj) (k v : jsstring) :
  map fst (Obj.define o k v)
  = if Obj.hasOwnProperty o k then map fst o else map fst o ++ [k].
Proof.
  unfold Obj.hasOwnProperty.
  induction o as [|[k' v'] o IH]; cbn [Obj.define Obj.get map fst app]; [reflexivity|].
  destruct (JS.eqb k k') eqn:Hk; cbn [map fst]; [reflexivity|].
  rewrite IH. destruct (Obj.get o k); reflexivity.
Qed.

(** Assignments keep the names of an object distinct. *)
Lemma set_nodup (o : Obj.obj) (k v : jsstring) :
  NoDup (map fst o) -> NoDup (map fst (Obj.set o k v)).
Proof.
  intros H. unfold Obj.set. destruct (JS.eqb k Obj.proto); [exact H|].
  rewrite define_keys. unfold Obj.hasOwnProperty.
  destruct (Obj.get o k) eqn:Hget; [exact H|].
  apply get_none_keys in Hget.
  apply NoDup_rev in H. rewrite <- (rev_involutive (map fst o ++ [k])).
  apply NoDup_rev. rewrite rev_app_distr. cbn [rev app].
  constructor; [|exact H]. rewrite <- in_rev. exact Hget.
Qed.

Lemma parseChecksums_nodup (content : jsstring) :
  NoDup (map fst (parseChecksums content)).
Proof.
  unfold parseChecksums.
  assert (H : forall lines o, NoDup (map fst o) ->
                              NoDup (map fst (fold_left parse_line lines o))).
  { induction lines as [|line lines IH]; intros o Ho; cbn [fold_left]; [exact Ho|].
    apply IH.
    destruct (parse_line_cases o line) as [->|(f & h & -> & _)]; [exact Ho|].
    apply set_nodup; exact Ho. }
  apply H. constructor.
Qed.

Lemma in_get (o : Obj.obj) (k v : jsstring) :
  NoDup (map fst o) -> In (k, v) o -> Obj.get o k = Some v.
Proof.
  induction o as [|[k' v'] o IH]; cbn [map fst In Obj.get]; [tauto|].
  intros Hnd [E|Hin].
  - inversion E; subst. rewrite jsstring_eqb_refl. reflexivity.
  - inversion Hnd; subst. destruct (JS.eqb k k') eqn:Hk.
    + apply jsstring_eqb_eq in Hk. subst. exfalso.
      apply H1. apply (in_map fst) in Hin. exact Hin.
    + apply IH; assumption.
Qed.

Lemma add_In (V : list jsstring) (x y : jsstring) :
  In y (add V x) <-> In y V \/ y = x.
Proof.
  unfold add. destruct (existsb (JS.eqb x) V) eqn:Hex.
  - apply existsb_exists in Hex as (z & Hz & Heq).
    apply jsstring_eqb_eq in Heq. subst z. split; [tauto|].
    intros [H| ->]; assumption.
  - rewrite in_app_iff. cbn [In]. split; intros [H|H]; auto.
    + destruct H as [H|[]]. auto.
Qed.

Lemma add_nodup (V : list jsstring) (x : jsstring) : NoDup V -> NoDup (add V x).
Proof.
  intros H. unfold add. destruct (existsb (JS.eqb x) V) eqn:Hex; [exact H|].
  apply NoDup_rev in H. rewrite <- (rev_involutive (V ++ [x])).
  apply NoDup_rev. rewrite rev_app_distr. cbn [rev app].
  constructor; [|exact H]. rewrite <- in_rev. intros Hin.
  assert (Ht : existsb (JS.eqb x) V = true).
  { apply existsb_exists. exists x. split; [exact Hin | apply jsstring_eqb_refl]. }
  congruence.
Qed.

Section PanelFacts.

Context (hashwasm sha256 : Sha256).

(** What a job can do to the set of verified files: nothing, or the
    addition of the name of an entry whose digest is the one computed. *)
Lemma verify_marks_entries M V e f :
  NoDup (map fst M) ->
  fst (verifyFileChecksum hashwasm sha256 M V e f) = V
  \/ exists m h,
       fst (verifyFileChecksum hashwasm sha256 M V e f) = add V m
       /\ Obj.get M m = Some h /\ List.length h = 64%nat.
Proof.
  intros Hnd. unfold verifyFileChecksum.
  destruct (Obj.values M); [left; reflexivity|].
  destruct (calculateFileHash hashwasm sha256 e f) as [[[c|err] t] log] eqn:Hcalc.
  2:{ destruct (Hashing.verificationAborted e t); left; reflexivity. }
  apply calculateFileHash_digest_length in Hcalc.
  destruct (lookup M (name f) c) as [[x y]|] eqn:Hlookup; [|left; reflexivity].
  destruct (truthy x && Obj.strict_eqb y c) eqn:Hok.
  - right. apply andb_true_iff in Hok as [_ Heq].
    destruct y as [|v|k]; try discriminate.
    cbn [Obj.strict_eqb] in Heq. apply jsstring_eqb_eq in Heq. subst v.
    apply lookup_string in Hlookup. exists x, c. cbn [fst].
    split; [reflexivity|]. split; [apply in_get; assumption | exact Hcalc].
  - left. destruct (Obj.truthy_value y && negb _); reflexivity.
Qed.

(** An event of the queue leaves the manifest alone and changes the set of
    verified files, if at all, by one such addition. *)
Lemma queue_step_marks s i :
  NoDup (map fst (parsedChecksums s)) ->
  parsedChecksums (fst (Queue.step hashwasm sha256 s i)) = parsedChecksums s
  /\ (verifiedFiles (fst (Queue.step hashwasm sha256 s i)) = verifiedFiles s
      \/ exists m h,
           verifiedFiles (fst (Queue.step hashwasm sha256 s i))
           = add (verifiedFiles s) m
           /\ Obj.get (parsedChecksums s) m = Some h
           /\ List.length h = 64%nat).
Proof.
  intros Hnd. destruct i as [files userConfirmed | e escaped |]; cbn [Queue.step].
  - unfold handleChecksumFileUpload.
    destruct files as [|f files]; [auto|].
    destruct (Obj.keys (parsedChecksums s)); [auto|].
    destruct (filesNotInList _ _) as [notInList|]; [|auto].
    destruct (_ && negb userConfirmed); [auto|].
    match goal with
    | |- context [if isProcessingQueue ?q then _ else _] =>
        destruct (isProcessingQueue q) eqn:Hflag
    end; [cbn [fst parsedChecksums verifiedFiles]; auto|].
    unfold processQueue. rewrite Hflag.
    match goal with
    | |- context [loop_head ?x] =>
        destruct (loop_head_manifest x) as [Hm Hv];
        destruct (loop_head x) as [s' eff]
    end.
    cbn [fst parsedChecksums verifiedFiles] in *. rewrite Hm, Hv. auto.
  - unfold job_settled. destruct (queueItem s) as [id|]; [|auto].
    destruct (nth_error (items s) id) as [it|]; [|auto].
    destruct escaped as [msg|].
    + match goal with
      | |- context [loop_head ?x] =>
          destruct (loop_head_manifest x) as [Hm Hv];
          destruct (loop_head x) as [s' eff]
      end.
      cbn [fst parsedChecksums verifiedFiles] in *. rewrite Hm, Hv. auto.
    + pose proof (@verify_marks_entries (parsedChecksums s) (verifiedFiles s) e
                    (file it) Hnd) as Hmark.
      destruct (verifyFileChecksum _ _ _ _ _ _) as [v r].
      match goal with
      | |- context [loop_head ?x] =>
          destruct (loop_head_manifest x) as [Hm Hv];
          destruct (loop_head x) as [s' eff]
      end.
      cbn [fst parsedChecksums verifiedFiles] in *. rewrite Hm, Hv.
      split; [reflexivity | exact Hmark].
  - unfold timer_fired. destruct (timers s); cbn [fst]; auto.
Qed.

(** What holds of the add-on between two handlers. *)
Lemma panel_invariant p :
  Panel.reaches hashwasm sha256 p ->
  parsedChecksums (Panel.queue p) = parseChecksums (Panel.verifiedContent p)
  /\ NoDup (verifiedFiles (Panel.queue p))
  /\ forall x, In x (verifiedFiles (Panel.queue p)) ->
               exists h, Obj.get (parsedChecksums (Panel.queue p)) x = Some h
                         /\ List.length h = 64%nat.
Proof.
  induction 1 as [|p ev Hreach (Hm & Hnd & Hin)].
  - cbn. split; [reflexivity|]. split; [constructor | intros x []].
  - destruct ev as [i | content |]; cbn [Panel.step].
    + cbn [Panel.queue Panel.verifiedContent].
      assert (Hkeys : NoDup (map fst (parsedChecksums (Panel.queue p))))
        by (rewrite Hm; apply parseChecksums_nodup).
      destruct (queue_step_marks (Panel.queue p) i Hkeys)
        as [Hm' [Hv' | (m & h & Hv' & Hget & Hlen)]]; rewrite Hm', Hv'.
      * auto.
      * split; [exact Hm|]. split; [apply add_nodup; exact Hnd|].
        intros x Hx. apply add_In in Hx as [Hx | ->]; [auto | eauto].
    + unfold Panel.showChecksumSection.
      destruct (containsChecksums content);
        cbn [negb Panel.queue Panel.verifiedContent]; [|auto].
      cbn [Panel.with_manifest parsedChecksums verifiedFiles].
      split; [reflexivity|].
      destruct (JS.eqb (Panel.verifiedContent p) content) eqn:Heq; cbn [negb].
      * apply jsstring_eqb_eq in Heq. subst content. rewrite <- Hm. auto.
      * split; [constructor | intros x []].
    + cbn. split; [reflexivity|]. split; [constructor | intros x []].
Qed.

(** Every file marked as verified is an entry of the manifest now loaded,
    under a digest of 64 characters, and its row of the list is ticked;
    the header never counts more verified files than entries. *)
Theorem verified_files_are_manifest_entries p :
  Panel.reaches hashwasm sha256 p ->
  let shown :=
    Panel.displayChecksumList (parsedChecksums (Panel.queue p))
      (verifiedFiles (Panel.queue p)) in
  (forall x,
     In x (verifiedFiles (Panel.queue p)) ->
     exists h,
       Obj.get (parsedChecksums (Panel.queue p)) x = Some h
       /\ List.length h = 64%nat
       /\ In (x, h, true) (Panel.rows shown))
  /\ (Panel.verifiedCount shown <= Panel.count shown)%nat.
Proof.
  intros Hreach shown.
  destruct (panel_invariant Hreach) as (Hm & Hnd & Hin).
  assert (Hrow : forall x,
            In x (verifiedFiles (Panel.queue p)) ->
            exists h,
              Obj.get (parsedChecksums (Panel.queue p)) x = Some h
              /\ List.length h = 64%nat
              /\ In (x, h, true) (Panel.rows shown)).
  { intros x Hx. destruct (Hin x Hx) as (h & Hget & Hlen).
    exists h. split; [exact Hget|]. split; [exact Hlen|].
    unfold shown, Panel.displayChecksumList. cbn [Panel.rows].
    apply in_map_iff. exists (x, h). cbn [fst snd]. split.
    - f_equal. apply existsb_exists. exists x.
      split; [exact Hx | apply jsstring_eqb_refl].
    - apply entries_In. apply get_In. exact Hget. }
  split; [exact Hrow|].
  unfold shown, Panel.displayChecksumList. cbn [Panel.verifiedCount Panel.count].
  apply NoDup_incl_length; [exact Hnd|].
  intros x Hx. destruct (Hin x Hx) as (h & Hget & _).
  unfold Obj.keys. apply in_map_iff. exists (x, h). split; [reflexivity|].
  apply entries_In. apply get_In. exact Hget.
Qed.

End PanelFacts.

(** Showing the same verified text again changes nothing: the marks of the
    files already verified are kept. *)
Theorem showing_again_changes_nothing (p : Panel.State) (content : jsstring) :
  Panel.showChecksumSection (Panel.showChecksumSection p content) content
  = Panel.showChecksumSection p content.
Proof.
  unfold Panel.showChecksumSection.
  destruct (containsChecksums content) eqn:Hdet; cbn [negb].
  - cbn [Panel.queue Panel.verifiedContent Panel.with_manifest verifiedFiles
         items fileQueue isProcessingQueue queueItem timers].
    rewrite jsstring_eqb_refl. cbn [negb]. reflexivity.
  - cbn [Panel.queue Panel.verifiedContent]. reflexivity.
Qed.

(** ** Markers in a text *)

Lemma occurs_at_head_spec (sub s : jsstring) :
  App.occurs_at_head sub s = true <-> exists b, s = sub ++ b.
Proof.
  revert s; induction sub as [|a sub IH]; intros s; cbn [App.occurs_at_head app].
  - split; [eauto | reflexivity].
  - destruct s as [|x s].
    + split; [discriminate | intros [b H]; discriminate].
    + rewrite andb_true_iff, N.eqb_eq, IH. split.
      * intros [-> [b ->]]. eauto.
      * intros [b H]. inversion H; subst. eauto.
Qed.

(** [includes] is the occurrence of the marker somewhere in the text. *)
Lemma includes_spec (s sub : jsstring) :
  App.includes s sub = true <-> exists a b, s = a ++ sub ++ b.
Proof.
  induction s as [|x s IH]; cbn [App.includes].
  - rewrite orb_false_r, occurs_at_head_spec. split.
    + intros [b H]. exists [], b. exact H.
    + intros (a & b & H). destruct a as [|y a]; [eauto | discriminate].
  - rewrite orb_true_iff, occurs_at_head_spec, IH. split.
    + intros [[b H] | (a & b & H)].
      * exists [], b. exact H.
      * exists (x :: a), b. rewrite H. reflexivity.
    + intros (a & b & H). destruct a as [|y a].
      * left. eauto.
      * right. inversion H; subst. eauto.
Qed.

Lemma includes_inside (s sub pre post : jsstring) :
  App.includes s (pre ++ sub ++ post) = true -> App.includes s sub = true.
Proof.
  rewrite !includes_spec. intros (a & b & ->).
  exists (a ++ pre), (post ++ b). rewrite <- !app_assoc. reflexivity.
Qed.

(** Every text with the marker of a signature holds the marker looked for
    in a public key. *)
Lemma signature_marker_holds_key_marker (text : jsstring) :
  App.includes text App.SIGNATURE = true -> App.includes text App.PUBLIC_KEY = true.
Proof.
  apply (@includes_inside text App.PUBLIC_KEY (js "-----") (js " SIGNATURE-----")).
Qed.

(** [detectSignatureType] answers by the markers that occur in the text,
    the marker of a clearsigned message first. *)
Theorem signature_type_by_markers (content : jsstring) :
  (App.detectSignatureType content = Some App.CLEARSIGNED
   <-> exists a b, content = a ++ App.SIGNED_MESSAGE ++ b)
  /\ (App.detectSignatureType content = Some App.INLINE
      <-> (exists a b, content = a ++ App.MESSAGE ++ b)
          /\ ~ exists a b, content = a ++ App.SIGNED_MESSAGE ++ b)
  /\ (App.detectSignatureType content = None
      <-> (~ exists a b, content = a ++ App.MESSAGE ++ b)
          /\ ~ exists a b, content = a ++ App.SIGNED_MESSAGE ++ b).
Proof.
  unfold App.detectSignatureType. rewrite <- !includes_spec.
  destruct (App.includes content App.SIGNED_MESSAGE);
    destruct (App.includes content App.MESSAGE);
    repeat split; try tauto; try congruence; try discriminate;
    try (intros [H1 H2]; congruence); try (intros H; exfalso; apply H; reflexivity).
Qed.

(** ** The key section *)

Section KeyPaste.

Variable Key : Type.

Lemma autoVerify_notices (s : App.state Key) :
  App.autoVerify s = [App.VerifyScheduled] \/ App.autoVerify s = [].
Proof.
  unfold App.autoVerify.
  destruct (App.truthy_text (App.publicKey s) && _ && _); auto.
Qed.

(** A pasted text is turned away from the key section only for the marker
    of a clearsigned message: the test on the marker of a signature can
    never hold, and a bare signature block is stored as the public key. *)
Theorem pasted_signature_is_taken_as_key
    (readKeys : jsstring -> option (list Key)) (s : App.state Key)
    (value : jsstring) :
  trim value <> [] ->
  App.includes (trim value) App.SIGNED_MESSAGE = false ->
  (App.includes (trim value) App.SIGNATURE
   && negb (App.includes (trim value) App.PUBLIC_KEY)) = false
  /\ App.publicKey (fst (App.handleKeyTextPaste readKeys s value))
     = Some (trim value)
  /\ ~ In App.WrongSection (snd (App.handleKeyTextPaste readKeys s value)).
Proof.
  intros Hne Hsm.
  assert (Hdead : (App.includes (trim value) App.SIGNATURE
                   && negb (App.includes (trim value) App.PUBLIC_KEY)) = false).
  { destruct (App.includes (trim value) App.SIGNATURE) eqn:Hsig; [|reflexivity].
    rewrite (signature_marker_holds_key_marker _ Hsig). reflexivity. }
  split; [exact Hdead|].
  unfold App.handleKeyTextPaste.
  destruct (trim value) as [|x t] eqn:Ht; [congruence|].
  rewrite Hsm, Hdead. cbn [orb fst snd App.publicKey].
  split; [reflexivity|].
  generalize (if App.includes (x :: t) App.PUBLIC_KEY then readKeys (x :: t)
              else App.publicKeyObjects s).
  intros [[|k ks]|]; cbn [In]; try tauto.
  match goal with
  | |- context [App.autoVerify ?r] =>
      destruct (autoVerify_notices r) as [E | E]; rewrite E
  end; cbn [In]; [|tauto].
  intros [H|[]]; discriminate.
Qed.

End KeyPaste.

(** ** The page of the main script *)

Section PageFacts.

Variable Key : Type.

Local Abbreviation state := (App.state Key).
Local Abbreviation page := (App.page Key).

Lemma reset_click_clears_facts (p : page) :
  let p' := App.resetBtn_click p in
  App.publicKey (App.app p') = None
  /\ App.publicKeyObjects (App.app p') = None
  /\ App.signedFile (App.app p') = None
  /\ App.signedText (App.app p') = None
  /\ App.detachedSignature (App.app p') = None
  /\ App.dataFile (App.app p') = None
  /\ App.isVerifying (App.app p') = false
  /\ App.verificationAborted (App.app p') = App.verificationAborted (App.app p).
Proof.
  unfold App.resetBtn_click, App.resetAll. cbn [App.force_of negb].
  rewrite !andb_false_r. cbn. repeat split; reflexivity.
Qed.

(** A click on the Start Over / Stop button runs [resetAll] with the event
    as [force]: even while a verification is running it clears the key,
    the signed inputs and the add-on, and it never sets the stop flag;
    called without argument in that situation, [resetAll] would only have
    set the flag and kept the inputs. *)
Theorem reset_click_clears_while_verifying (p : page) :
  (let p' := App.resetBtn_click p in
   App.publicKey (App.app p') = None
   /\ App.publicKeyObjects (App.app p') = None
   /\ App.signedFile (App.app p') = None
   /\ App.signedText (App.app p') = None
   /\ App.detachedSignature (App.app p') = None
   /\ App.dataFile (App.app p') = None
   /\ App.isVerifying (App.app p') = false
   /\ App.verificationAborted (App.app p') = App.verificationAborted (App.app p)
   /\ App.resetBtn_disabled p' = App.resetBtn_disabled p
   /\ App.addon p' = option_map Panel.hideChecksumSection (App.addon p))
  /\ (App.isVerifying (App.app p) = true ->
      let p' := App.resetAll App.no_argument p in
      App.verificationAborted (App.app p') = true
      /\ App.publicKey (App.app p') = App.publicKey (App.app p)
      /\ App.signedFile (App.app p') = App.signedFile (App.app p)
      /\ App.signedText (App.app p') = App.signedText (App.app p)
      /\ App.detachedSignature (App.app p') = App.detachedSignature (App.app p)
      /\ App.dataFile (App.app p') = App.dataFile (App.app p)
      /\ App.addon p' = App.addon p).
Proof.
  split.
  - unfold App.resetBtn_click, App.resetAll. cbn [App.force_of negb].
    rewrite !andb_false_r. cbn. repeat split; reflexivity.
  - intros Hv. unfold App.resetAll, App.stopVerification.
    cbn [App.force_of negb]. rewrite Hv. cbn. repeat split; reflexivity.
Qed.

Lemma handlers_keep_flag (p : page) (ev : App.event Key) :
  App.verificationAborted (App.app p) = false ->
  App.verificationAborted (App.app (App.step p ev)) = false.
Proof.
  intros Hflag.
  destruct ev as [a upl | readKeys value | | upl | value | upl | | | | | after];
    cbn [App.step App.on_state App.app App.resetBtn_disabled].
  - unfold App.handleKeyFileUpload.
    destruct (App.first_byte upl) as [first|]; [|auto].
    destruct (App.isBinaryKey first).
    + destruct (App.readFileAsBinary_ok a); cbn [negb]; [|auto].
      destruct (App.readKeys_binary a) as [[|k ks]|];
        try (destruct (App.readKey_binary a)); cbn; auto.
    + destruct (App.readFileAsText a) as [text|]; [|auto].
      destruct (App.includes text App.PUBLIC_KEY); cbn; auto.
  - unfold App.handleKeyTextPaste. destruct (trim value); [cbn; auto|].
    destruct (_ || _); cbn; auto.
  - cbn; auto.
  - unfold App.handleSignedFileUpload.
    destruct (App.first_byte upl) as [first|]; [|cbn; auto].
    destruct (App.is_set (App.preview upl) && _); [auto|].
    destruct (_ || App.isBinarySignature first); [cbn; auto|].
    destruct (negb _ && negb _); cbn; auto.
  - unfold App.handleSignedTextPaste. destruct (trim value); [cbn; auto|].
    destruct (App.includes _ App.PUBLIC_KEY_BLOCK); [auto|].
    destruct (negb _); cbn; auto.
  - unfold App.handleDetachedDataFileUpload.
    destruct (_ && _); cbn; auto.
  - cbn; auto.
  - unfold App.resetBtn_click, App.resetAll. cbn [App.force_of negb].
    rewrite !andb_false_r. cbn. auto.
  - destruct (App.verifySignature_enters (App.app p)); cbn; auto.
  - cbn; auto.
  - cbn; auto.
Qed.

(** On every page reached through the listeners, the stop flag of the main
    script is clear: no listener ever takes the path of
    [stopVerification], the only place that sets it. *)
Theorem stop_flag_is_never_set (addon : option Panel.State) (p : page) :
  App.reaches addon p ->
  App.verificationAborted (App.app p) = false.
Proof.
  induction 1 as [disabled|p ev Hreach Hflag].
  - reflexivity.
  - apply handlers_keep_flag; assumption.
Qed.

Lemma steps_keep_flag (evs : list (App.event Key)) (p : page) :
  App.verificationAborted (App.app p) = false ->
  App.verificationAborted (App.app (fold_left (@App.step Key) evs p)) = false.
Proof.
  revert p. induction evs as [|ev evs IH]; intros p Hflag; cbn [fold_left];
    [exact Hflag|].
  apply IH. apply handlers_keep_flag. exact Hflag.
Qed.

(** Whatever is clicked, typed or chosen while a run of [verifySignature]
    is suspended, the run reads the flag as clear. *)
Lemma flag_stays_clear (p : page) (handled : nat -> list (App.event Key)) :
  App.verificationAborted (App.app p) = false ->
  forall t, App.flag_during p handled t = false.
Proof.
  intros Hflag t. unfold App.flag_during.
  induction t as [|t IH]; cbn [App.page_during]; [exact Hflag|].
  apply steps_keep_flag. exact IH.
Qed.

(** C8: the loop that drains the verified stream reads the flag at every
    chunk boundary, but no click sets it.  On a page where the detached
    branch runs, whatever events are handled while the branch is
    suspended, clicks on the Stop button among them, the branch does what
    it does on a page left alone: the loop is never left by its [return],
    the run ends in the error display whenever the library rejects (the
    call, the stream or the signature) and in the success display
    otherwise.  What a click on Stop does is [resetAll] with the event as
    [force]: the stop flag stays clear and [state.dataFile] is emptied, so
    that the stream closes at its next [pull]. *)
Theorem stop_click_does_not_cancel (p : page)
    (handled : nat -> list (App.event Key)) (c : crypto)
    (verifiedDataContent : option jsstring) :
  App.verificationAborted (App.app p) = false ->
  (forall t, App.flag_during p handled t = false)
  /\ verify_detached (App.flag_during p handled) c verifiedDataContent
     = verify_detached never_set c verifiedDataContent
  /\ (forall n,
        fst (verify_detached (App.flag_during p handled) c verifiedDataContent)
        <> cancelled_in_drain n)
  /\ (verify_throws c = true \/ verified_rejects c = true
      \/ (exists lens, data c = ReadableStream lens fails) ->
      fst (verify_detached (App.flag_during p handled) c verifiedDataContent)
      = caught
      /\ In showError
           (snd (verify_detached (App.flag_during p handled) c
                   verifiedDataContent)))
  /\ (fst (verify_detached (App.flag_during p handled) c verifiedDataContent)
      = ran_to_end ->
      In (showSuccess verifiedDataContent)
        (snd (verify_detached (App.flag_during p handled) c verifiedDataContent)))
  /\ (forall t,
        handled t = [App.ResetClicked Key] ->
        App.flag_during p handled (S t) = false
        /\ App.dataFile_during p handled (S t) = None
        /\ forall dataFileSize st,
             snd (Stream.pull (App.flag_during p handled (S t)) None
                    dataFileSize st)
             = Stream.close).
Proof.
  intros Hflag.
  pose proof (flag_stays_clear p handled Hflag) as Hclear.
  assert (Hsame : verify_detached (App.flag_during p handled) c verifiedDataContent
                  = verify_detached never_set c verifiedDataContent).
  { apply verify_detached_ext. intros t. rewrite Hclear. reflexivity. }
  split; [exact Hclear|]. split; [exact Hsame|]. rewrite Hsame.
  destruct (unflagged_run_is_not_silent c verifiedDataContent) as (H1 & H2 & H3).
  split; [exact H1|]. split; [exact H2|]. split; [exact H3|].
  intros t Ht. split; [apply Hclear|]. split.
  - unfold App.dataFile_during. cbn [App.page_during]. rewrite Ht.
    cbn [fold_left App.step].
    destruct (reset_click_clears_facts (App.page_during p handled t))
      as (_ & _ & _ & _ & _ & Hdata & _).
    exact Hdata.
  - intros size st. rewrite Hclear. unfold Stream.pull.
    destruct (N.leb _ _); reflexivity.
Qed.

Lemma typed_text (t : jsstring) :
  (App.includes t App.SIGNED_MESSAGE || App.includes t App.MESSAGE) = true ->
  App.detectSignatureType t <> None.
Proof.
  unfold App.detectSignatureType.
  destruct (App.includes t App.SIGNED_MESSAGE); [discriminate|].
  destruct (App.includes t App.MESSAGE); discriminate.
Qed.

Lemma handlers_keep_text_typed (p : page) (ev : App.event Key) :
  (forall t, App.signedText (App.app p) = Some t ->
             t <> [] /\ App.detectSignatureType t <> None) ->
  forall t, App.signedText (App.app (App.step p ev)) = Some t ->
            t <> [] /\ App.detectSignatureType t <> None.
Proof.
  intros Hinv.
  destruct ev as [a upl | readKeys value | | upl | value | upl | | | | | after];
    cbn [App.step App.on_state App.app].
  - unfold App.handleKeyFileUpload.
    destruct (App.first_byte upl) as [first|]; [|exact Hinv].
    destruct (App.isBinaryKey first).
    + destruct (App.readFileAsBinary_ok a); cbn [negb]; [|exact Hinv].
      destruct (App.readKeys_binary a) as [[|k ks]|];
        try (destruct (App.readKey_binary a)); cbn; exact Hinv.
    + destruct (App.readFileAsText a) as [text|]; [|exact Hinv].
      destruct (App.includes text App.PUBLIC_KEY); cbn; exact Hinv.
  - unfold App.handleKeyTextPaste. destruct (trim value); [cbn; exact Hinv|].
    destruct (_ || _); cbn; exact Hinv.
  - cbn; exact Hinv.
  - unfold App.handleSignedFileUpload.
    destruct (App.first_byte upl) as [first|]; [|cbn; exact Hinv].
    destruct (App.is_set (App.preview upl) && _); [exact Hinv|].
    destruct (_ || App.isBinarySignature first); [cbn; discriminate|].
    destruct (negb _ && negb _); cbn; [exact Hinv | discriminate].
  - unfold App.handleSignedTextPaste. destruct (trim value) as [|x text] eqn:Ht;
      [cbn; discriminate|].
    destruct (App.includes _ App.PUBLIC_KEY_BLOCK); [exact Hinv|].
    destruct (App.includes (x :: text) App.SIGNED_MESSAGE
              || App.includes (x :: text) App.MESSAGE) eqn:Hvalid;
      cbn [negb fst App.signedText]; [|exact Hinv].
    intros t E. inversion E; subst t. split; [discriminate|].
    apply typed_text; exact Hvalid.
  - unfold App.handleDetachedDataFileUpload.
    destruct (_ && _); cbn; exact Hinv.
  - cbn; discriminate.
  - unfold App.resetBtn_click, App.resetAll. cbn [App.force_of negb].
    rewrite !andb_false_r. cbn. discriminate.
  - destruct (App.verifySignature_enters (App.app p)); cbn; exact Hinv.
  - cbn; exact Hinv.
  - cbn; exact Hinv.
Qed.

(** On every page reached through the listeners, the signed text kept for
    verification is not empty and [detectSignatureType] finds its type: a
    verification of pasted text never ends for want of a signature
    marker. *)
Theorem pasted_text_always_has_a_type (addon : option Panel.State) (p : page)
    (t : jsstring) :
  App.reaches addon p ->
  App.signedText (App.app p) = Some t ->
  t <> [] /\ App.detectSignatureType t <> None.
Proof.
  intros Hreach. revert t. induction Hreach as [|p ev Hreach IH].
  - cbn. discriminate.
  - apply handlers_keep_text_typed; exact IH.
Qed.

(** The first byte decides before the markers are looked at: a readable
    file whose first byte has its high bit set, and whose preview does not
    show a public key block, is stored as a detached signature, whatever
    message markers the preview holds, and the other signed inputs are
    cleared. *)
Theorem high_bit_file_is_a_detached_signature (s : state)
    (upl : App.UploadedFile) (b : N) :
  App.first_byte upl = Some (Some b) ->
  (128 <= b < 256)%N ->
  match App.preview upl with
  | Some text => App.includes text App.PUBLIC_KEY_BLOCK = false
  | None => True
  end ->
  fst (App.handleSignedFileUpload s upl)
  = {| App.publicKey := App.publicKey s;
       App.publicKeyObjects := App.publicKeyObjects s;
       App.signedFile := None; App.signedText := None;
       App.detachedSignature := Some upl; App.dataFile := None;
       App.isVerifying := App.isVerifying s;
       App.verificationAborted := App.verificationAborted s |}.
Proof.
  intros Hfirst Hb Hkey. unfold App.handleSignedFileUpload. rewrite Hfirst.
  assert (Hbin : App.isBinarySignature (Some b) = true).
  { unfold App.isBinarySignature.
    assert (Hland : N.land b 128 = 128%N).
    { apply N.bits_inj. intros n. rewrite N.land_spec.
      change 128%N with (2 ^ 7)%N. rewrite N.pow2_bits_eqb.
      destruct (N.eqb_spec 7 n) as [<-|Hn]; [|apply andb_false_r].
      rewrite andb_true_r. rewrite N.testbit_eqb.
      change (2 ^ 7)%N with 128%N.
      assert (Hdiv : (b / 128 = 1)%N).
      { symmetry. apply (N.div_unique b 128 1 (b - 128)); lia. }
      rewrite Hdiv. reflexivity. }
    rewrite Hland. rewrite N.eqb_refl, orb_true_r. reflexivity. }
  rewrite Hbin.
  destruct (App.preview upl) as [text|]; cbn [App.is_set andb].
  - rewrite Hkey. rewrite orb_true_r. reflexivity.
  - reflexivity.
Qed.

End PageFacts.

(** ** The stream of the data file *)

Section StreamFacts.

Local Open Scope N_scope.

Lemma ceil_step (r cs : N) :
  0 < cs -> 0 < r ->
  (r + cs - 1) / cs = 1 + (r - N.min cs r + cs - 1) / cs.
Proof.
  intros Hcs Hr. destruct (N.le_gt_cases r cs) as [Hle | Hgt].
  - rewrite N.min_r by exact Hle. rewrite N.sub_diag, N.add_0_l.
    rewrite (N.div_small (cs - 1) cs) by lia.
    symmetry. apply (N.div_unique (r + cs - 1) cs 1 (r - 1)); lia.
  - rewrite N.min_l by lia.
    replace (r + cs - 1) with ((r - cs + cs - 1) + 1 * cs) by lia.
    rewrite N.div_add by lia. lia.
Qed.

Lemma slice_length (f : File) (a b : N) :
  a <= b -> b <= size f -> N.of_nat (List.length (slice f a b)) = b - a.
Proof.
  intros Hab Hb. unfold slice. unfold size in Hb.
  rewrite length_firstn, length_skipn. lia.
Qed.

(** From any offset, with enough calls allowed, the stream delivers the
    rest of the file and closes. *)
Lemma pulls_from (f : File) (fuel : nat) :
  forall st,
    Stream.offset st <= size f ->
    size f - Stream.offset st + Stream.chunkSize
    <= N.of_nat fuel * Stream.chunkSize ->
    exists views final,
      Stream.pulls fuel (Some f) (size f) st = (views, Some final)
      /\ concat views = skipn (N.to_nat (Stream.offset st)) (content f)
      /\ Forall (fun view => N.of_nat (List.length view) <= Stream.chunkSize) views
      /\ N.of_nat (List.length views)
         = (size f - Stream.offset st + Stream.chunkSize - 1) / Stream.chunkSize
      /\ Stream.offset final = size f
      /\ Stream.processedBytes final
         = Stream.processedBytes st + (size f - Stream.offset st)
      /\ Stream.chunkCount final
         = Stream.chunkCount st + N.of_nat (List.length views)
      /\ Stream.pullCallCount final
         = Stream.pullCallCount st + N.of_nat (List.length views) + 1.
Proof.
  assert (Hcs : Stream.chunkSize = 65536) by reflexivity.
  induction fuel as [|fuel IH]; intros st Hle Hfuel; [rewrite Hcs in *; lia|].
  cbn [Stream.pulls]. unfold Stream.pull.
  cbn [Stream.offset Stream.processedBytes Stream.chunkCount Stream.pullCallCount].
  destruct (N.leb_spec (size f) (Stream.offset st)) as [Hend | Hmore].
  - assert (Heq : Stream.offset st = size f) by lia.
    eexists. eexists. split; [reflexivity|].
    cbn [concat List.length Stream.offset Stream.processedBytes
         Stream.chunkCount Stream.pullCallCount].
    rewrite Heq, N.sub_diag. unfold size. rewrite Nat2N.id, skipn_all.
    repeat split; try lia; try constructor.
  - set (stop := N.min (Stream.offset st + Stream.chunkSize) (size f)).
    set (view := slice f (Stream.offset st) stop).
    set (st' := {| Stream.offset := stop;
                   Stream.processedBytes :=
                     Stream.processedBytes st + N.of_nat (List.length view);
                   Stream.chunkCount := Stream.chunkCount st + 1;
                   Stream.pullCallCount := Stream.pullCallCount st + 1 |}).
    assert (Hview : N.of_nat (List.length view) = stop - Stream.offset st)
      by (apply slice_length; unfold stop; lia).
    destruct (IH st') as (views & final & Hpulls & Hcat & Hall & Hcount
                          & Hoff & Hbytes & Hchunks & Hcalls).
    { unfold st', stop. cbn [Stream.offset]. lia. }
    { unfold st', stop. cbn [Stream.offset]. rewrite Hcs in *.
      rewrite Nat2N.inj_succ in Hfuel. lia. }
    rewrite Hpulls. exists (view :: views), final. split; [reflexivity|].
    unfold st' in *.
    cbn [Stream.offset Stream.processedBytes Stream.chunkCount
         Stream.pullCallCount] in *.
    split; [|split; [|split]].
    + cbn [concat]. rewrite Hcat. unfold view, slice.
      replace (N.to_nat stop)
        with (N.to_nat (stop - Stream.offset st) + N.to_nat (Stream.offset st))%nat
        by (unfold stop; lia).
      rewrite <- skipn_skipn. apply firstn_skipn.
    + constructor; [|exact Hall]. rewrite Hview. unfold stop. lia.
    + cbn [List.length]. rewrite Nat2N.inj_succ, Hcount.
      rewrite (@ceil_step (size f - Stream.offset st) Stream.chunkSize) by lia.
      replace (size f - stop)
        with (size f - Stream.offset st
              - N.min Stream.chunkSize (size f - Stream.offset st))
        by (unfold stop; lia).
      lia.
    + cbn [List.length]. rewrite Nat2N.inj_succ.
      repeat split; lia.
Qed.

(** Read to its end while the flag stays clear and the data file stays in
    place, the stream delivers the bytes of the file, all of them, in
    order, in [Math.ceil(size / 65536)] chunks of at most 64 KB, and then
    closes. *)
Theorem stream_delivers_the_whole_file (f : File) (fuel : nat) :
  Stream.totalChunks (size f) < N.of_nat fuel ->
  exists views final,
    Stream.pulls fuel (Some f) (size f) Stream.start = (views, Some final)
    /\ concat views = content f
    /\ Forall (fun view => N.of_nat (List.length view) <= Stream.chunkSize) views
    /\ N.of_nat (List.length views) = Stream.totalChunks (size f)
    /\ Stream.processedBytes final = size f
    /\ Stream.chunkCount final = Stream.totalChunks (size f).
Proof.
  intros Hfuel.
  assert (Hcs : Stream.chunkSize = 65536) by reflexivity.
  destruct (@pulls_from f fuel Stream.start) as
    (views & final & Hpulls & Hcat & Hall & Hcount & _ & Hbytes & Hchunks & _).
  - cbn. lia.
  - cbn [Stream.start Stream.offset]. rewrite N.sub_0_r.
    unfold Stream.totalChunks in Hfuel. rewrite Hcs in *.
    pose proof (N.div_mod (size f + 65536 - 1) 65536 ltac:(lia)) as Hdiv.
    pose proof (N.mod_lt (size f + 65536 - 1) 65536 ltac:(lia)) as Hmod.
    lia.
  - exists views, final. cbn [Stream.start Stream.offset Stream.processedBytes
                              Stream.chunkCount] in *.
    rewrite N.sub_0_r in *. unfold Stream.totalChunks.
    repeat split; try assumption; try lia.
Qed.

End StreamFacts.

(** ** The hand-over of verified text *)

Section HandOver.

Lemma addon_after_app (a b : list shown) (addon : option Panel.State) :
  Stream.addon_after (a ++ b) addon = Stream.addon_after b (Stream.addon_after a addon).
Proof. unfold Stream.addon_after. apply fold_left_app. Qed.

Lemma addon_after_no_success (log : list shown) (addon : option Panel.State) :
  no_success log -> Stream.addon_after log addon = addon.
Proof.
  unfold Stream.addon_after. revert addon.
  induction log as [|x log IH]; intros addon H; cbn [fold_left]; [reflexivity|].
  rewrite IH.
  - destruct x; try reflexivity. exfalso. apply (H verifiedData). left; reflexivity.
  - intros d Hd. apply (H d). right; exact Hd.
Qed.

Lemma no_success_app (a b : list shown) :
  no_success a -> no_success b -> no_success (a ++ b).
Proof.
  intros Ha Hb d Hd. apply in_app_or in Hd as [Hd|Hd]; [apply (Ha d) | apply (Hb d)];
    exact Hd.
Qed.

Lemma drain_no_success aborted rest ending :
  forall t n consumedBytes lastProgressUpdate log,
    no_success log ->
    no_success (snd (drain aborted t n consumedBytes lastProgressUpdate log rest ending)).
Proof.
  induction rest as [|len rest IH]; intros t n cb lp log Hlog; cbn [drain].
  - destruct (aborted t); [exact Hlog|].
    destruct ending; cbn [snd]; [|exact Hlog].
    apply no_success_app; [exact Hlog|]. intros d [H|[]]; discriminate.
  - destruct (aborted t); [exact Hlog|].
    destruct (N.leb _ _); apply IH; [|exact Hlog].
    apply no_success_app; [exact Hlog|]. intros d [H|[]]; discriminate.
Qed.

Lemma outer_catch_no_success aborted t log :
  no_success log -> no_success (snd (outer_catch aborted t log)).
Proof.
  intros Hlog. unfold outer_catch.
  destruct (aborted t); cbn [snd];
    (apply no_success_app; [exact Hlog|]);
    intros d Hd; cbn [In] in Hd; repeat (destruct Hd as [Hd|Hd]; [discriminate|]);
    exact Hd.
Qed.

(** What a detached run shows: a success at most once, as its last
    display but possibly one, and only when it ran to its end. *)
Lemma verify_detached_log aborted c verifiedDataContent :
  let '(how, log) := verify_detached aborted c verifiedDataContent in
  (how = ran_to_end
   /\ exists pre post,
        log = pre ++ [showSuccess verifiedDataContent] ++ post
        /\ no_success pre /\ no_success post)
  \/ (how <> ran_to_end /\ no_success log).
Proof.
  unfold verify_detached.
  assert (H10 : no_success [showProgress 10])
    by (intros d [H|[]]; discriminate).
  destruct (verify_throws c).
  - pose proof (@outer_catch_no_success aborted 1 [showProgress 10] H10) as H.
    destruct (outer_catch aborted 1 [showProgress 10]) as [how log] eqn:E.
    right. split; [|exact H].
    unfold outer_catch in E. destruct (aborted 1);
      inversion E; discriminate.
  - assert (Hdrained :
      forall d : drained * list shown,
        no_success (snd d) ->
        let '(how, log) :=
          match d with
          | (returned n, log') => (cancelled_in_drain n, log')
          | (threw t, log') => outer_catch aborted t log'
          | (finished t, log') =>
              let log'' := log' ++ [showProgress 97] in
              if verified_rejects c then outer_catch aborted (S t) log''
              else
                (ran_to_end,
                 log'' ++ [showProgress 90; showProgress 100;
                           showSuccess verifiedDataContent]
                 ++ (if aborted (S t) then []
                     else [hideProgressLater]))
          end in
        (how = ran_to_end
         /\ exists pre post,
              log = pre ++ [showSuccess verifiedDataContent] ++ post
              /\ no_success pre /\ no_success post)
        \/ (how <> ran_to_end /\ no_success log)).
    { intros [[n|t|t] log'] Hlog'; cbn [snd] in Hlog'.
      - right. split; [discriminate | exact Hlog'].
      - assert (H97 : no_success (log' ++ [showProgress 97])).
        { apply no_success_app; [exact Hlog'|]. intros d [H|[]]; discriminate. }
        cbv zeta. destruct (verified_rejects c).
        + pose proof (@outer_catch_no_success aborted (S t) _ H97) as H.
          destruct (outer_catch aborted (S t) (log' ++ [showProgress 97]))
            as [how log] eqn:E.
          right. split; [|exact H].
          unfold outer_catch in E.
          destruct (aborted (S t));
            inversion E; discriminate.
        + left. split; [reflexivity|].
          exists ((log' ++ [showProgress 97]) ++ [showProgress 90; showProgress 100]),
            (if aborted (S t) then []
             else [hideProgressLater]).
          split; [rewrite <- !app_assoc; reflexivity|]. split.
          * apply no_success_app; [exact H97|].
            intros d Hd; cbn [In] in Hd;
              repeat (destruct Hd as [Hd|Hd]; [discriminate|]); exact Hd.
          * destruct (aborted (S t));
              intros d Hd; cbn [In] in Hd;
              repeat (destruct Hd as [Hd|Hd]; [discriminate|]); exact Hd.
      - pose proof (@outer_catch_no_success aborted t log' Hlog') as H.
        destruct (outer_catch aborted t log') as [how log] eqn:E.
        right. split; [|exact H].
        unfold outer_catch in E. destruct (aborted t);
          inversion E; discriminate. }
    apply Hdrained. destruct (data c) as [lens ending| len | |]; cbn [snd].
    + apply drain_no_success; exact H10.
    + apply no_success_app; [exact H10|]. intros d [H|[]]; discriminate.
    + exact H10.
    + exact H10.
Qed.

(** A data file of 1,000,000 bytes or more is streamed, and a streamed
    run leaves the checksum section as it was however it ends: there is no
    verified text to hand over. *)
Theorem streamed_data_never_reaches_the_checksum_section
    (aborted : nat -> bool) (c : crypto) (dataFile : DataFile)
    (addon : option Panel.State) :
  (1000000 <= data_size dataFile)%N ->
  choose_mode dataFile = stream_mode
  /\ snd (Stream.detached_run aborted c dataFile addon) = addon.
Proof.
  intros Hsize.
  assert (Hmode : choose_mode dataFile = stream_mode).
  { unfold choose_mode. apply N.ltb_ge in Hsize. rewrite Hsize. reflexivity. }
  split; [exact Hmode|].
  unfold Stream.detached_run. rewrite Hmode. cbn [Stream.verifiedDataContent].
  pose proof (verify_detached_log aborted c None) as Hlog.
  destruct (verify_detached aborted c None) as [how log]. cbn [snd].
  destruct Hlog as [(_ & pre & post & -> & Hpre & Hpost) | (_ & Hnone)].
  - rewrite !addon_after_app, (addon_after_no_success _ Hpre).
    cbn [Stream.addon_after fold_left Stream.hand_over].
    apply addon_after_no_success; exact Hpost.
  - apply addon_after_no_success; exact Hnone.
Qed.

(** In text mode the text is handed over when, and only when, the run ends
    in success. *)
Theorem verified_text_reaches_the_checksum_section
    (aborted : nat -> bool) (c : crypto) (dataFile : DataFile)
    (addon : option Panel.State) (dataText : jsstring) :
  choose_mode dataFile = text_mode dataText ->
  snd (Stream.detached_run aborted c dataFile addon)
  = if match fst (fst (Stream.detached_run aborted c dataFile addon)) with
       | ran_to_end => true
       | _ => false
       end
    then Stream.hand_over (Some dataText) addon
    else addon.
Proof.
  intros Hmode. unfold Stream.detached_run. rewrite Hmode.
  cbn [Stream.verifiedDataContent].
  pose proof (verify_detached_log aborted c (Some dataText)) as Hlog.
  destruct (verify_detached aborted c (Some dataText)) as [how log]. cbn [fst snd].
  destruct Hlog as [(-> & pre & post & -> & Hpre & Hpost) | (Hhow & Hnone)].
  - rewrite !addon_after_app, (addon_after_no_success _ Hpre).
    cbn [Stream.addon_after fold_left].
    apply addon_after_no_success; exact Hpost.
  - rewrite (addon_after_no_success _ Hnone).
    destruct how; [reflexivity | congruence | reflexivity].
Qed.

End HandOver.

(** ** Worked instances *)

Lemma parsed_digests_are_lowercase_hex_witness :
  forallb hex_lower sha256_of_abc = true
  /\ (32 <= List.length sha256_of_abc <= 128)%nat.
Proof.
  apply (@parsed_digests_are_lowercase_hex upper_manifest (js "a.iso")
           sha256_of_abc).
  vm_compute. left. reflexivity.
Defined.

Lemma parsed_names_have_no_directory_witness :
  forallb (fun x => negb (is_path_sep x)) (js "a.iso") = true.
Proof.
  apply (@parsed_names_have_no_directory upper_manifest (js "a.iso")
           sha256_of_abc).
  vm_compute. left. reflexivity.
Defined.

Lemma bsd_line_is_detected_and_parsed_witness :
  containsChecksums (js "SHA256" ++ js " (" ++ js "dir/a.iso" ++ js ") = "
                     ++ upper_sha256_of_abc) = true
  /\ parseChecksums (js "SHA256" ++ js " (" ++ js "dir/a.iso" ++ js ") = "
                     ++ upper_sha256_of_abc)
     = [(last_segment (js "dir/a.iso"), toLowerCase upper_sha256_of_abc)].
Proof.
  apply (@bsd_line_is_detected_and_parsed (js "SHA256") (js "dir/a.iso")
           upper_sha256_of_abc).
  - left. reflexivity.
  - repeat split; vm_compute; reflexivity.
  - split; [cbn; lia | vm_compute; reflexivity].
  - vm_compute; discriminate.
Defined.

Lemma starred_line_is_parsed_witness :
  parseChecksums (sha256_of_abc ++ js " " ++ 42%N :: js "a.iso")
  = [(last_segment (js "a.iso"), toLowerCase sha256_of_abc)]
  /\ (forallb hex_lower sha256_of_abc = true ->
      containsChecksums (sha256_of_abc ++ js " " ++ 42%N :: js "a.iso") = true).
Proof.
  apply (@starred_line_is_parsed sha256_of_abc (js " ") (js "a.iso")).
  - split; [cbn; lia | vm_compute; reflexivity].
  - discriminate.
  - vm_compute; reflexivity.
  - vm_compute; reflexivity.
  - vm_compute; reflexivity.
  - vm_compute; reflexivity.
  - vm_compute; discriminate.
Defined.

Lemma last_line_decides_the_digest_witness :
  Obj.get (parseChecksums ((md5_of_empty ++ js "  a.iso")
                           ++ 10%N :: sha256_of_abc ++ js "  " ++ js "a.iso"))
    (last_segment (js "a.iso"))
  = Some (toLowerCase sha256_of_abc)
  /\ parseChecksums ((md5_of_empty ++ js "  a.iso")
                     ++ 10%N :: sha256_of_abc ++ js "  " ++ js "dir/__proto__")
     = parseChecksums (md5_of_empty ++ js "  a.iso").
Proof.
  split.
  - apply (@last_line_decides_the_digest (md5_of_empty ++ js "  a.iso")
             sha256_of_abc (js "  ") (js "a.iso")).
    + split; [cbn; lia | vm_compute; reflexivity].
    + discriminate.
    + vm_compute; reflexivity.
    + repeat split; try (vm_compute; reflexivity); discriminate.
    + vm_compute; discriminate.
  - apply (@last_line_decides_the_digest (md5_of_empty ++ js "  a.iso")
             sha256_of_abc (js "  ") (js "dir/__proto__")).
    + split; [cbn; lia | vm_compute; reflexivity].
    + discriminate.
    + vm_compute; reflexivity.
    + repeat split; try (vm_compute; reflexivity); discriminate.
    + vm_compute; reflexivity.
Defined.

Lemma comment_and_blank_lines_are_skipped_witness :
  parseChecksums ((sha256_of_abc ++ js "  a.iso") ++ 10%N :: js "  # SHA-256"
                  ++ 10%N :: md5_of_empty ++ js "  b.iso")
  = parseChecksums ((sha256_of_abc ++ js "  a.iso")
                    ++ 10%N :: md5_of_empty ++ js "  b.iso").
Proof.
  apply (@comment_and_blank_lines_are_skipped (sha256_of_abc ++ js "  a.iso")
           (js "  # SHA-256") (md5_of_empty ++ js "  b.iso")).
  - vm_compute; reflexivity.
  - right. exists (js "  "), (js " SHA-256"). split; vm_compute; reflexivity.
Defined.

Lemma bare_digest_is_detected_but_not_parsed_witness :
  containsChecksums (sha256_of_abc ++ 10%N :: 35%N :: js " a.iso") = true
  /\ parseChecksums (sha256_of_abc ++ 10%N :: 35%N :: js " a.iso") = []
  /\ parsedChecksums
       (Panel.queue (Panel.showChecksumSection panel_after_a_iso
                       (sha256_of_abc ++ 10%N :: 35%N :: js " a.iso"))) = []
  /\ Panel.container_shown
       (Panel.showChecksumSection panel_after_a_iso
          (sha256_of_abc ++ 10%N :: 35%N :: js " a.iso")) = false.
Proof.
  apply (@bare_digest_is_detected_but_not_parsed sha256_of_abc (js " a.iso")
           panel_after_a_iso).
  - cbn; lia.
  - vm_compute; reflexivity.
  - discriminate.
  - vm_compute; reflexivity.
Defined.




Lemma missing_library_is_reported_witness :
  verify_reference abc_manifest [] page_without_library a_iso
  = ([], ERROR LibraryNotLoaded).
Proof.
  apply (@missing_library_is_reported Reference.sha256_reference
           Reference.sha256_reference abc_manifest [] page_without_library a_iso).
  - reflexivity.
  - reflexivity.
  - vm_compute; discriminate.
Defined.

Lemma idle_queue_has_no_pending_file_witness :
  isProcessingQueue (fst a_iso_verified) = false
  /\ fileQueue (fst a_iso_verified) = [0%nat]
  /\ status_of (items (fst a_iso_verified)) 0 <> Some pending.
Proof.
  assert (Hidle : isProcessingQueue (fst a_iso_verified) = false)
    by (vm_compute; reflexivity).
  assert (Hqueue : fileQueue (fst a_iso_verified) = [0%nat])
    by (vm_compute; reflexivity).
  split; [exact Hidle|]. split; [exact Hqueue|].
  apply (@idle_queue_has_no_pending_file Reference.sha256_reference
           Reference.sha256_reference abc_manifest (fst a_iso_verified)
           (([] ++ snd one_file_uploaded) ++ snd a_iso_verified)).
  - unfold a_iso_verified. apply reaches_step.
    unfold one_file_uploaded. apply reaches_step. apply reaches_initial.
  - exact Hidle.
  - rewrite Hqueue. left. reflexivity.
Defined.

Lemma verified_files_are_manifest_entries_witness :
  exists h,
    Obj.get (parsedChecksums (Panel.queue panel_after_a_iso)) (js "a.iso") = Some h
    /\ List.length h = 64%nat
    /\ In (js "a.iso", h, true)
         (Panel.rows
            (Panel.displayChecksumList
               (parsedChecksums (Panel.queue panel_after_a_iso))
               (verifiedFiles (Panel.queue panel_after_a_iso)))).
Proof.
  destruct (@verified_files_are_manifest_entries Reference.sha256_reference
              Reference.sha256_reference panel_after_a_iso) as [Hrows _].
  - unfold panel_after_a_iso, panel_step.
    apply Panel.reaches_step. apply Panel.reaches_step. apply Panel.reaches_step.
    apply Panel.reaches_initial.
  - apply Hrows. vm_compute. left. reflexivity.
Defined.

Lemma pasted_signature_is_taken_as_key_witness :
  (App.includes (trim signature_block) App.SIGNATURE
   && negb (App.includes (trim signature_block) App.PUBLIC_KEY)) = false
  /\ App.publicKey
       (fst (App.handleKeyTextPaste (fun _ => Some [tt]) empty_state signature_block))
     = Some (trim signature_block)
  /\ ~ In App.WrongSection
         (snd (App.handleKeyTextPaste (fun _ => Some [tt]) empty_state
                 signature_block)).
Proof.
  apply (@pasted_signature_is_taken_as_key unit (fun _ => Some [tt]) empty_state
           signature_block).
  - vm_compute; discriminate.
  - vm_compute; reflexivity.
Defined.

Lemma stop_flag_is_never_set_witness :
  App.isVerifying (App.app page_verifying) = true
  /\ App.verificationAborted (App.app (App.resetBtn_click page_verifying)) = false.
Proof.
  split; [reflexivity|].
  apply (@stop_flag_is_never_set unit None (App.resetBtn_click page_verifying)).
  change (App.resetBtn_click page_verifying)
    with (App.step page_verifying (App.ResetClicked unit)).
  apply App.reaches_step. unfold page_verifying.
  apply App.reaches_step. apply App.reaches_step. apply App.reaches_step.
  apply App.reaches_loaded.
Defined.

Lemma stop_click_does_not_cancel_witness :
  App.isVerifying (App.app page_verifying_detached) = true
  /\ App.dataFile (App.app page_verifying_detached) = Some data_upload
  /\ verify_detached (App.flag_during page_verifying_detached stop_clicked)
       truncated_stream None
     = (caught,
        [showProgress 10; showProgress 95; showProgress 97; showError;
         hideProgress; hideProgressLater])
  /\ App.dataFile_during page_verifying_detached stop_clicked 3 = None.
Proof.
  split; [reflexivity|]. split; [reflexivity|].
  destruct (@stop_click_does_not_cancel unit page_verifying_detached
              stop_clicked truncated_stream None eq_refl)
    as (_ & Hsame & _ & _ & _ & Hclick).
  split.
  - rewrite Hsame. vm_compute. reflexivity.
  - apply (Hclick 2%nat). reflexivity.
Defined.

Lemma pasted_text_always_has_a_type_witness :
  clearsigned_text <> [] /\ App.detectSignatureType clearsigned_text <> None.
Proof.
  apply (@pasted_text_always_has_a_type unit None page_verifying clearsigned_text).
  - unfold page_verifying.
    apply App.reaches_step. apply App.reaches_step. apply App.reaches_step.
    apply App.reaches_loaded.
  - vm_compute; reflexivity.
Defined.

Lemma high_bit_file_is_a_detached_signature_witness :
  fst (App.handleSignedFileUpload empty_state clearsigned_with_bom)
  = {| App.publicKey := App.publicKey empty_state;
       App.publicKeyObjects := App.publicKeyObjects empty_state;
       App.signedFile := None; App.signedText := None;
       App.detachedSignature := Some clearsigned_with_bom;
       App.dataFile := None;
       App.isVerifying := App.isVerifying empty_state;
       App.verificationAborted := App.verificationAborted empty_state |}.
Proof.
  apply (@high_bit_file_is_a_detached_signature unit empty_state
           clearsigned_with_bom 239%N).
  - reflexivity.
  - lia.
  - vm_compute; reflexivity.
Defined.

Lemma stream_delivers_the_whole_file_witness :
  exists views final,
    Stream.pulls 2 (Some a_iso) (size a_iso) Stream.start = (views, Some final)
    /\ concat views = content a_iso
    /\ Forall (fun view => (N.of_nat (List.length view) <= Stream.chunkSize)%N) views
    /\ N.of_nat (List.length views) = Stream.totalChunks (size a_iso)
    /\ Stream.processedBytes final = size a_iso
    /\ Stream.chunkCount final = Stream.totalChunks (size a_iso).
Proof.
  apply (@stream_delivers_the_whole_file a_iso 2).
  vm_compute; reflexivity.
Defined.

Lemma streamed_data_never_reaches_the_checksum_section_witness :
  choose_mode large_data_file = stream_mode
  /\ snd (Stream.detached_run never_set valid_signature large_data_file
            (Some Panel.initial))
     = Some Panel.initial.
Proof.
  apply (@streamed_data_never_reaches_the_checksum_section never_set valid_signature
           large_data_file (Some Panel.initial)).
  vm_compute; discriminate.
Defined.

Lemma verified_text_reaches_the_checksum_section_witness :
  snd (Stream.detached_run never_set valid_signature manifest_data_file
         (Some Panel.initial))
  = if match fst (fst (Stream.detached_run never_set valid_signature
                         manifest_data_file (Some Panel.initial))) with
       | ran_to_end => true
       | _ => false
       end
    then Stream.hand_over (Some (sha256_of_abc ++ js "  a.iso"))
           (Some Panel.initial)
    else Some Panel.initial.
Proof.
  apply (@verified_text_reaches_the_checksum_section never_set valid_signature
           manifest_data_file (Some Panel.initial)
           (sha256_of_abc ++ js "  a.iso")).
  vm_compute; reflexivity.
Defined.

Example manifest_handed_over :
  option_map (fun p => parsedChecksums (Panel.queue p))
    (snd (Stream.detached_run never_set valid_signature manifest_data_file
            (Some Panel.initial)))
  = Some [(js "a.iso", sha256_of_abc)].
Proof. vm_compute. reflexivity. Qed.
